(** * game-library: the [Game] engine facade

    A shallow embedding of the engine class [Game] (lifecycle chain,
    frame loop, registries and utility operations) and the properties
    of it that the specification states.

    Conventions of the embedding.
    - A JavaScript [number] is an exact rational ([Q]) in the engine
      state: no rounding, no NaN, no infinity.  Where a property turns
      on them they are modelled apart: [Double] has NaN and the
      infinities, [Sizes] holds the width, the height and the scale as
      such values, and the division of [SpriteSheet] is a function
      about which nothing is supposed.
    - A [Map<string, V>] is a [gmap string V], a [Set<string>] a
      [gset string].  A [forEach] over a map visits it in key order here,
      in insertion order in the browser; nothing below depends on it.
    - The private fields of the class keep their names, without [#].
    - Objects are references in JavaScript: an entity carries the
      identity [oid] of the object it is, allocated by [new].
    - The drawing context is the list of calls made on it, the console
      the list of lines written to it (newest first in both).  A call
      on the context returns in the model; in the browser [drawImage]
      throws for an image that failed to load, and nothing below is
      stated about the context after such a call.
    - Methods that only draw or only touch the page ([useShowBorders],
      [useShowCenteredAxis], [useFullScreen], [useGamepad], the
      [background] setter) are not part of the model. *)

From Stdlib Require Import QArith Qabs.
From stdpp Require Import gmap strings list fin_maps pretty.

Abbreviation number := Q.

(** ** Asset handles and entities

    The classes [GameSprite], [GameAudio], [GameMap], [GameCamera] and
    [GameObject] are imported by the engine; the records below hold the
    fields the engine reads and writes. *)

Module Vector2.
Record t := mk { x : number; y : number }.
End Vector2.

Module Flip.
Record t := mk { x : bool; y : bool }.
End Flip.

(** The collision rectangle of an entity.  The engine tests each field
    with [typeof f === "number"]: a field is [None] when it holds no
    number. *)
Module Collision.
Record t := mk {
  x : option number;
  y : option number;
  w : option number;
  h : option number
}.
Definition unset : t := mk None None None None.
End Collision.

(** [typeof v === "number"] *)
Definition typeof_number (v : option number) : bool :=
  match v with Some _ => true | None => false end.

(** The value read from a field known to hold a number. *)
Definition num (v : option number) : number :=
  match v with Some q => q | None => 0%Q end.

Module GameSprite.
Record t := mk {
  name : string;
  src : string;
  pos : Vector2.t;
  size : Vector2.t;
  rotate : number;
  skew : Vector2.t;
  flip : Flip.t;
  element : nat  (* the image element the sprite owns *)
}.

(** Modelled from the spec: [GameSprite.clone], which is not in the
    engine's file.  A sprite is "cloned when instanced": the clone has
    the fields of the original. *)
Definition clone (s : t) : t :=
  mk (name s) (src s) (pos s) (size s) (rotate s) (skew s) (flip s) (element s).

(** Modelled from the spec: the "sentinel empty instance" returned on
    a lookup miss. *)
Definition getEmptyInstance : t :=
  mk EmptyString EmptyString (Vector2.mk 0 0) (Vector2.mk 0 0) 0
     (Vector2.mk 0 0) (Flip.mk false false) 0.
End GameSprite.

Module GameAudio.
Record t := mk { name : string; src : string; element : nat }.
Definition getEmptyInstance : t := mk EmptyString EmptyString 0.
End GameAudio.

Module GameMap.
Record t := mk { name : string; sprite : GameSprite.t }.
Definition getEmptyInstance : t := mk EmptyString GameSprite.getEmptyInstance.
End GameMap.

Module GameCamera.
Record t := mk {
  name : string;
  map : GameMap.t;
  pos : Vector2.t;
  size : Vector2.t
}.
End GameCamera.

Module GameObject.
(** [oid] tells one object from another with the same fields: the
    engine numbers the entities it makes from its counter [nextOid]; the
    entities a page makes carry numbers of the page's choosing. *)
Record t := mk {
  oid : nat;
  name : string;
  sprite : GameSprite.t;
  pos : Vector2.t;
  size : Vector2.t;
  collision : Collision.t;
  layer : number;
  instanceId : nat
}.

(** Modelled from the spec: the constructor [new GameObject(name,
    sprite, layer)], which is not in the engine's file.  An entity has
    a name, an owned sprite, a position and size, an optional collision
    rectangle, a layer ordinal and an instance counter; [o] is the
    identity of the new object. *)
Definition new (o : nat) (name : string) (sprite : GameSprite.t)
    (layer : number) : t :=
  mk o name sprite (GameSprite.pos sprite) (GameSprite.size sprite)
     Collision.unset layer 0.

Definition getEmptyInstance : t :=
  new 0 EmptyString GameSprite.getEmptyInstance 0.

(** [newObject.instanceId++] *)
Definition bump_instanceId (g : t) : t :=
  mk (oid g) (name g) (sprite g) (pos g) (size g) (collision g) (layer g)
     (S (instanceId g)).
End GameObject.

(** ** The keyboard input source

    Modelled from the spec: the class [GameKeyboard], which is not in the
    engine's file.  The input collaborator "emits discrete press/release
    events keyed by a symbolic key name; exposes attach/detach".  It is
    built over the engine's key-state map and attaches a key-down and a
    key-up listener on construction; [removeListener] detaches both, as
    the shipped [GameGamepad] class does. *)
Module GameKeyboard.
(** An instance is known by the number of its pair of listeners; which
    pairs are attached to the window is the host's to know. *)
Record t := mk { listenerId : nat }.
End GameKeyboard.

(** ** Host objects: console and drawing context *)

(** The four methods of [console] the engine writes with. *)
Inductive LogLevel := console_log | console_warn | console_info | console_error.

Abbreviation Console := (list (LogLevel * string)).

Inductive CtxOp :=
| Save
| Restore
| Scale (sx sy : number)
| ClearRect (x y w h : number)
| DrawImage (element : nat) (sx sy sw sh dx dy dw dh : number)
| Translate (x y : number)
| RotatePi (angle : number)                (* [rotate(angle * Math.PI)] *)
| TransformPi (a b c d e f : number)       (* [transform(a, b * Math.PI, c * Math.PI, d, e, f)] *)
| DrawImage5 (element : nat) (dx dy dw dh : number)
| ImageSmoothingEnabled (b : bool)
| ImageSmoothingQuality (q : string)
| SetTransform (a b c d e f : number)
| Reset
| BeginPath
| Rect (x y w h : number)
| LineWidth (v : number)
| StrokeStyle (style : string)
| Stroke
| ClosePath.

(** ** Outcomes of code that may throw *)

Inductive Completion (A : Type) :=
| Normal (a : A)
| Throw (err : string).
Arguments Normal {A} a.
Arguments Throw {A} err.

(** The lifecycle states, [GameState] in the source. *)
Module GameState.
Inductive t := unset | preload | load | update | error.
#[global] Instance eq_dec : EqDecision t.
Proof. solve_decision. Defined.
End GameState.

Inductive RenderingType := smooth | pixelated.
#[global] Instance RenderingType_eq_dec : EqDecision RenderingType.
Proof. solve_decision. Defined.

Definition RenderingType_to_string (r : RenderingType) : string :=
  match r with smooth => "smooth" | pixelated => "pixelated" end.

Inductive SmoothingQuality := low | medium | high.


Definition SmoothingQuality_to_string (q : SmoothingQuality) : string :=
  match q with low => "low" | medium => "medium" | high => "high" end.

(** ** User code

    The engine calls code it does not own: the stage producers and the
    per-frame callback.  Such code is a script over the engine's public
    interface: each node is one call, and the continuation receives what
    the call returned. *)

(** What [removeObject] may be handed. *)
Inductive Target :=
| TargetSprite (s : GameSprite.t)
| TargetObject (o : GameObject.t).

Module Op.
(** The calls user code can make on the engine ([game.m(...)]) and on
    the object handed to the per-frame callback ([updater.m(...)]),
    indexed by what they return. *)
Inductive t : Type -> Type :=
| get_width : t number
| get_height : t number
| get_scale : t number
| set_scale (scaleValue : number) : t unit
| get_renderingType : t RenderingType
| set_renderingType (renderingType : RenderingType) : t unit
| get_smoothingQuality : t SmoothingQuality
| set_smoothingQuality (smoothingQuality : SmoothingQuality) : t unit
| get_gameObjects : t (gmap string GameObject.t)
| get_loadedGameSprites : t (gmap string GameSprite.t)
| get_isRunning : t bool
| pause : t unit
| resume : t unit
| end_ : t unit
| removeObject (targetObject : Target) : t unit
| instantiate (targetObject : GameObject.t) (quantity : nat) : t (list GameObject.t)
| destroy (targetObject : GameObject.t) : t unit
| colliding (object1 object2 : GameObject.t) : t bool
| translate (px py : number) : t unit
| useClearScreen : t unit
| useLogs : t unit
| useShowCollisions : t unit
| useKeyboard : t unit
| keyboard_isDown (key : string) : t bool
| updater_logObjects : t unit
| updater_getSprite (spriteName : string) : t GameSprite.t
| updater_getAudio (audioName : string) : t GameAudio.t
| updater_getObject (gameObjectName : string) : t GameObject.t
| updater_getMap (gameMapName : string) : t GameMap.t
| updater_animateFromName (gameObjectName : string) : t unit
| updater_animate (targetObject : GameObject.t) : t unit
| updater_animateMany (gameObjects : list GameObject.t) : t unit
| updater_pause : t unit
| updater_resume : t unit
(** user code writes the fields of the entity it holds: the registry
    holds the same object *)
| write_object (o : GameObject.t) : t unit.
End Op.

Inductive Script :=
| Return
| Raise (err : string)
| Call {A : Type} (op : Op.t A) (k : A -> Script)
| RunOnce (identifier : string) (callbackFn : Script) (k : Script)
| Outbound (targetObject : GameObject.t) (screenThreshold : number) (k : Script)
| OutboundWith (targetObject : GameObject.t) (screenThreshold : number)
    (callbackFn : Script) (k : Script).

(** The per-frame callback [(updater, deltaTime) => ...]. *)
Abbreviation Callback := (number -> Script).

(** What the [load] producer returns a list of. *)
Inductive LoadItem :=
| ItemObject (o : GameObject.t)
| ItemMap (m : GameMap.t)
| ItemCamera (c : GameCamera.t).

(** The [load] producer, a script over the accessor object it is
    handed. *)
Inductive LoadScript :=
| LoadReturn (objects : list LoadItem)
| LoadRaise (err : string)
| LogAssets (k : LoadScript)
| GetSprite (spriteName : string) (k : GameSprite.t -> LoadScript)
| GetAudio (audioName : string) (k : GameAudio.t -> LoadScript).

(** What the [preload] producer returns a list of. *)
Inductive Asset :=
| AssetSprite (s : GameSprite.t)
| AssetAudio (a : GameAudio.t).

(** ** The lifecycle chain

    [#lifecyclePromise] is a promise; [p.then(f)] and [p.catch(h)] make
    a new promise from [p].  The promises of an engine are numbered in
    the order they are made, [0] being the [Promise.resolve()] the field
    starts with; promise [S i] is described by the [i]-th link. *)

Inductive Outcome :=
| Pending                       (* never settles *)
| Fulfilled
| Rejected (reason : string).

(** The body of a stage, with the producer the user registered. *)
Inductive Stage :=
| PreloadStage (callbackFn : Completion (list Asset))
| LoadStage (callbackFn : LoadScript)
| UpdateStage (callbackFn : Callback).

Inductive Reaction :=
| Then (body : Stage)           (* [p.then(body)] *)
| Catch.                        (* [p.catch(handler)], the constructor's handler *)

Inductive LinkState :=
| Registered                    (* the reaction has not run yet *)
| PassedThrough (o : Outcome)   (* settled as its parent, callback not called *)
| Called (o : Outcome).         (* callback called; how its promise settled *)

Module Link.
Record t := mk { parent : nat; reaction : Reaction; state : LinkState }.
End Link.

(** One call of the per-frame callback: the timestamp of the tick, the
    elapsed time handed to the callback, and whether the tick went on to
    record its timestamp as the previous one. *)
Module Tick.
Record t := mk { time : number; deltaTime : number; recorded : bool }.
End Tick.

(** ** Comparisons of numbers, as JavaScript writes them *)

Definition lte (a b : number) : bool := Qle_bool a b.          (* [a <= b] *)
Definition gte (a b : number) : bool := Qle_bool b a.          (* [a >= b] *)
Definition lt (a b : number) : bool := negb (Qle_bool b a).    (* [a < b] *)
Definition gt (a b : number) : bool := negb (Qle_bool a b).    (* [a > b] *)
Definition strict_ne (a b : number) : bool := negb (Qeq_bool a b).  (* [a !== b] *)

(** ** The engine

    The private fields of [Game], followed by the part of the host that
    the engine talks to. *)
Module Game.
Record t := mk {
  ctx : option (list CtxOp);  (* the 2D context: [None] is [null], else the calls made on it *)
  width : number;
  height : number;
  renderingType : RenderingType;
  smoothRenderingValue : SmoothingQuality;
  scale : number;
  loadedSprites : gmap string GameSprite.t;
  loadedGameObjects : gmap string GameObject.t;
  loadedAudios : gmap string GameAudio.t;
  loadedGameMaps : gmap string GameMap.t;
  loadedGameCameras : gmap string GameCamera.t;
  logsEnabled : bool;
  loggedErros : gset string;
  currentState : GameState.t;
  lifecyclePromise : nat;  (* the number of the promise the field holds *)
  updateFrameId : nat;
  updaterRunOnceKeys : gset string;
  deltaTimePreviousTime : number;
  updateIsRunning : bool;
  updateLoopLogic : option Callback;  (* the loop closure, given by the callback it calls *)
  keyboardEnabled : bool;
  keyboardState : gmap string bool;
  keyboardInstance : option GameKeyboard.t;
  console : Console;  (* host: lines written to the console *)
  promises : list Link.t;  (* host: the promises made from promise 0 *)
  animationFrames : list (nat * Callback);  (* host: requested animation frames, by request id *)
  nextFrameId : nat;  (* host: the id the next request gets *)
  keyListeners : gset nat;  (* host: the keyboard listener pairs attached to the window *)
  nextListenerId : nat;  (* host: the number the next listener pair gets *)
  nextOid : nat;  (* host: the identity the next new entity gets *)
  ticks : list Tick.t  (* the calls of the per-frame callback so far, newest first *)
}.

(** Field assignment, [this.#f = v]: the record rebuilt from its fields,
    with [v] in the place of the field [f]. *)
Definition rebuilt (g : t) : t :=
  mk (ctx g) (width g) (height g) (renderingType g) (smoothRenderingValue g)
     (scale g) (loadedSprites g) (loadedGameObjects g) (loadedAudios g)
     (loadedGameMaps g) (loadedGameCameras g) (logsEnabled g)
     (loggedErros g) (currentState g) (lifecyclePromise g) (updateFrameId g)
     (updaterRunOnceKeys g) (deltaTimePreviousTime g) (updateIsRunning g)
     (updateLoopLogic g) (keyboardEnabled g) (keyboardState g)
     (keyboardInstance g) (console g) (promises g) (animationFrames g)
     (nextFrameId g) (keyListeners g) (nextListenerId g) (nextOid g)
     (ticks g).

Ltac assign_field f :=
  let whole := eval cbv delta [rebuilt] in rebuilt in
  lazymatch eval pattern f in whole with
  | ?build _ =>
      let assign := eval cbv beta in (fun v g => build (fun _ => v) g) in
      exact assign
  end.

Definition put_ctx : option (list CtxOp) -> t -> t := ltac:(assign_field ctx).
Definition put_width : number -> t -> t := ltac:(assign_field width).
Definition put_height : number -> t -> t := ltac:(assign_field height).
Definition put_renderingType : RenderingType -> t -> t := ltac:(assign_field renderingType).
Definition put_smoothRenderingValue : SmoothingQuality -> t -> t := ltac:(assign_field smoothRenderingValue).
Definition put_scale : number -> t -> t := ltac:(assign_field scale).
Definition put_loadedSprites : gmap string GameSprite.t -> t -> t := ltac:(assign_field loadedSprites).
Definition put_loadedGameObjects : gmap string GameObject.t -> t -> t := ltac:(assign_field loadedGameObjects).
Definition put_loadedAudios : gmap string GameAudio.t -> t -> t := ltac:(assign_field loadedAudios).
Definition put_loadedGameMaps : gmap string GameMap.t -> t -> t := ltac:(assign_field loadedGameMaps).
Definition put_loadedGameCameras : gmap string GameCamera.t -> t -> t := ltac:(assign_field loadedGameCameras).
Definition put_logsEnabled : bool -> t -> t := ltac:(assign_field logsEnabled).
Definition put_loggedErros : gset string -> t -> t := ltac:(assign_field loggedErros).
Definition put_currentState : GameState.t -> t -> t := ltac:(assign_field currentState).
Definition put_lifecyclePromise : nat -> t -> t := ltac:(assign_field lifecyclePromise).
Definition put_updateFrameId : nat -> t -> t := ltac:(assign_field updateFrameId).
Definition put_updaterRunOnceKeys : gset string -> t -> t := ltac:(assign_field updaterRunOnceKeys).
Definition put_deltaTimePreviousTime : number -> t -> t := ltac:(assign_field deltaTimePreviousTime).
Definition put_updateIsRunning : bool -> t -> t := ltac:(assign_field updateIsRunning).
Definition put_updateLoopLogic : option Callback -> t -> t := ltac:(assign_field updateLoopLogic).
Definition put_keyboardEnabled : bool -> t -> t := ltac:(assign_field keyboardEnabled).
Definition put_keyboardState : gmap string bool -> t -> t := ltac:(assign_field keyboardState).
Definition put_keyboardInstance : option GameKeyboard.t -> t -> t := ltac:(assign_field keyboardInstance).
Definition put_console : Console -> t -> t := ltac:(assign_field console).
Definition put_promises : list Link.t -> t -> t := ltac:(assign_field promises).
Definition put_animationFrames : list (nat * Callback) -> t -> t := ltac:(assign_field animationFrames).
Definition put_nextFrameId : nat -> t -> t := ltac:(assign_field nextFrameId).
Definition put_keyListeners : gset nat -> t -> t := ltac:(assign_field keyListeners).
Definition put_nextListenerId : nat -> t -> t := ltac:(assign_field nextListenerId).
Definition put_nextOid : nat -> t -> t := ltac:(assign_field nextOid).
Definition put_ticks : list Tick.t -> t -> t := ltac:(assign_field ticks).

Example put_scale_assigns (v : number) (g : t) :
  scale (put_scale v g) = v /\ width (put_scale v g) = width g.
Proof. split; reflexivity. Qed.

(** *** Methods as state transformers

    A method takes the engine to a completion and the engine it leaves:
    what a method wrote before it threw stays written. *)
Definition M (A : Type) : Type := t -> Completion A * t.

Definition ret {A} (a : A) : M A := fun g => (Normal a, g).

Definition throw {A} (err : string) : M A := fun g => (Throw err, g).

Definition bind {A B} (m : M A) (k : A -> M B) : M B :=
  fun g =>
    match m g with
    | (Normal a, g') => k a g'
    | (Throw err, g') => (Throw err, g')
    end.

Definition lift (f : t -> t) : M unit := fun g => (Normal tt, f g).

Definition read {A} (f : t -> A) : M A := fun g => (Normal (f g), g).

(** *** The host *)

(** [console.log], [console.warn], [console.info], [console.error] *)
Definition console_write (l : LogLevel) (line : string) (g : t) : t :=
  put_console ((l, line) :: console g) g.

(** [if (this.#logsEnabled) console.<l>(line)] *)
Definition log_if_enabled (l : LogLevel) (line : string) (g : t) : t :=
  if logsEnabled g then console_write l line g else g.

(** [GameLogger.out(type, message)]: the line is the message; the
    caller information the logger appends to it is left out. *)
Definition GameLogger_out (l : LogLevel) (message : string) (g : t) : t :=
  console_write l message g.

(** Calls on the drawing context, made only when there is one. *)
Definition ctx_calls (ops : list CtxOp) (g : t) : t :=
  match ctx g with
  | Some done => put_ctx (Some (rev ops ++ done)) g
  | None => g
  end.

Definition requestAnimationFrame (callback : Callback) (g : t) : nat * t :=
  let id := nextFrameId g in
  (id, put_nextFrameId (S id)
         (put_animationFrames (animationFrames g ++ [(id, callback)]) g)).

Definition cancelAnimationFrame (id : nat) (g : t) : t :=
  put_animationFrames
    (filter (fun f : nat * Callback => f.1 ≠ id) (animationFrames g)) g.

(** [new GameKeyboard(this.#keyboardState)]: the new instance attaches
    its listeners. *)
Definition new_GameKeyboard (g : t) : GameKeyboard.t * t :=
  let id := nextListenerId g in
  (GameKeyboard.mk id,
   console_write console_info "Keyboard Event Listener sucessfuly created"
     (put_nextListenerId (S id) (put_keyListeners ({[id]} ∪ keyListeners g) g))).

(** [keyboard.removeListener()] *)
Definition GameKeyboard_removeListener (k : GameKeyboard.t) (g : t) : t :=
  console_write console_info "Keyboard Event Listener sucessfuly removed"
    (put_keyListeners (keyListeners g ∖ {[GameKeyboard.listenerId k]}) g).

(** [keyboard.isDown(key)] *)
Definition GameKeyboard_isDown (key : string) (g : t) : bool :=
  match keyboardState g !! key with
  | Some true => true
  | _ => false
  end.

(** *** Constructor, getters and setters *)

(** The engine [new Game(width, height, appendToElement)] leaves when it
    returns: the field initialisers, then the body of the constructor.
    [context] is whether [getContext("2d")] gives a context. *)
Definition constructed (width height : number) (context : bool) : t :=
  {|
    ctx := if context then Some [] else None;
    width := Qabs width;
    height := Qabs height;
    renderingType := smooth;
    smoothRenderingValue := low;
    scale := 1;
    loadedSprites := ∅;
    loadedGameObjects := ∅;
    loadedAudios := ∅;
    loadedGameMaps := ∅;
    loadedGameCameras := ∅;
    logsEnabled := false;
    loggedErros := ∅;
    currentState := GameState.unset;
    lifecyclePromise := 0;
    updateFrameId := 0;
    updaterRunOnceKeys := ∅;
    deltaTimePreviousTime := 0;
    updateIsRunning := false;
    updateLoopLogic := None;
    keyboardEnabled := false;
    keyboardState := ∅;
    keyboardInstance := None;
    console :=
      if lt width 0 || lt height 0
      then [(console_warn, "Game constructor: Negative values converted into positive.")]
      else [];
    (* [this.#lifecyclePromise.catch(handler)]: a promise made from
       promise 0; the field keeps holding promise 0 *)
    promises := [Link.mk 0 Catch Registered];
    animationFrames := [];
    nextFrameId := 1;
    keyListeners := ∅;
    nextListenerId := 0;
    nextOid := 0;
    ticks := []
  |}.

(** [new Game(width, height, appendToElement)].  [isHTMLElement] is
    [appendToElement instanceof HTMLElement]: the constructor throws
    when it is not. *)
Definition constructor (width height : number) (isHTMLElement context : bool)
    : Completion t :=
  if negb isHTMLElement
  then Throw "Game constructor: A Game should be appended to a working HTMLElement."
  else Normal (constructed width height context).

Definition get_width (g : t) : number := width g.
Definition get_height (g : t) : number := height g.
Definition get_scale (g : t) : number := scale g.

Definition set_scale (scaleValue : number) (g : t) : t :=
  put_scale (Qabs scaleValue) g.

Definition get_renderingType (g : t) : RenderingType := renderingType g.

Definition set_renderingType (r : RenderingType) (g : t) : t :=
  put_renderingType r g.

Definition get_smoothingQuality (g : t) : SmoothingQuality :=
  smoothRenderingValue g.

Definition set_smoothingQuality (smoothingQuality : SmoothingQuality) : M unit :=
  fun g =>
    if decide (renderingType g ≠ smooth)
    then (Throw ("The current rendering type is set to '"
                 +:+ RenderingType_to_string (get_renderingType g)
                 +:+ "', set it to 'smooth' to use the 'smoothingQuality' attribute"),
          g)
    else (Normal tt, put_smoothRenderingValue smoothingQuality g).

Definition get_gameObjects (g : t) : gmap string GameObject.t :=
  loadedGameObjects g.

Definition get_loadedGameSprites (g : t) : gmap string GameSprite.t :=
  loadedSprites g.

Definition get_isRunning (g : t) : bool := updateIsRunning g.

(** [game.keyboard] *)
Definition get_keyboard : M GameKeyboard.t :=
  fun g =>
    match keyboardInstance g with
    | Some k => (Normal k, g)
    | None =>
        (Throw "Keyboard instance does not exist. Try using the useKeyboard() method in the game object", g)
    end.

(** *** Internal methods *)

(** [#renderGameObject(object)] *)
Definition renderGameObject (object : GameObject.t) (g : t) : t :=
  let sprite := GameObject.sprite object in
  let flipX := Flip.x (GameSprite.flip sprite) in
  let flipY := Flip.y (GameSprite.flip sprite) in
  let sizeX := Vector2.x (GameObject.size object) in
  let sizeY := Vector2.y (GameObject.size object) in
  let posX := Vector2.x (GameObject.pos object) in
  let posY := Vector2.y (GameObject.pos object) in
  let skewX := Vector2.x (GameSprite.skew sprite) in
  let skewY := Vector2.y (GameSprite.skew sprite) in
  let smoothing :=
    match renderingType g with
    | smooth =>
        [ImageSmoothingEnabled true;
         ImageSmoothingQuality (SmoothingQuality_to_string (smoothRenderingValue g))]
    | pixelated => [ImageSmoothingEnabled false]
    end in
  let scaleX := ((if flipX then -1 else 1) * scale g)%Q in
  let scaleY := ((if flipY then -1 else 1) * scale g)%Q in
  let offsetX := (if flipX then sizeX * scale g else 0)%Q in
  let offsetY := (if flipY then sizeY * scale g else 0)%Q in
  let rotated := strict_ne (GameSprite.rotate sprite) 0 in
  let skewed := strict_ne skewX 0 || strict_ne skewY 0 in
  let translated := rotated || skewed in
  ctx_calls
    (smoothing
     ++ [Save;
         Translate (posX * scale g + offsetX)%Q (posY * scale g + offsetY)%Q;
         Scale scaleX scaleY]
     ++ (if rotated
         then [Translate (sizeX / 2)%Q (sizeY / 2)%Q;
               RotatePi (GameSprite.rotate sprite / 180)%Q]
         else [])
     ++ (if skewed
         then (if rotated then [] else [Translate (sizeX / 2)%Q (sizeY / 2)%Q])
              ++ [TransformPi 1 (skewX / 180)%Q (skewY / 180)%Q 1 0 0]
         else [])
     ++ [DrawImage5 (GameSprite.element sprite)
           (if translated then - sizeX / 2 else 0)%Q
           (if translated then - sizeY / 2 else 0)%Q
           sizeX sizeY;
         Restore])
    g.

(** [#clearGameObject(gameObject)], on the position and size of what it
    is handed. *)
Definition clearGameObject (pos size : Vector2.t) (g : t) : t :=
  ctx_calls
    [Save;
     Scale (scale g) (scale g);
     ClearRect (Vector2.x pos) (Vector2.y pos) (Vector2.x size) (Vector2.y size);
     Restore]
    g.

(** *** External methods *)

Definition pause (g : t) : t :=
  if updateIsRunning g
  then
    let g := put_currentState GameState.unset g in
    let g := put_updateIsRunning false g in
    let g := cancelAnimationFrame (updateFrameId g) g in
    log_if_enabled console_info "Game stopped!" g
  else g.

Definition resume (g : t) : t :=
  if negb (updateIsRunning g)
  then
    let g := put_currentState GameState.update g in
    let g := put_updateIsRunning true g in
    let g :=
      match updateLoopLogic g with
      | Some loop => (requestAnimationFrame loop g).2
      | None => g
      end in
    log_if_enabled console_info "Game resumed!" g
  else g.

Definition end_ (g : t) : t :=
  (* disabling logs to prevent error messages *)
  let g := put_logsEnabled false g in
  (* pausing the game update loop *)
  let g := pause g in
  (* removing listener *)
  let g :=
    match keyboardInstance g with
    | Some k => GameKeyboard_removeListener k g
    | None => g
    end in
  (* clearing data *)
  let g := put_loadedAudios ∅ g in
  let g := put_loadedGameCameras ∅ g in
  let g := put_loadedGameMaps ∅ g in
  let g := put_loadedGameObjects ∅ g in
  let g := put_loadedSprites ∅ g in
  let g := put_keyboardState ∅ g in
  let g := put_loggedErros ∅ g in
  console_write console_info "Game ended!" g.

Definition Target_name (targetObject : Target) : string :=
  match targetObject with
  | TargetSprite s => GameSprite.name s
  | TargetObject o => GameObject.name o
  end.

Definition Target_pos (targetObject : Target) : Vector2.t :=
  match targetObject with
  | TargetSprite s => GameSprite.pos s
  | TargetObject o => GameObject.pos o
  end.

Definition Target_size (targetObject : Target) : Vector2.t :=
  match targetObject with
  | TargetSprite s => GameSprite.size s
  | TargetObject o => GameObject.size o
  end.

(** [m.has(key)] *)
Definition has {V} (m : gmap string V) (key : string) : bool :=
  bool_decide (is_Some (m !! key)).

Definition removeObject (targetObject : Target) (g : t) : t :=
  let '(objectExists, g) :=
    match targetObject with
    | TargetSprite s =>
        if has (loadedSprites g) (GameSprite.name s)
        then (true, put_loadedSprites (delete (GameSprite.name s) (loadedSprites g)) g)
        else (false, g)
    | TargetObject o =>
        if has (loadedGameObjects g) (GameObject.name o)
        then (true, put_loadedGameObjects
                      (delete (GameObject.name o) (loadedGameObjects g)) g)
        else (false, g)
    end in
  let g :=
    if objectExists
    then clearGameObject (Target_pos targetObject) (Target_size targetObject) g
    else g in
  if objectExists
  then log_if_enabled console_warn
         (Target_name targetObject +:+ " was removed from the scene!") g
  else g.

(** The test of [outbound(targetObject, screenThreshold, callbackFn)]. *)
Definition outbound_test (targetObject : GameObject.t) (screenThreshold : number)
    (g : t) : bool :=
  let auxWidth := if strict_ne screenThreshold 1 then width g else 0%Q in
  let auxHeight := if strict_ne screenThreshold 1 then width g else 0%Q in
  let posX := Vector2.x (GameObject.pos targetObject) in
  let posY := Vector2.y (GameObject.pos targetObject) in
  let sizeX := Vector2.x (GameObject.size targetObject) in
  let sizeY := Vector2.y (GameObject.size targetObject) in
  gt posX (width g * screenThreshold)
  || lt (posX + sizeX * scale g) (0 * auxWidth * screenThreshold)
  || gt posY (height g * screenThreshold)
  || lt (posY + sizeY * scale g) (0 * auxHeight * screenThreshold).

(** One turn of the loop of [instantiate], for the index [i].  The
    static flag [GameObject.instanceOfObject], raised around the loop for
    the constructor to see, is not part of the model. *)
Definition instantiate_step (targetObject : GameObject.t)
    (acc : list GameObject.t * t) (i : nat) : list GameObject.t * t :=
  let '(instances, g) := acc in
  let newObject :=
    GameObject.new (nextOid g)
      (GameObject.name targetObject +:+ "-" +:+ pretty (i + 1))
      (GameSprite.clone (GameObject.sprite targetObject))
      (GameObject.layer targetObject) in
  let g := put_nextOid (S (nextOid g)) g in
  let newObject := GameObject.bump_instanceId newObject in
  (* add instantiated object to map *)
  let g :=
    if negb (has (loadedGameObjects g) (GameObject.name newObject))
    then put_loadedGameObjects
           (<[GameObject.name newObject := newObject]> (loadedGameObjects g)) g
    else g in
  let instances :=
    if has (loadedGameObjects g) (GameObject.name newObject)
    then instances ++ [newObject]
    else instances in
  (instances, g).

Definition instantiate (targetObject : GameObject.t) (quantity : nat) (g : t)
    : list GameObject.t * t :=
  foldl (instantiate_step targetObject) ([], g) (seq 0 quantity).

Definition destroy (targetObject : GameObject.t) (g : t) : t :=
  if has (loadedSprites g) (GameSprite.name (GameObject.sprite targetObject))
  then clearGameObject (GameObject.pos targetObject) (GameObject.size targetObject) g
  else g.

Definition colliding (object1 object2 : GameObject.t) (g : t) : bool * t :=
  let c1 := GameObject.collision object1 in
  let c2 := GameObject.collision object2 in
  let p1 := GameObject.pos object1 in
  let p2 := GameObject.pos object2 in
  if typeof_number (Collision.x c1)
     && typeof_number (Collision.y c1)
     && typeof_number (Collision.w c1)
     && typeof_number (Collision.h c1)
     && typeof_number (Collision.x c2)
     && typeof_number (Collision.y c2)
     && typeof_number (Collision.w c2)
     && typeof_number (Collision.h c2)
  then
    if lte (Vector2.x p1) (Vector2.x p2 + num (Collision.w c2))
       && gte (Vector2.x p1 + num (Collision.w c1)) (Vector2.x p2)
       && lte (Vector2.y p1) (Vector2.y p2 + num (Collision.h c2))
       && gte (Vector2.y p1 + num (Collision.h c1)) (Vector2.y p2)
    then
      (true,
       log_if_enabled console_log
         ("Collision between " +:+ GameObject.name object1 +:+ " and "
          +:+ GameObject.name object2) g)
    else (false, g)
  else (false, g).

Definition translate (px py : number) (g : t) : t :=
  ctx_calls [SetTransform 1 0 0 1 px py] g.

Definition useClearScreen (g : t) : t := ctx_calls [Reset] g.

Definition useLogs (g : t) : t :=
  if negb (logsEnabled g)
  then put_logsEnabled true
         (GameLogger_out console_info "Utility logs are now enabled." g)
  else g.

(** The rectangle [useShowCollisions] outlines for an entity:
    [rect(pos.x + collision.x, pos.y + collision.y, collision.w,
    collision.h)]. *)
Definition collision_rect (gameObject : GameObject.t)
    : number * number * number * number :=
  let c := GameObject.collision gameObject in
  let p := GameObject.pos gameObject in
  ((Vector2.x p + num (Collision.x c))%Q, (Vector2.y p + num (Collision.y c))%Q,
   num (Collision.w c), num (Collision.h c)).

Definition useShowCollisions (g : t) : t :=
  map_fold
    (fun _ gameObject g =>
       let c := GameObject.collision gameObject in
       if typeof_number (Collision.x c)
          && typeof_number (Collision.y c)
          && typeof_number (Collision.w c)
          && typeof_number (Collision.h c)
       then
         let '(x, y, w, h) := collision_rect gameObject in
         ctx_calls
           [Save; Scale (scale g) (scale g); BeginPath; Rect x y w h;
            LineWidth (2 / scale g)%Q; StrokeStyle "#F00"; Stroke; ClosePath;
            Restore] g
       else g)
    g (loadedGameObjects g).

Definition useKeyboard (g : t) : t :=
  let '(k, g) := new_GameKeyboard g in
  put_keyboardEnabled true (put_keyboardInstance (Some k) g).

(** *** The object handed to the per-frame callback ([updater]) *)

(** The miss report shared by the lookups of [updater]: one line per
    name, remembered in [#loggedErros]. *)
Definition report_miss_once (missing : bool) (name line : string) (g : t) : t :=
  if logsEnabled g && missing
     && negb (bool_decide (("loadError: " +:+ name) ∈ loggedErros g))
  then put_loggedErros ({[ "loadError: " +:+ name ]} ∪ loggedErros g)
         (console_write console_error line g)
  else g.

Definition updater_logObjects (g : t) : t :=
  if logsEnabled g
  then console_write console_log "Currently loaded game maps: "
         (console_write console_log "Currently loaded game maps: "
            (console_write console_log "Currently loaded game objects: " g))
  else g.

Definition updater_getSprite (spriteName : string) (g : t) : GameSprite.t * t :=
  let g' :=
    report_miss_once (negb (has (loadedSprites g) spriteName)) spriteName
      ("Named sprite asset '" +:+ spriteName
       +:+ "' was not found in the preloaded resources, check if you preloaded it correctly and gave it the right name")
      g in
  (default GameSprite.getEmptyInstance (loadedSprites g !! spriteName), g').

Definition updater_getAudio (audioName : string) (g : t) : GameAudio.t * t :=
  let g' :=
    report_miss_once (negb (has (loadedAudios g) audioName)) audioName
      ("Named audio asset '" +:+ audioName
       +:+ "' was not found in the preloaded resources, check if you preloaded it correctly and gave it the right name")
      g in
  (default GameAudio.getEmptyInstance (loadedAudios g !! audioName), g').

Definition updater_getObject (gameObjectName : string) (g : t) : GameObject.t * t :=
  let g' :=
    report_miss_once (negb (has (loadedGameObjects g) gameObjectName)) gameObjectName
      ("Named game object '" +:+ gameObjectName
       +:+ "' was not found in the loaded resources, check if you loaded it correctly and gave it the right name")
      g in
  (default GameObject.getEmptyInstance (loadedGameObjects g !! gameObjectName), g').

Definition updater_getMap (gameMapName : string) (g : t) : GameMap.t * t :=
  let g' :=
    report_miss_once (negb (has (loadedGameMaps g) gameMapName)) gameMapName
      ("Named game map '" +:+ gameMapName
       +:+ "' was not found in the loaded resources, check if you loaded it correctly and gave it the right name")
      g in
  (default GameMap.getEmptyInstance (loadedGameMaps g !! gameMapName), g').

Definition updater_animateFromName (gameObjectName : string) (g : t) : t :=
  let g' :=
    report_miss_once (negb (has (loadedGameObjects g) gameObjectName)) gameObjectName
      ("Named game object '" +:+ gameObjectName
       +:+ "' was not found in the loaded resources, check if you loaded it correctly and gave it the right name")
      g in
  match loadedGameObjects g' !! gameObjectName with
  | Some gameObject => renderGameObject gameObject g'
  | None => g'
  end.

Definition updater_animate (targetObject : GameObject.t) (g : t) : t :=
  match loadedGameObjects g !! GameObject.name targetObject with
  | Some object => renderGameObject object g
  | None => g
  end.

Definition updater_animateMany (gameObjects : list GameObject.t) (g : t) : t :=
  foldl (fun g o => updater_animate o g) g gameObjects.

Definition updater_pause (g : t) : t :=
  if updateIsRunning g
  then
    let g := put_currentState GameState.unset g in
    let g := put_updateIsRunning false g in
    let g := log_if_enabled console_info "Game stopped!" g in
    cancelAnimationFrame (updateFrameId g) g
  else g.

Definition updater_resume (g : t) : t :=
  if negb (updateIsRunning g)
  then
    let g := put_currentState GameState.update g in
    let g := put_updateIsRunning true g in
    let g := log_if_enabled console_info "Game resumed!" g in
    match updateLoopLogic g with
    | Some loop => (requestAnimationFrame loop g).2
    | None => g
    end
  else g.

(** User code writes fields of the entity [o] it holds; the registry
    entries that are the same object change with it. *)
Definition write_object (o : GameObject.t) (g : t) : t :=
  put_loadedGameObjects
    ((fun r => if decide (GameObject.oid r = GameObject.oid o) then o else r)
       <$> loadedGameObjects g) g.

(** *** Running user code *)

Definition call {A} (op : Op.t A) : M A :=
  match op in Op.t A return M A with
  | Op.get_width => read get_width
  | Op.get_height => read get_height
  | Op.get_scale => read get_scale
  | Op.set_scale v => lift (set_scale v)
  | Op.get_renderingType => read get_renderingType
  | Op.set_renderingType r => lift (set_renderingType r)
  | Op.get_smoothingQuality => read get_smoothingQuality
  | Op.set_smoothingQuality q => set_smoothingQuality q
  | Op.get_gameObjects => read get_gameObjects
  | Op.get_loadedGameSprites => read get_loadedGameSprites
  | Op.get_isRunning => read get_isRunning
  | Op.pause => lift pause
  | Op.resume => lift resume
  | Op.end_ => lift end_
  | Op.removeObject target => lift (removeObject target)
  | Op.instantiate o n => fun g => let '(l, g') := instantiate o n g in (Normal l, g')
  | Op.destroy o => lift (destroy o)
  | Op.colliding a b => fun g => let '(r, g') := colliding a b g in (Normal r, g')
  | Op.translate px py => lift (translate px py)
  | Op.useClearScreen => lift useClearScreen
  | Op.useLogs => lift useLogs
  | Op.useShowCollisions => lift useShowCollisions
  | Op.useKeyboard => lift useKeyboard
  | Op.keyboard_isDown key =>
      bind get_keyboard (fun _ => read (GameKeyboard_isDown key))
  | Op.updater_logObjects => lift updater_logObjects
  | Op.updater_getSprite n => fun g => let '(r, g') := updater_getSprite n g in (Normal r, g')
  | Op.updater_getAudio n => fun g => let '(r, g') := updater_getAudio n g in (Normal r, g')
  | Op.updater_getObject n => fun g => let '(r, g') := updater_getObject n g in (Normal r, g')
  | Op.updater_getMap n => fun g => let '(r, g') := updater_getMap n g in (Normal r, g')
  | Op.updater_animateFromName n => lift (updater_animateFromName n)
  | Op.updater_animate o => lift (updater_animate o)
  | Op.updater_animateMany l => lift (updater_animateMany l)
  | Op.updater_pause => lift updater_pause
  | Op.updater_resume => lift updater_resume
  | Op.write_object o => lift (write_object o)
  end.

Fixpoint run (s : Script) : M unit :=
  match s with
  | Return => ret tt
  | Raise err => throw err
  | Call op k => bind (call op) (fun a => run (k a))
  | RunOnce identifier callbackFn k =>
      fun g =>
        if negb (bool_decide (identifier ∈ updaterRunOnceKeys g))
        then
          bind (run callbackFn)
            (fun _ =>
               bind (lift (fun g =>
                             put_updaterRunOnceKeys
                               ({[identifier]} ∪ updaterRunOnceKeys g)
                               (log_if_enabled console_info
                                  ("Runned once with the ID: " +:+ identifier) g)))
                 (fun _ => run k))
            g
        else run k g
  | Outbound targetObject screenThreshold k =>
      fun g =>
        if outbound_test targetObject screenThreshold g
        then run k (pause g)
        else run k g
  | OutboundWith targetObject screenThreshold callbackFn k =>
      fun g =>
        if outbound_test targetObject screenThreshold g
        then bind (run callbackFn) (fun _ => run k) g
        else run k g
  end.

(** *** The frame loop *)

(** The tick at the head of [ticks] went on to record its timestamp. *)
Definition tick_recorded (g : t) : t :=
  match ticks g with
  | k :: ks => put_ticks (Tick.mk (Tick.time k) (Tick.deltaTime k) true :: ks) g
  | [] => g
  end.

(** The closure [#updateLoopLogic = (currentTime) => ...] that
    [update(callbackFn)] makes. *)
Definition updateLoopLogic_run (callbackFn : Callback) (currentTime : number)
    : M unit :=
  fun g =>
    if decide (currentState g ≠ GameState.update)
    then (Normal tt, g)
    else
      let g :=
        map_fold
          (fun _ gameCamera g =>
             ctx_calls
               [DrawImage
                  (GameSprite.element (GameMap.sprite (GameCamera.map gameCamera)))
                  (Vector2.x (GameCamera.pos gameCamera))
                  (Vector2.y (GameCamera.pos gameCamera))
                  (Vector2.x (GameCamera.size gameCamera))
                  (Vector2.y (GameCamera.size gameCamera))
                  0 0 (width g) (height g)] g)
          g (loadedGameCameras g) in
      let g :=
        map_fold
          (fun _ gameObject g =>
             clearGameObject (GameObject.pos gameObject) (GameObject.size gameObject) g)
          g (loadedGameObjects g) in
      let deltaTime := ((currentTime - deltaTimePreviousTime g) / 1000)%Q in
      let g := put_ticks (Tick.mk currentTime deltaTime false :: ticks g) g in
      match run (callbackFn deltaTime) g with
      | (Throw err, g) => (Throw err, g)
      | (Normal _, g) =>
          let g := tick_recorded (put_deltaTimePreviousTime currentTime g) in
          match updateLoopLogic g with
          | Some loop =>
              let '(id, g) := requestAnimationFrame loop g in
              (Normal tt, put_updateFrameId id g)
          | None => (Normal tt, g)
          end
      end.

(** *** The stages *)

(** What the browser tells about the assets of a [preload]: the load and
    error events of image elements, the [canplaythrough] and [error]
    events of audio elements. *)
Inductive Signal :=
| ImageLoad (element : nat)
| ImageError (element : nat) (message : string)
| AudioCanPlayThrough (element : nat)
| AudioError (element : nat) (message : string).

(** The promises a [preload] waits for, one per asset, and which of the
    listeners it added to the audio elements are still attached. *)
Record Waits := mkWaits {
  spriteLoadPromises : list Outcome;
  audioLoadPromises : list Outcome;
  canplaythroughListeners : list bool;
  errorListeners : list bool
}.

(** [resolve()] and [reject(reason)] settle a promise once. *)
Definition settle (i : nat) (o : Outcome) (l : list Outcome) : list Outcome :=
  match l !! i with
  | Some Pending => <[i := o]> l
  | _ => l
  end.

(** [element.onload = ...] is an assignment: of the sprites that share
    an element, the handlers of the last one are installed. *)
Definition installed_handler (sprites : list GameSprite.t) (element : nat)
    : option (nat * GameSprite.t) :=
  last (filter (fun p : nat * GameSprite.t => GameSprite.element p.2 = element)
          (imap (fun i s => (i, s)) sprites)).

Definition on_canplaythrough (element : nat) (acc : Waits * t)
    (p : nat * GameAudio.t) : Waits * t :=
  let '(w, g) := acc in
  let '(j, audio) := p in
  if bool_decide (GameAudio.element audio = element)
     && default false (canplaythroughListeners w !! j)
  then
    let g := put_loadedAudios (<[GameAudio.name audio := audio]> (loadedAudios g)) g in
    let g := log_if_enabled console_log
               ("Audio: " +:+ GameAudio.name audio +:+ " was sucessfully preloaded") g in
    (mkWaits (spriteLoadPromises w) (settle j Fulfilled (audioLoadPromises w))
       (<[j := false]> (canplaythroughListeners w)) (errorListeners w), g)
  else (w, g).

Definition on_error (element : nat) (message : string) (w : Waits)
    (p : nat * GameAudio.t) : Waits :=
  let '(j, audio) := p in
  if bool_decide (GameAudio.element audio = element)
     && default false (errorListeners w !! j)
  then
    mkWaits (spriteLoadPromises w)
      (settle j
         (Rejected ("Error loading the audio '" +:+ GameAudio.name audio
                    +:+ "': " +:+ message))
         (audioLoadPromises w))
      (canplaythroughListeners w) (<[j := false]> (errorListeners w))
  else w.

(** The handlers [preload] installed, run on one signal. *)
Definition deliver (sprites : list GameSprite.t) (audios : list GameAudio.t)
    (acc : Waits * t) (s : Signal) : Waits * t :=
  let '(w, g) := acc in
  match s with
  | ImageLoad element =>
      match installed_handler sprites element with
      | Some (i, sprite) =>
          let g :=
            put_loadedSprites (<[GameSprite.name sprite := sprite]> (loadedSprites g)) g in
          let g := log_if_enabled console_log
                     ("GameSprite: " +:+ GameSprite.name sprite
                      +:+ " was sucessfully preloaded") g in
          (mkWaits (settle i Fulfilled (spriteLoadPromises w)) (audioLoadPromises w)
             (canplaythroughListeners w) (errorListeners w), g)
      | None => (w, g)
      end
  | ImageError element message =>
      match installed_handler sprites element with
      | Some (i, sprite) =>
          (mkWaits
             (settle i
                (Rejected ("Error loading the sprite '" +:+ GameSprite.name sprite
                           +:+ "': " +:+ message))
                (spriteLoadPromises w))
             (audioLoadPromises w) (canplaythroughListeners w) (errorListeners w), g)
      | None => (w, g)
      end
  | AudioCanPlayThrough element =>
      foldl (on_canplaythrough element) (w, g) (imap (fun j a => (j, a)) audios)
  | AudioError element message =>
      (foldl (on_error element message) w (imap (fun j a => (j, a)) audios), g)
  end.

(** Where the body of [preload] stands: at the first [await], at the
    second, or past its end. *)
Inductive Phase :=
| AwaitSprites
| AwaitAudios
| Finished (o : Outcome).

(** [Promise.all(ps)] has rejected with the reason of the first of [ps]
    to reject. *)
Fixpoint first_rejection (ps : list Outcome) : option string :=
  match ps with
  | [] => None
  | Rejected r :: _ => Some r
  | _ :: ps => first_rejection ps
  end.

Definition all_fulfilled (ps : list Outcome) : bool :=
  forallb (fun o => match o with Fulfilled => true | _ => false end) ps.

Definition advance_audios (w : Waits) (g : t) : Phase * t :=
  match first_rejection (audioLoadPromises w) with
  | Some r => (Finished (Rejected r), g)
  | None =>
      if all_fulfilled (audioLoadPromises w)
      then (Finished Fulfilled, log_if_enabled console_info "Preload step complete!" g)
      else (AwaitAudios, g)
  end.

Definition advance (ph : Phase) (w : Waits) (g : t) : Phase * t :=
  match ph with
  | AwaitSprites =>
      match first_rejection (spriteLoadPromises w) with
      | Some r => (Finished (Rejected r), g)
      | None =>
          if all_fulfilled (spriteLoadPromises w)
          then advance_audios w g
          else (AwaitSprites, g)
      end
  | AwaitAudios => advance_audios w g
  | Finished o => (Finished o, g)
  end.

Definition on_signal (sprites : list GameSprite.t) (audios : list GameAudio.t)
    (acc : Phase * Waits * t) (s : Signal) : Phase * Waits * t :=
  let '(ph, w, g) := acc in
  let '(w, g) := deliver sprites audios (w, g) s in
  let '(ph, g) := advance ph w g in
  (ph, w, g).

Definition Phase_outcome (ph : Phase) : Outcome :=
  match ph with
  | Finished o => o
  | _ => Pending
  end.

Definition EmptyAssetListError : string :=
  "Zero assets returned. You must return at least one asset.".

Definition sprites_of (assets : list Asset) : list GameSprite.t :=
  omap (fun a => match a with AssetSprite s => Some s | _ => None end) assets.

Definition audios_of (assets : list Asset) : list GameAudio.t :=
  omap (fun a => match a with AssetAudio a => Some a | _ => None end) assets.

(** The body of the link [preload(callbackFn)] adds, with the signals
    the browser sends for its assets, in the order they come. *)
Definition preload_body (callbackFn : Completion (list Asset))
    (signals : list Signal) (g : t) : Outcome * t :=
  let g := put_currentState GameState.preload g in
  match callbackFn with
  | Throw err => (Rejected err, g)
  | Normal assets =>
      if bool_decide (length assets = 0)
      then (Rejected EmptyAssetListError, g)
      else
        let sprites := sprites_of assets in
        let audios := audios_of assets in
        let w :=
          mkWaits (replicate (length sprites) Pending)
            (replicate (length audios) Pending)
            (replicate (length audios) true) (replicate (length audios) true) in
        let '(ph, g) := advance AwaitSprites w g in
        let '(ph, _, g) := foldl (on_signal sprites audios) (ph, w, g) signals in
        (Phase_outcome ph, g)
  end.

(** The producer of [load], run against the accessor object it is
    handed. *)
Fixpoint run_load (s : LoadScript) (g : t) : Completion (list LoadItem) * t :=
  match s with
  | LoadReturn objects => (Normal objects, g)
  | LoadRaise err => (Throw err, g)
  | LogAssets k =>
      run_load k
        (if logsEnabled g
         then console_write console_log "Currently loaded audios: "
                (console_write console_log "Currently loaded sprites: " g)
         else g)
  | GetSprite spriteName k =>
      let g' :=
        if logsEnabled g && negb (has (loadedSprites g) spriteName)
        then console_write console_error
               ("Named sprite asset '" +:+ spriteName
                +:+ "' was not found in the preloaded resources, check if you preloaded it correctly and gave it the right name")
               g
        else g in
      run_load (k (default GameSprite.getEmptyInstance (loadedSprites g !! spriteName))) g'
  | GetAudio audioName k =>
      let g' :=
        if logsEnabled g && negb (has (loadedAudios g) audioName)
        then console_write console_error
               ("Named audio asset '" +:+ audioName
                +:+ "' was not found in the preloaded resources, check if you preloaded it correctly and gave it the right name")
               g
        else g in
      run_load (k (default GameAudio.getEmptyInstance (loadedAudios g !! audioName))) g'
  end.

Definition gameObjects_of (objects : list LoadItem) : list GameObject.t :=
  omap (fun i => match i with ItemObject o => Some o | _ => None end) objects.

Definition gameMaps_of (objects : list LoadItem) : list GameMap.t :=
  omap (fun i => match i with ItemMap m => Some m | _ => None end) objects.

Definition gameCameras_of (objects : list LoadItem) : list GameCamera.t :=
  omap (fun i => match i with ItemCamera c => Some c | _ => None end) objects.

(** The body of the link [load(callbackFn)] adds. *)
Definition load_body (callbackFn : LoadScript) (g : t) : Outcome * t :=
  let g := put_currentState GameState.load g in
  match run_load callbackFn g with
  | (Throw err, g) => (Rejected err, g)
  | (Normal objects, g) =>
      let g :=
        foldl (fun g gameObject =>
                 put_loadedGameObjects
                   (<[GameObject.name gameObject := gameObject]> (loadedGameObjects g)) g)
          g (gameObjects_of objects) in
      let g :=
        foldl (fun g gameMap =>
                 put_loadedGameMaps
                   (<[GameMap.name gameMap := gameMap]> (loadedGameMaps g)) g)
          g (gameMaps_of objects) in
      let g :=
        foldl (fun g gameCamera =>
                 put_loadedGameCameras
                   (<[GameCamera.name gameCamera := gameCamera]> (loadedGameCameras g)) g)
          g (gameCameras_of objects) in
      (Fulfilled, log_if_enabled console_info "Load step complete!" g)
  end.

(** The body of the link [update(callbackFn)] adds. *)
Definition update_body (callbackFn : Callback) (g : t) : Outcome * t :=
  let g := put_currentState GameState.update g in
  let g := put_updateIsRunning true g in
  let g := log_if_enabled console_info "Update step started!" g in
  (* runs the update loop for the first time *)
  let g := put_updateLoopLogic (Some callbackFn) g in
  (Fulfilled, (requestAnimationFrame callbackFn g).2).

Definition run_stage (body : Stage) (signals : list Signal) (g : t) : Outcome * t :=
  match body with
  | PreloadStage callbackFn => preload_body callbackFn signals g
  | LoadStage callbackFn => load_body callbackFn g
  | UpdateStage callbackFn => update_body callbackFn g
  end.

(** The handler the constructor hands to [catch]. *)
Definition lifecycle_catch (err : string) (g : t) : t :=
  console_write console_error
    ("An error occurred during the game object creation: " +:+ err)
    (put_currentState GameState.error g).

(** *** Promises *)

Definition LinkState_outcome (s : LinkState) : option Outcome :=
  match s with
  | Registered => None
  | PassedThrough o | Called o => Some o
  end.

(** How promise [p] has settled, if its reaction has run. *)
Definition outcome_of (p : nat) (g : t) : option Outcome :=
  match p with
  | 0 => Some Fulfilled
  | S i => promises g !! i ≫= (fun l => LinkState_outcome (Link.state l))
  end.

Definition put_link_state (i : nat) (s : LinkState) (g : t) : t :=
  put_promises
    (alter (fun l => Link.mk (Link.parent l) (Link.reaction l) s) i (promises g)) g.

(** The reaction of link [i] runs, once the promise it was made from has
    settled: [then] calls its callback on fulfilment and passes a
    rejection on, [catch] calls its handler on rejection and passes a
    fulfilment on. *)
Definition settle_link (i : nat) (signals : list Signal) (g : t) : t :=
  match promises g !! i with
  | Some l =>
      match Link.state l, outcome_of (Link.parent l) g, Link.reaction l with
      | Registered, Some Fulfilled, Then body =>
          let '(o, g) := run_stage body signals g in
          put_link_state i (Called o) g
      | Registered, Some Fulfilled, Catch =>
          put_link_state i (PassedThrough Fulfilled) g
      | Registered, Some (Rejected r), Then _ =>
          put_link_state i (PassedThrough (Rejected r)) g
      | Registered, Some (Rejected r), Catch =>
          put_link_state i (Called Fulfilled) (lifecycle_catch r g)
      | _, _, _ => g
      end
  | None => g
  end.

(** [this.#lifecyclePromise = this.#lifecyclePromise.then(body)] *)
Definition lifecyclePromise_then (body : Stage) (g : t) : t :=
  let g :=
    put_promises
      (promises g ++ [Link.mk (lifecyclePromise g) (Then body) Registered]) g in
  put_lifecyclePromise (length (promises g)) g.

Definition preload (callbackFn : Completion (list Asset)) (g : t) : t :=
  lifecyclePromise_then (PreloadStage callbackFn) g.

Definition load (callbackFn : LoadScript) (g : t) : t :=
  lifecyclePromise_then (LoadStage callbackFn) g.

Definition update (callbackFn : Callback) (g : t) : t :=
  lifecyclePromise_then (UpdateStage callbackFn) g.

(** *** What happens to an engine *)

(** The stage methods are called by the page between other events; a
    script run by [UserCode] makes every other call. *)
Inductive Event :=
| UserCode (s : Script)                  (* code of the page runs *)
| CallPreload (callbackFn : Completion (list Asset))
| CallLoad (callbackFn : LoadScript)
| CallUpdate (callbackFn : Callback)
| SettleLink (i : nat) (signals : list Signal)   (* a reaction of the chain runs *)
| AnimationFrame (id : nat) (currentTime : number)
| KeyDown (key : string)
| KeyUp (key : string).

(** The engine after an event.  An exception that reaches the host is
    reported by it and goes no further. *)
Definition step (e : Event) (g : t) : t :=
  match e with
  | UserCode s => (run s g).2
  | CallPreload callbackFn => preload callbackFn g
  | CallLoad callbackFn => load callbackFn g
  | CallUpdate callbackFn => update callbackFn g
  | SettleLink i signals => settle_link i signals g
  | AnimationFrame id currentTime =>
      match list_find (fun f : nat * Callback => f.1 = id) (animationFrames g) with
      | Some (_, (_, loop)) =>
          (updateLoopLogic_run loop currentTime (cancelAnimationFrame id g)).2
      | None => g
      end
  | KeyDown key =>
      if bool_decide (keyListeners g = ∅) then g
      else put_keyboardState (<[key := true]> (keyboardState g)) g
  | KeyUp key =>
      if bool_decide (keyListeners g = ∅) then g
      else
        match keyboardState g !! key with
        | Some true => put_keyboardState (<[key := false]> (keyboardState g)) g
        | _ => g
        end
  end.

Definition steps (es : list Event) (g : t) : t :=
  foldl (fun g e => step e g) g es.

(** The engines a page can get to. *)
Inductive reachable : t -> Prop :=
| reachable_new width height context g :
    constructor width height true context = Normal g ->
    reachable g
| reachable_step e g :
    reachable g ->
    reachable (step e g).

(** Every reaction of the chain gets its turn, in the order the promises
    were made; [signals i] is what the browser sends for the assets of
    link [i]. *)
Definition settle_all (signals : nat -> list Signal) (g : t) : t :=
  foldl (fun g i => settle_link i (signals i) g) g (seq 0 (length (promises g))).

End Game.

Import Game.

(** * Collision test *)

Section Colliding.

(** An entity whose collision rectangle has all four fields. *)
Definition complete_box (o : GameObject.t) : bool :=
  let c := GameObject.collision o in
  typeof_number (Collision.x c) && typeof_number (Collision.y c)
  && typeof_number (Collision.w c) && typeof_number (Collision.h c).

(** The test as the specification words it: both boxes are complete and
    the two rectangles, each at position plus collision offset with the
    collision size, overlap with inclusive comparison on all four
    sides. *)
Definition colliding_spec (a b : GameObject.t) : bool :=
  let '(ax, ay, aw, ah) := collision_rect a in
  let '(bx, by_, bw, bh) := collision_rect b in
  complete_box a && complete_box b
  && (lte ax (bx + bw) && gte (ax + aw) bx
      && lte ay (by_ + bh) && gte (ay + ah) by_).

(** What the method computes: the rectangles start at the positions,
    whatever the collision offsets are. *)
Lemma colliding_result (a b : GameObject.t) (g : Game.t) :
  (colliding a b g).1 =
    complete_box a && complete_box b
    && (lte (Vector2.x (GameObject.pos a))
            (Vector2.x (GameObject.pos b) + num (Collision.w (GameObject.collision b)))
        && gte (Vector2.x (GameObject.pos a) + num (Collision.w (GameObject.collision a)))
               (Vector2.x (GameObject.pos b))
        && lte (Vector2.y (GameObject.pos a))
               (Vector2.y (GameObject.pos b) + num (Collision.h (GameObject.collision b)))
        && gte (Vector2.y (GameObject.pos a) + num (Collision.h (GameObject.collision a)))
               (Vector2.y (GameObject.pos b))).
Proof.
  unfold colliding, complete_box.
  rewrite <- !andb_assoc.
  repeat (match goal with
          | |- context [typeof_number ?v] => destruct (typeof_number v)
          end; cbn [andb fst]; try reflexivity).
  match goal with |- (if ?c then _ else _).1 = _ => destruct c end;
    reflexivity.
Qed.

(** With no collision offsets the method is the specified test. *)
Lemma colliding_spec_no_offset (a b : GameObject.t) (g : Game.t) :
  Collision.x (GameObject.collision a) = Some 0%Q ->
  Collision.y (GameObject.collision a) = Some 0%Q ->
  Collision.x (GameObject.collision b) = Some 0%Q ->
  Collision.y (GameObject.collision b) = Some 0%Q ->
  (colliding a b g).1 = colliding_spec a b.
Proof.
  intros Hax Hay Hbx Hby.
  rewrite colliding_result.
  unfold colliding_spec, collision_rect, lte, gte.
  rewrite Hax, Hay, Hbx, Hby. cbn [num].
  rewrite !Qplus_0_r. reflexivity.
Qed.

(** An entity at [(px, py)] with the collision rectangle
    [{x: cx, y: cy, w: cw, h: ch}]. *)
Definition boxed (name : string) (px py cx cy cw ch : number) : GameObject.t :=
  GameObject.mk 0 name GameSprite.getEmptyInstance (Vector2.mk px py)
    (Vector2.mk cw ch) (Collision.mk (Some cx) (Some cy) (Some cw) (Some ch)) 0 0.

(** Two boxes whose edges touch (the right edge of one is the left edge
    of the other) are reported as colliding. *)
Example colliding_touching_edges (g : Game.t) :
  (colliding (boxed "a" 0 0 0 0 10 10) (boxed "b" 10 0 0 0 10 10) g).1 = true.
Proof. rewrite colliding_result. reflexivity. Qed.

(** An incomplete box never collides. *)
Lemma colliding_incomplete (a b : GameObject.t) (g : Game.t) :
  complete_box a && complete_box b = false -> (colliding a b g).1 = false.
Proof. intros H. rewrite colliding_result, H. reflexivity. Qed.

(** C2 (the code departs from the claim): [colliding] does not place the
    boxes at position plus collision offset.  Entity [a] stands at
    [(0, 0)] with its collision rectangle offset by 100, so that its box
    spans 100..110 on the x axis; entity [b] has the box 5..15.  The
    boxes are apart, [colliding_spec] says so, and the method answers
    [true]. *)
Theorem colliding_ignores_collision_offset (g : Game.t) :
  let a := boxed "a" 0 0 100 0 10 10 in
  let b := boxed "b" 5 0 0 0 10 10 in
  collision_rect a = (100, 0, 10, 10)%Q
  /\ collision_rect b = (5, 0, 10, 10)%Q
  /\ colliding_spec a b = false
  /\ (colliding a b g).1 = true.
Proof.
  cbv zeta. rewrite colliding_result.
  repeat split; reflexivity.
Qed.

(** C7: for every pair of entities [a] and [b], [colliding(a, b)] and
    [colliding(b, a)] return the same answer. *)
Theorem colliding_symmetric (a b : GameObject.t) (g : Game.t) :
  (colliding a b g).1 = (colliding b a g).1.
Proof.
  rewrite !colliding_result. unfold lte, gte.
  destruct (complete_box a), (complete_box b); cbn [andb]; try reflexivity.
  repeat match goal with
         | |- context [Qle_bool ?x ?y] => destruct (Qle_bool x y)
         end; reflexivity.
Qed.

End Colliding.

(** * Reading fields through the host's writes *)

Ltac host_unfold :=
  unfold clearGameObject, log_if_enabled, GameLogger_out, console_write,
    ctx_calls, cancelAnimationFrame, requestAnimationFrame in *.

Ltac host_cases :=
  host_unfold; repeat (case_match; cbn in *; simplify_eq); try done.

(** * Settings *)

Section Settings.

(** C10: for every engine whose rendering type is not "smooth",
    assigning to [smoothingQuality] throws and leaves the engine as it
    was; in particular the stored smoothing quality and the rendering
    type are what they were. *)
Theorem smoothingQuality_setter_throws_unchanged
    (smoothingQuality : SmoothingQuality) (g : Game.t) :
  get_renderingType g ≠ smooth ->
  exists err g',
    set_smoothingQuality smoothingQuality g = (Throw err, g')
    /\ g' = g
    /\ get_smoothingQuality g' = get_smoothingQuality g
    /\ get_renderingType g' = get_renderingType g.
Proof.
  intros Hmode. unfold set_smoothingQuality, get_renderingType in *.
  destruct (decide (renderingType g ≠ smooth)) as [_|Hsmooth].
  - eauto 10.
  - contradiction.
Qed.

Lemma smoothingQuality_setter_throws_unchanged_witness :
  exists err g',
    set_smoothingQuality high (set_renderingType pixelated (constructed 600 400 true))
    = (Throw err, g')
    /\ g' = set_renderingType pixelated (constructed 600 400 true)
    /\ get_smoothingQuality g' = low
    /\ get_renderingType g' = pixelated.
Proof.
  apply (smoothingQuality_setter_throws_unchanged high
           (set_renderingType pixelated (constructed 600 400 true))).
  discriminate.
Defined.

(** In "smooth" mode the assignment goes through. *)
Lemma smoothingQuality_setter_smooth (q : SmoothingQuality) (g : Game.t) :
  get_renderingType g = smooth ->
  set_smoothingQuality q g = (Normal tt, put_smoothRenderingValue q g).
Proof.
  intros Hmode. unfold set_smoothingQuality, get_renderingType in *.
  destruct (decide (renderingType g ≠ smooth)); [contradiction | reflexivity].
Qed.

End Settings.

(** * Removal *)

Section RemoveObject.

Lemma has_false {V} (m : gmap string V) (k : string) :
  has m k = false <-> m !! k = None.
Proof.
  unfold has. rewrite bool_decide_eq_false, <- eq_None_not_Some. reflexivity.
Qed.

Lemma has_true {V} (m : gmap string V) (k : string) :
  has m k = true <-> is_Some (m !! k).
Proof. unfold has. apply bool_decide_eq_true. Qed.

(** Removing an entity whose name the registry lacks changes nothing. *)
Lemma removeObject_absent (e : GameObject.t) (g : Game.t) :
  has (get_gameObjects g) (GameObject.name e) = false ->
  removeObject (TargetObject e) g = g.
Proof. unfold removeObject, get_gameObjects. intros ->. reflexivity. Qed.

Lemma removeObject_gameObjects (e : GameObject.t) (g : Game.t) :
  get_gameObjects (removeObject (TargetObject e) g)
  = delete (GameObject.name e) (get_gameObjects g).
Proof.
  unfold removeObject, get_gameObjects.
  destruct (has (loadedGameObjects g) (GameObject.name e)) eqn:Hhas.
  - host_cases.
  - apply has_false in Hhas. cbn. symmetry. by apply delete_id.
Qed.

(** C8: for every entity [e], after [removeObject(e)] the entity
    registry does not have the name of [e], and calling [removeObject(e)]
    again returns normally and leaves the engine, with all its
    registries, as it was. *)
Theorem removeObject_then_absent_and_idempotent (e : GameObject.t) (g : Game.t) :
  let g1 := removeObject (TargetObject e) g in
  has (get_gameObjects g1) (GameObject.name e) = false
  /\ call (Op.removeObject (TargetObject e)) g1 = (Normal tt, g1).
Proof.
  cbv zeta.
  assert (Habsent :
    has (get_gameObjects (removeObject (TargetObject e) g)) (GameObject.name e) = false).
  { apply has_false. rewrite removeObject_gameObjects. apply lookup_delete_eq. }
  split; [exact Habsent |].
  cbn [call]. unfold lift. by rewrite removeObject_absent.
Qed.

End RemoveObject.

(** * Instancing *)

Section Instantiate.

Variable targetObject : GameObject.t.

(** The name of the [i]-th instance, counting from 0. *)
Definition instance_name (i : nat) : string :=
  GameObject.name targetObject +:+ "-" +:+ pretty (i + 1).

(** The [i]-th entity that [instantiate] makes, when [o] is the identity
    it gets. *)
Definition instance (o i : nat) : GameObject.t :=
  GameObject.bump_instanceId
    (GameObject.new o (instance_name i)
       (GameSprite.clone (GameObject.sprite targetObject))
       (GameObject.layer targetObject)).

Lemma instance_name_inj (i j : nat) : instance_name i = instance_name j -> i = j.
Proof.
  unfold instance_name. intros H.
  apply (inj (String.app _)) in H. apply (inj (String.app _)) in H.
  apply (inj pretty) in H. lia.
Qed.

(** [m.set(name, o)] unless [m.has(name)]. *)
Definition register_unless_present (o : GameObject.t)
    (m : gmap string GameObject.t) : gmap string GameObject.t :=
  if has m (GameObject.name o) then m else <[GameObject.name o := o]> m.

Lemma instantiate_step_spec (l : list GameObject.t) (g : Game.t) (i : nat) :
  let r := instantiate_step targetObject (l, g) i in
  r.1 = l ++ [instance (nextOid g) i]
  /\ nextOid r.2 = S (nextOid g)
  /\ loadedGameObjects r.2
     = register_unless_present (instance (nextOid g) i) (loadedGameObjects g).
Proof.
  cbv zeta. unfold instantiate_step, register_unless_present.
  fold (instance_name i). fold (instance (nextOid g) i).
  cbn [nextOid put_nextOid loadedGameObjects].
  destruct (has (loadedGameObjects g) (GameObject.name (instance (nextOid g) i)))
    eqn:Hhas; cbn [negb].
  - cbn [loadedGameObjects put_nextOid]. rewrite Hhas. done.
  - cbn [loadedGameObjects put_loadedGameObjects put_nextOid fst snd nextOid].
    replace (has _ _) with true; [done |].
    symmetry. apply has_true. rewrite lookup_insert_eq. eauto.
Qed.

(** The loop of [instantiate] after [n] turns. *)
Lemma instantiate_spec (n : nat) (g : Game.t) :
  let r := instantiate targetObject n g in
  r.1 = (fun i => instance (nextOid g + i) i) <$> seq 0 n
  /\ nextOid r.2 = nextOid g + n
  /\ loadedGameObjects r.2
     = foldl (fun m i => register_unless_present (instance (nextOid g + i) i) m)
         (loadedGameObjects g) (seq 0 n).
Proof.
  cbv zeta. unfold instantiate. induction n as [|n IH].
  - cbn. split; [done|]. split; [lia | done].
  - rewrite seq_S, !foldl_snoc, fmap_app. cbn [fmap list_fmap plus].
    destruct IH as (IHl & IHo & IHm).
    destruct (foldl (instantiate_step targetObject) ([], g) (seq 0 n)) as [l gn] eqn:E.
    cbn [fst snd] in *.
    destruct (instantiate_step_spec l gn n) as (Hl & Ho & Hm).
    rewrite Hl, Ho, Hm, IHl, IHo, IHm. split; [done|]. split; [lia | done].
Qed.

(** [instantiate] returns every entity it made, [quantity] of them, the
    [i]-th named after the template with the suffix [i] (from 1) and
    carrying a clone of the sprite of the template. *)
Lemma instantiate_returns_every_new_entity (quantity : nat) (g : Game.t) :
  let instances := (instantiate targetObject quantity g).1 in
  length instances = quantity
  /\ forall i, i < quantity ->
       exists e, instances !! i = Some e
         /\ GameObject.oid e = nextOid g + i
         /\ GameObject.name e = GameObject.name targetObject +:+ "-" +:+ pretty (i + 1)
         /\ GameObject.sprite e = GameSprite.clone (GameObject.sprite targetObject).
Proof.
  cbv zeta. destruct (instantiate_spec quantity g) as (-> & _ & _). split.
  - by rewrite length_fmap, length_seq.
  - intros i Hi. exists (instance (nextOid g + i) i).
    rewrite list_lookup_fmap, lookup_seq_lt by done. done.
Qed.

Lemma register_loop_present (m : gmap string GameObject.t) (o : nat) (l : list nat)
    (k : string) (e : GameObject.t) :
  m !! k = Some e ->
  foldl (fun m i => register_unless_present (instance (o + i) i) m) m l !! k = Some e.
Proof.
  revert m. induction l as [|i l IH]; intros m Hk; [done|].
  cbn [foldl]. apply IH. unfold register_unless_present.
  destruct (has m _) eqn:Hhas; [done|].
  apply has_false in Hhas. rewrite lookup_insert_ne; [done|]. congruence.
Qed.

(** An entry the registry has is never replaced: the derived name is
    skipped. *)
Lemma instantiate_keeps_present (quantity : nat) (g : Game.t) (k : string)
    (e : GameObject.t) :
  get_gameObjects g !! k = Some e ->
  get_gameObjects (instantiate targetObject quantity g).2 !! k = Some e.
Proof.
  unfold get_gameObjects. destruct (instantiate_spec quantity g) as (_ & _ & ->).
  apply register_loop_present.
Qed.

Lemma register_loop_absent (m : gmap string GameObject.t) (o : nat) (l : list nat)
    (i : nat) :
  m !! instance_name i = None ->
  foldl (fun m i => register_unless_present (instance (o + i) i) m) m l
    !! instance_name i
  = if decide (i ∈ l) then Some (instance (o + i) i) else None.
Proof.
  revert m. induction l as [|j l IH]; intros m Hnone.
  - cbn. by rewrite decide_False by apply not_elem_of_nil.
  - cbn [foldl]. destruct (decide (i = j)) as [<-|Hne].
    + rewrite decide_True by (apply elem_of_cons; by left).
      apply register_loop_present. unfold register_unless_present.
      replace (has m _) with false by (symmetry; by apply has_false).
      apply lookup_insert_eq.
    + rewrite IH.
      * destruct (decide (i ∈ l)) as [Hin|Hnin].
        -- rewrite decide_True; [done | apply elem_of_cons; by right].
        -- rewrite decide_False; [done |].
           intros [?|?]%elem_of_cons; done.
      * unfold register_unless_present. destruct (has m _); [done|].
        rewrite lookup_insert_ne; [done|].
        intros H. apply Hne. symmetry. by apply instance_name_inj.
Qed.

(** A derived name the registry lacks gets the new entity. *)
Lemma instantiate_registers_absent (quantity : nat) (g : Game.t) (i : nat) :
  i < quantity ->
  get_gameObjects g !! instance_name i = None ->
  get_gameObjects (instantiate targetObject quantity g).2 !! instance_name i
  = Some (instance (nextOid g + i) i).
Proof.
  intros Hi Hnone. unfold get_gameObjects in *.
  destruct (instantiate_spec quantity g) as (_ & _ & ->).
  rewrite register_loop_absent by done.
  rewrite decide_True; [done|]. apply elem_of_seq. lia.
Qed.

End Instantiate.

(** A template named "coin" over the empty sprite, an object of the
    page's own making. *)
Definition coin : GameObject.t :=
  GameObject.new 7 "coin" GameSprite.getEmptyInstance 0.

(** C3 (the code departs from the claim): the list [instantiate] returns
    is not the list of the entities it registered.  On an engine that
    already has an entity named "coin-1" (here the one a first
    [instantiate(coin, 1)] made), [instantiate(coin, 1)] skips the
    registration and still returns the entity it made: the registry
    holds another object under that name. *)
Theorem instantiate_returns_unregistered_entity :
  let g := (instantiate coin 1 (constructed 320 240 true)).2 in
  let r := instantiate coin 1 g in
  exists made kept,
    r.1 = [made]
    /\ GameObject.name made = "coin-1"
    /\ get_gameObjects r.2 !! "coin-1" = Some kept
    /\ get_gameObjects g !! "coin-1" = Some kept
    /\ GameObject.oid kept = 0
    /\ GameObject.oid made = 1.
Proof.
  cbv zeta. eexists _, _. repeat split; vm_compute; reflexivity.
Qed.

(** * What user code cannot change

    User code reaches the engine through its public interface only.
    Whatever it calls, the size of the screen, the record of the ticks,
    the previous-time field and the promises stay as they are, the scale
    stays non-negative and the lifecycle state does not become
    [error]. *)

Section UserFrame.

Record user_frame (g g' : Game.t) : Prop := mk_user_frame {
  frame_width : width g' = width g;
  frame_height : height g' = height g;
  frame_scale : (0 <= scale g)%Q -> (0 <= scale g')%Q;
  frame_ticks : ticks g' = ticks g;
  frame_previous : deltaTimePreviousTime g' = deltaTimePreviousTime g;
  frame_promises : promises g' = promises g;
  frame_lifecyclePromise : lifecyclePromise g' = lifecyclePromise g;
  frame_state :
    currentState g ≠ GameState.error -> currentState g' ≠ GameState.error
}.

Lemma user_frame_refl (g : Game.t) : user_frame g g.
Proof. by split. Qed.

Lemma user_frame_trans (g1 g2 g3 : Game.t) :
  user_frame g1 g2 -> user_frame g2 g3 -> user_frame g1 g3.
Proof.
  intros [] []. split; try congruence; auto.
Qed.

Lemma foldl_user_frame {X} (f : Game.t -> X -> Game.t) (l : list X) (g : Game.t) :
  (forall g x, user_frame g (f g x)) -> user_frame g (foldl f g l).
Proof.
  intros Hf. revert g. induction l as [|x l IH]; intros g.
  - apply user_frame_refl.
  - cbn [foldl]. eapply user_frame_trans; [apply Hf | apply IH].
Qed.

Lemma map_fold_user_frame {V} (f : string -> V -> Game.t -> Game.t)
    (m : gmap string V) (g : Game.t) :
  (forall k v g, user_frame g (f k v g)) -> user_frame g (map_fold f g m).
Proof.
  intros Hf. apply (map_fold_weak_ind (fun r _ => user_frame g r)).
  - apply user_frame_refl.
  - intros k v m' r _ Hr. eapply user_frame_trans; [exact Hr | apply Hf].
Qed.

(** Methods that write only fields outside the frame. *)
Ltac frame_by_cases :=
  intros;
  repeat match goal with
         | |- user_frame _ (let '(_, _) := ?p in _) => destruct p
         end;
  split; host_cases.

Lemma ctx_calls_user_frame ops g : user_frame g (ctx_calls ops g).
Proof. frame_by_cases. Qed.

Lemma renderGameObject_user_frame o g : user_frame g (renderGameObject o g).
Proof. unfold renderGameObject. apply ctx_calls_user_frame. Qed.

Lemma clearGameObject_user_frame p s g : user_frame g (clearGameObject p s g).
Proof. unfold clearGameObject. apply ctx_calls_user_frame. Qed.

Lemma log_if_enabled_user_frame l s g : user_frame g (log_if_enabled l s g).
Proof. frame_by_cases. Qed.

Lemma pause_user_frame g : user_frame g (pause g).
Proof. unfold pause. frame_by_cases. Qed.

Lemma resume_user_frame g : user_frame g (resume g).
Proof. unfold resume. frame_by_cases. Qed.

Lemma updater_pause_user_frame g : user_frame g (updater_pause g).
Proof. unfold updater_pause. frame_by_cases. Qed.

Lemma updater_resume_user_frame g : user_frame g (updater_resume g).
Proof. unfold updater_resume. frame_by_cases. Qed.

Lemma end_user_frame g : user_frame g (end_ g).
Proof.
  unfold end_.
  eapply user_frame_trans with (g2 := pause (put_logsEnabled false g)).
  - eapply user_frame_trans; [| apply pause_user_frame]. by split.
  - unfold GameKeyboard_removeListener. frame_by_cases.
Qed.

Lemma set_scale_user_frame v g : user_frame g (set_scale v g).
Proof.
  unfold set_scale. split; cbn; try done. intros _. apply Qabs_nonneg.
Qed.

Lemma removeObject_user_frame target g : user_frame g (removeObject target g).
Proof.
  unfold removeObject.
  destruct target;
    match goal with |- context [has ?m ?k] => destruct (has m k) end;
    try apply user_frame_refl;
    (eapply user_frame_trans; [| apply log_if_enabled_user_frame]);
    (eapply user_frame_trans; [| apply clearGameObject_user_frame]);
    by split.
Qed.

Lemma instantiate_user_frame o n g : user_frame g (instantiate o n g).2.
Proof.
  unfold instantiate. generalize (seq 0 n) as l.
  generalize (@nil GameObject.t) as acc. intros acc l. revert acc g.
  induction l as [|i l IH]; intros acc g; [apply user_frame_refl|].
  cbn [foldl].
  destruct (instantiate_step o (acc, g) i) as [acc' g'] eqn:E.
  eapply user_frame_trans; [| apply IH].
  unfold instantiate_step in E. cbv zeta in E.
  repeat case_match; simplify_eq; by split.
Qed.

Lemma destroy_user_frame o g : user_frame g (destroy o g).
Proof. unfold destroy. frame_by_cases. Qed.

Lemma colliding_user_frame a b g : user_frame g (colliding a b g).2.
Proof. unfold colliding. frame_by_cases. Qed.

Lemma useLogs_user_frame g : user_frame g (useLogs g).
Proof. unfold useLogs. frame_by_cases. Qed.

Lemma useKeyboard_user_frame g : user_frame g (useKeyboard g).
Proof. unfold useKeyboard, new_GameKeyboard. frame_by_cases. Qed.

Lemma useShowCollisions_user_frame g : user_frame g (useShowCollisions g).
Proof.
  unfold useShowCollisions. apply map_fold_user_frame. intros k v g1.
  repeat case_match; try apply user_frame_refl. apply ctx_calls_user_frame.
Qed.

Lemma report_miss_once_user_frame b n l g : user_frame g (report_miss_once b n l g).
Proof. unfold report_miss_once. frame_by_cases. Qed.

Lemma updater_animate_user_frame o g : user_frame g (updater_animate o g).
Proof.
  unfold updater_animate. case_match; [apply renderGameObject_user_frame|].
  apply user_frame_refl.
Qed.

Lemma call_user_frame {A} (op : Op.t A) (g : Game.t) : user_frame g (call op g).2.
Proof.
  destruct op; cbn [call]; unfold read, lift, bind, get_keyboard;
    try (cbn [snd]; apply user_frame_refl).
  - apply set_scale_user_frame.
  - by split.
  - unfold set_smoothingQuality. case_decide; by split.
  - apply pause_user_frame.
  - apply resume_user_frame.
  - apply end_user_frame.
  - apply removeObject_user_frame.
  - pose proof (instantiate_user_frame targetObject quantity g).
    by destruct (instantiate _ _ _).
  - apply destroy_user_frame.
  - pose proof (colliding_user_frame object1 object2 g).
    by destruct (colliding _ _ _).
  - apply ctx_calls_user_frame.
  - apply ctx_calls_user_frame.
  - apply useLogs_user_frame.
  - apply useShowCollisions_user_frame.
  - apply useKeyboard_user_frame.
  - repeat case_match; simplify_eq; apply user_frame_refl.
  - unfold updater_logObjects. frame_by_cases.
  - apply report_miss_once_user_frame.
  - apply report_miss_once_user_frame.
  - apply report_miss_once_user_frame.
  - apply report_miss_once_user_frame.
  - unfold updater_animateFromName. cbn [snd].
    eapply user_frame_trans; [apply report_miss_once_user_frame|].
    case_match; [apply renderGameObject_user_frame | apply user_frame_refl].
  - apply updater_animate_user_frame.
  - apply foldl_user_frame. intros. apply updater_animate_user_frame.
  - apply updater_pause_user_frame.
  - apply updater_resume_user_frame.
  - by split.
Qed.

Lemma run_user_frame (s : Script) (g : Game.t) : user_frame g (run s g).2.
Proof.
  revert g. induction s as [| err | A op k IH | identifier body IHbody k IHk
                           | target threshold k IHk
                           | target threshold body IHbody k IHk]; intros g; cbn [run].
  - apply user_frame_refl.
  - apply user_frame_refl.
  - unfold bind. pose proof (call_user_frame op g) as Hop.
    destruct (call op g) as [[a|err] g1]; cbn [snd] in *; [|done].
    eapply user_frame_trans; [exact Hop | apply IH].
  - case_match; [| apply IHk].
    unfold bind, lift. pose proof (IHbody g) as Hbody.
    destruct (run body g) as [[[]|err] g1]; cbn [snd] in *; [|done].
    eapply user_frame_trans; [exact Hbody|].
    eapply user_frame_trans; [| apply IHk].
    eapply user_frame_trans; [apply log_if_enabled_user_frame|]. by split.
  - case_match; [| apply IHk].
    eapply user_frame_trans; [apply pause_user_frame | apply IHk].
  - case_match; [| apply IHk].
    unfold bind. pose proof (IHbody g) as Hbody.
    destruct (run body g) as [[[]|err] g1]; cbn [snd] in *; [|done].
    eapply user_frame_trans; [exact Hbody | apply IHk].
Qed.

End UserFrame.

(** * What the stage bodies cannot change

    The bodies of the three stages write the lifecycle state, the
    registries and the loop fields; they stay within [user_frame]. *)

Section StageFrame.

Lemma on_canplaythrough_user_frame element w g p :
  user_frame g (on_canplaythrough element (w, g) p).2.
Proof.
  unfold on_canplaythrough. destruct p as [j audio].
  case_match; [| apply user_frame_refl]. cbn [snd].
  eapply user_frame_trans; [| apply log_if_enabled_user_frame]. by split.
Qed.

Lemma deliver_user_frame sprites audios w g s :
  user_frame g (deliver sprites audios (w, g) s).2.
Proof.
  unfold deliver. destruct s as [el | el msg | el | el msg].
  - destruct (installed_handler sprites el) as [[i sprite]|];
      [| apply user_frame_refl]. cbn [snd].
    eapply user_frame_trans; [| apply log_if_enabled_user_frame]. by split.
  - destruct (installed_handler sprites el) as [[i sprite]|];
      apply user_frame_refl.
  - generalize (imap (fun j a => (j, a)) audios) as l. intros l.
    revert w g. induction l as [|p l IH]; intros w g; [apply user_frame_refl|].
    cbn [foldl].
    pose proof (on_canplaythrough_user_frame el w g p) as Hp.
    destruct (on_canplaythrough el (w, g) p) as [w1 g1]. cbn [snd] in Hp.
    eapply user_frame_trans; [exact Hp | apply IH].
  - apply user_frame_refl.
Qed.

Lemma advance_user_frame ph w g : user_frame g (advance ph w g).2.
Proof.
  unfold advance, advance_audios.
  repeat case_match; cbn [snd];
    try apply user_frame_refl; apply log_if_enabled_user_frame.
Qed.

Lemma on_signal_user_frame sprites audios ph w g s :
  user_frame g (on_signal sprites audios (ph, w, g) s).2.
Proof.
  unfold on_signal.
  pose proof (deliver_user_frame sprites audios w g s) as Hd.
  destruct (deliver sprites audios (w, g) s) as [w1 g1]. cbn [snd] in Hd.
  pose proof (advance_user_frame ph w1 g1) as Ha.
  destruct (advance ph w1 g1) as [ph1 g2]. cbn [snd] in *.
  eapply user_frame_trans; eassumption.
Qed.

Lemma preload_body_user_frame callbackFn signals g :
  user_frame g (preload_body callbackFn signals g).2.
Proof.
  unfold preload_body.
  assert (Hstate : user_frame g (put_currentState GameState.preload g)) by by split.
  destruct callbackFn as [assets|err]; [| exact Hstate].
  case_bool_decide; [exact Hstate|].
  set (sprites := sprites_of assets). set (audios := audios_of assets).
  set (w := mkWaits _ _ _ _).
  pose proof (advance_user_frame AwaitSprites w
                (put_currentState GameState.preload g)) as Ha.
  destruct (advance AwaitSprites w _) as [ph g1]. cbn [snd] in Ha.
  assert (Hfold : forall l ph w g,
            user_frame g (foldl (on_signal sprites audios) (ph, w, g) l).2).
  { clear. intros l. induction l as [|s l IH]; intros ph w g;
      [apply user_frame_refl|].
    cbn [foldl]. pose proof (on_signal_user_frame sprites audios ph w g s) as Hs.
    destruct (on_signal sprites audios (ph, w, g) s) as [[ph1 w1] g2].
    eapply user_frame_trans; [exact Hs | apply IH]. }
  specialize (Hfold signals ph w g1).
  destruct (foldl (on_signal sprites audios) (ph, w, g1) signals) as [[ph2 w2] g2].
  cbn [snd] in *.
  eapply user_frame_trans; [exact Hstate|].
  eapply user_frame_trans; eassumption.
Qed.

Lemma run_load_user_frame s g : user_frame g (run_load s g).2.
Proof.
  revert g. induction s as [objects | err | k IH | name k IH | name k IH];
    intros g; cbn [run_load]; try apply user_frame_refl.
  - eapply user_frame_trans; [| apply IH]. case_match; by split.
  - eapply user_frame_trans; [| apply IH]. case_match; by split.
  - eapply user_frame_trans; [| apply IH]. case_match; by split.
Qed.

Lemma load_body_user_frame callbackFn g :
  user_frame g (load_body callbackFn g).2.
Proof.
  unfold load_body.
  eapply user_frame_trans with (g2 := put_currentState GameState.load g);
    [by split|].
  pose proof (run_load_user_frame callbackFn (put_currentState GameState.load g))
    as Hrun.
  destruct (run_load callbackFn _) as [[objects|err] g1]; cbn [snd] in *;
    [| exact Hrun].
  eapply user_frame_trans; [exact Hrun|].
  eapply user_frame_trans; [| apply log_if_enabled_user_frame].
  eapply user_frame_trans; [| apply foldl_user_frame; intros; by split].
  eapply user_frame_trans; [| apply foldl_user_frame; intros; by split].
  apply foldl_user_frame; intros; by split.
Qed.

Lemma update_body_user_frame callbackFn g :
  user_frame g (update_body callbackFn g).2.
Proof.
  unfold update_body. cbn [snd].
  set (g1 := put_updateIsRunning true (put_currentState GameState.update g)).
  eapply user_frame_trans with (g2 := log_if_enabled console_info "Update step started!" g1).
  - eapply user_frame_trans; [| apply log_if_enabled_user_frame]. by split.
  - by split.
Qed.

Lemma run_stage_user_frame body signals g :
  user_frame g (run_stage body signals g).2.
Proof.
  destruct body; cbn [run_stage].
  - apply preload_body_user_frame.
  - apply load_body_user_frame.
  - apply update_body_user_frame.
Qed.

End StageFrame.

(** * Invariants of the engine *)

Section Invariant.

(** The timestamp the previous-time field holds after the ticks [ks]
    (newest first): that of the newest tick that recorded its own, and 0
    when none did. *)
Fixpoint last_recorded (ks : list Tick.t) : number :=
  match ks with
  | [] => 0%Q
  | k :: ks => if Tick.recorded k then Tick.time k else last_recorded ks
  end.

(** Every tick handed its callback the time since the timestamp recorded
    before it, in seconds. *)
Fixpoint ticks_ok (ks : list Tick.t) : Prop :=
  match ks with
  | [] => True
  | k :: ks =>
      Tick.deltaTime k = ((Tick.time k - last_recorded ks) / 1000)%Q
      /\ ticks_ok ks
  end.

(** A [catch] link hangs on promise 0 and its handler was not called. *)
Definition catch_idle (l : Link.t) : Prop :=
  Link.reaction l = Catch ->
  Link.parent l = 0 /\ forall o, Link.state l ≠ Called o.

(** The callback of a [then] link was called only on the fulfilment of
    the promise the link was made from. *)
Definition called_on_fulfilment (g : Game.t) (l : Link.t) : Prop :=
  forall body o,
    Link.reaction l = Then body -> Link.state l = Called o ->
    outcome_of (Link.parent l) g = Some Fulfilled.

Record invariant (g : Game.t) : Prop := mk_invariant {
  inv_width : (0 <= width g)%Q;
  inv_height : (0 <= height g)%Q;
  inv_scale : (0 <= scale g)%Q;
  inv_state : currentState g ≠ GameState.error;
  inv_catch : Forall catch_idle (promises g);
  inv_called : Forall (called_on_fulfilment g) (promises g);
  inv_ticks : ticks_ok (ticks g);
  inv_previous : deltaTimePreviousTime g = last_recorded (ticks g)
}.

Lemma outcome_of_promises (g g' : Game.t) (p : nat) :
  promises g' = promises g -> outcome_of p g' = outcome_of p g.
Proof. intros H. destruct p; cbn; [done | by rewrite H]. Qed.

Lemma invariant_user_frame (g g' : Game.t) :
  user_frame g g' -> invariant g -> invariant g'.
Proof.
  intros [Hw Hh Hs Ht Hp Hpr Hl Hst] [].
  split; rewrite ?Hw, ?Hh, ?Ht, ?Hp, ?Hpr; auto.
  eapply Forall_impl; [eassumption|].
  intros l Hl' body o Hr Hc. erewrite outcome_of_promises; eauto.
Qed.

Lemma invariant_constructed width height context :
  invariant (constructed width height context).
Proof.
  split; cbn; try done; try apply Qabs_nonneg.
  - apply Forall_singleton. intros _. split; [done|]. intros o. done.
  - apply Forall_singleton. intros body o Hr. done.
Qed.

(** [then] on the lifecycle promise. *)
Lemma invariant_lifecyclePromise_then body g :
  invariant g -> invariant (lifecyclePromise_then body g).
Proof.
  intros []. unfold lifecyclePromise_then. split; cbn; try done.
  - apply Forall_app. split; [done|]. apply Forall_singleton. intros ?. done.
  - apply Forall_app. split.
    + eapply Forall_impl; [eassumption|].
      intros l Hl body' o Hr Hc. specialize (Hl body' o Hr Hc).
      destruct (Link.parent l) as [|i]; [done|]. cbn in *.
      destruct (promises g !! i) as [l'|] eqn:E; [|done].
      by rewrite (lookup_app_l_Some _ _ _ _ E).
    + apply Forall_singleton. intros body' o _ Hc. done.
Qed.

Lemma invariant_put_link_state i s g :
  invariant g ->
  (forall l, promises g !! i = Some l ->
     Link.state l = Registered
     /\ (Link.reaction l = Catch -> forall o, s ≠ Called o)
     /\ (forall body o, Link.reaction l = Then body -> s = Called o ->
           outcome_of (Link.parent l) g = Some Fulfilled)) ->
  invariant (put_link_state i s g).
Proof.
  intros [] Hi. unfold put_link_state. split; cbn; try done.
  - apply Forall_alter; [done|]. intros l Hl Hidle Hr. cbn in *.
    destruct (Hi l Hl) as (_ & Hcatch & _). split; [by apply Hidle | auto].
  - assert (Hkeep : forall p,
              outcome_of p g = Some Fulfilled ->
              outcome_of p (put_promises
                (alter (fun l => Link.mk (Link.parent l) (Link.reaction l) s) i
                   (promises g)) g) = Some Fulfilled).
    { intros [|q] Hq; [done|]. cbn in *.
      destruct (decide (i = q)) as [->|Hne].
      - destruct (promises g !! q) as [lq|] eqn:Eq; [|done].
        destruct (Hi lq eq_refl) as (Hregq & _). cbn in Hq.
        by rewrite Hregq in Hq.
      - by rewrite list_lookup_alter_ne. }
    apply Forall_lookup. intros j l' Hj.
    destruct (decide (i = j)) as [->|Hne].
    + rewrite list_lookup_alter_eq in Hj.
      destruct (promises g !! j) as [l|] eqn:El; [|done]. cbn in Hj.
      injection Hj as <-. intros body o Hr Hc. cbn in *.
      destruct (Hi l eq_refl) as (Hreg & _ & Hthen).
      apply Hkeep. eauto.
    + rewrite list_lookup_alter_ne in Hj by done.
      intros body o Hr Hc. apply Hkeep.
      exact (Forall_lookup_1 _ _ _ _ inv_called0 Hj body o Hr Hc).
Qed.

Lemma invariant_settle_link i signals g :
  invariant g -> invariant (settle_link i signals g).
Proof.
  intros Hinv. unfold settle_link.
  destruct (promises g !! i) as [l|] eqn:El; [|done].
  destruct (Link.state l) eqn:Es; try done.
  destruct (outcome_of (Link.parent l) g) as [[| |r]|] eqn:Eo; try done.
  - destruct (Link.reaction l) as [body|] eqn:Er.
    + pose proof (run_stage_user_frame body signals g) as Hframe.
      destruct (run_stage body signals g) as [o g1]. cbn [snd] in Hframe.
      apply invariant_put_link_state;
        [by eapply invariant_user_frame|].
      intros l' Hl'. rewrite (frame_promises _ _ Hframe), El in Hl'.
      injection Hl' as <-. split; [done|]. split; [by rewrite Er|].
      intros body' o' _ _. by rewrite (outcome_of_promises g g1)
        by apply (frame_promises _ _ Hframe).
    + apply invariant_put_link_state; [done|].
      intros l' Hl'. rewrite El in Hl'. injection Hl' as <-.
      split; [done|]. split; [done|]. intros body o Hr. by rewrite Er in Hr.
  - destruct (Link.reaction l) as [body|] eqn:Er.
    + apply invariant_put_link_state; [done|].
      intros l' Hl'. rewrite El in Hl'. injection Hl' as <-.
      split; [done|]. split; [by rewrite Er | done].
    + (* a [catch] link hangs on promise 0, which is fulfilled *)
      destruct (Forall_lookup_1 _ _ _ _ (inv_catch _ Hinv) El Er) as [Hp _].
      rewrite Hp in Eo. done.
Qed.

Lemma invariant_updateLoopLogic_run callbackFn currentTime g :
  invariant g -> invariant (updateLoopLogic_run callbackFn currentTime g).2.
Proof.
  intros Hinv. unfold updateLoopLogic_run.
  case_decide; [done|].
  set (g1 := map_fold _ g (loadedGameCameras g)).
  set (g2 := map_fold _ g1 (loadedGameObjects g1)).
  assert (Hf2 : user_frame g g2).
  { eapply user_frame_trans with (g2 := g1); apply map_fold_user_frame;
      intros; first [apply ctx_calls_user_frame | apply clearGameObject_user_frame]. }
  pose proof (invariant_user_frame _ _ Hf2 Hinv) as Hinv2.
  set (deltaTime := ((currentTime - deltaTimePreviousTime g2) / 1000)%Q).
  set (g3 := put_ticks (Tick.mk currentTime deltaTime false :: ticks g2) g2).
  assert (Hinv3 : invariant g3).
  { destruct Hinv2. split; cbn; try done.
    split; [|done]. unfold deltaTime. by rewrite inv_previous0. }
  pose proof (run_user_frame (callbackFn deltaTime) g3) as Hrun.
  pose proof (invariant_user_frame _ _ Hrun Hinv3) as Hinv4.
  destruct (run (callbackFn deltaTime) g3) as [[[]|err] g4]; cbn [snd] in *;
    [| exact Hinv4].
  set (g5 := tick_recorded (put_deltaTimePreviousTime currentTime g4)).
  assert (Hinv5 : invariant g5).
  { pose proof (frame_ticks _ _ Hrun) as Hticks. cbn in Hticks.
    destruct Hinv4. unfold g5, tick_recorded. cbn [ticks put_deltaTimePreviousTime].
    rewrite Hticks. rewrite Hticks in inv_ticks0. cbn in inv_ticks0.
    split; cbn; done. }
  destruct (updateLoopLogic g5) as [loop|]; [| exact Hinv5].
  cbn. eapply invariant_user_frame; [| exact Hinv5]. by split.
Qed.

Lemma invariant_step e g : invariant g -> invariant (step e g).
Proof.
  intros Hinv. destruct e; cbn [step].
  - eapply invariant_user_frame; [apply run_user_frame | done].
  - by apply invariant_lifecyclePromise_then.
  - by apply invariant_lifecyclePromise_then.
  - by apply invariant_lifecyclePromise_then.
  - by apply invariant_settle_link.
  - destruct (list_find _ _) as [[? [? loop]]|]; [|done].
    apply invariant_updateLoopLogic_run.
    eapply invariant_user_frame; [| exact Hinv]. by split.
  - case_bool_decide; [done|]. eapply invariant_user_frame; [| exact Hinv].
    by split.
  - case_bool_decide; [done|]. repeat case_match; try done.
    eapply invariant_user_frame; [| exact Hinv]. by split.
Qed.

(** The invariants hold of every engine a page can get to. *)
Lemma reachable_invariant g : reachable g -> invariant g.
Proof.
  induction 1 as [width height context g Hnew | e g _ IH].
  - injection Hnew as <-. apply invariant_constructed.
  - by apply invariant_step.
Qed.

End Invariant.

(** * Screen size and scale *)

Section NonNegative.

(** An engine made with a negative width, whose scale was then set to a
    negative value. *)
Definition rescaled : Game.t :=
  step (UserCode (Call (Op.set_scale (-2)) (fun _ => Return)))
    (constructed (-320) 240 true).

Lemma rescaled_reachable : reachable rescaled.
Proof.
  apply reachable_step. apply (reachable_new (-320) 240 true). reflexivity.
Qed.

(** The constructor does not fail on a negative size: it warns and
    stores the absolute values. *)
Lemma constructor_stores_absolute_values (width height : number) (context : bool) :
  exists g,
    constructor width height true context = Normal g
    /\ get_width g = Qabs width
    /\ get_height g = Qabs height
    /\ (lt width 0 || lt height 0 = true ->
        console g
        = [(console_warn, "Game constructor: Negative values converted into positive.")]).
Proof.
  exists (constructed width height context). repeat split.
  cbn. intros ->. reflexivity.
Qed.

Example rescaled_values :
  get_width rescaled = 320%Q /\ get_height rescaled = 240%Q
  /\ get_scale rescaled = 2%Q.
Proof. repeat split. Qed.

End NonNegative.

(** * Elapsed time *)

Section DeltaTime.

(** The oldest tick was handed its own timestamp, in seconds. *)
Lemma ticks_ok_first (ks : list Tick.t) (k : Tick.t) :
  ticks_ok ks -> last ks = Some k ->
  Tick.deltaTime k = ((Tick.time k - 0) / 1000)%Q.
Proof.
  induction ks as [|k1 ks IH]; [done|].
  intros [Hk Hks] Hlast. destruct ks as [|k2 ks].
  - cbn in *. by simplify_eq.
  - apply IH; done.
Qed.

(** A tick that follows a tick which recorded its timestamp was handed
    the difference of the two timestamps, in seconds. *)
Lemma ticks_ok_next (ks1 ks2 : list Tick.t) (k k' : Tick.t) :
  ticks_ok (ks1 ++ k :: k' :: ks2) -> Tick.recorded k' = true ->
  Tick.deltaTime k = ((Tick.time k - Tick.time k') / 1000)%Q.
Proof.
  induction ks1 as [|k1 ks1 IH]; cbn.
  - intros [Hk _] Hr. rewrite Hr in Hk. exact Hk.
  - intros [_ Hks]. by apply IH.
Qed.

(** One tick in the update state: the callback is handed the timestamp
    minus the previous-time field, in seconds; the tick records its
    timestamp in the field when the callback returns, and leaves the
    field alone when the callback throws. *)
Lemma tick_hands_time_since_previous (callbackFn : Callback)
    (currentTime : number) (g : Game.t) :
  currentState g = GameState.update ->
  let r := updateLoopLogic_run callbackFn currentTime g in
  let deltaTime := ((currentTime - deltaTimePreviousTime g) / 1000)%Q in
  match r.1 with
  | Normal _ =>
      ticks r.2 = Tick.mk currentTime deltaTime true :: ticks g
      /\ deltaTimePreviousTime r.2 = currentTime
  | Throw _ =>
      ticks r.2 = Tick.mk currentTime deltaTime false :: ticks g
      /\ deltaTimePreviousTime r.2 = deltaTimePreviousTime g
  end.
Proof.
  intros Hstate. cbv zeta. unfold updateLoopLogic_run.
  rewrite decide_False by (intros Hne; by apply Hne).
  set (g1 := map_fold _ g (loadedGameCameras g)).
  set (g2 := map_fold _ g1 (loadedGameObjects g1)).
  assert (Hf2 : user_frame g g2).
  { eapply user_frame_trans with (g2 := g1); apply map_fold_user_frame;
      intros; first [apply ctx_calls_user_frame | apply clearGameObject_user_frame]. }
  rewrite (frame_previous _ _ Hf2), (frame_ticks _ _ Hf2).
  set (deltaTime := ((currentTime - deltaTimePreviousTime g) / 1000)%Q).
  set (g3 := put_ticks _ g2).
  pose proof (run_user_frame (callbackFn deltaTime) g3) as Hrun.
  destruct (run (callbackFn deltaTime) g3) as [[[]|err] g4]; cbn [fst snd] in *.
  - pose proof (frame_ticks _ _ Hrun) as Hticks. cbn in Hticks.
    set (g5 := tick_recorded (put_deltaTimePreviousTime currentTime g4)).
    assert (H5 : ticks g5 = Tick.mk currentTime deltaTime true :: ticks g
                 /\ deltaTimePreviousTime g5 = currentTime).
    { unfold g5, tick_recorded. cbn [ticks put_deltaTimePreviousTime].
      rewrite Hticks. by cbn. }
    destruct (updateLoopLogic g5) as [loop|]; cbn; exact H5.
  - rewrite (frame_ticks _ _ Hrun), (frame_previous _ _ Hrun). cbn.
    by rewrite ?(frame_ticks _ _ Hf2), ?(frame_previous _ _ Hf2).
Qed.

(** An engine in its update stage, with a callback that does nothing. *)
Definition updating : Game.t :=
  steps [CallUpdate (fun _ => Return); SettleLink 1 []] (constructed 320 240 true).

(** A per-frame callback that keeps the elapsed time it is handed, in
    the scale of the engine:
    [(updater, deltaTime) => { game.scale = deltaTime; }]. *)
Definition keep_deltaTime : Callback :=
  fun deltaTime => Call (Op.set_scale deltaTime) (fun _ => Return).

(** A new engine whose update stage has that callback, after its first
    animation frame, which comes at [currentTime]. *)
Definition first_tick (currentTime : number) : Game.t :=
  steps [CallUpdate keep_deltaTime; SettleLink 1 []; AnimationFrame 1 currentTime]
    (constructed 320 240 true).

(** A callback that reads the keyboard before it keeps the elapsed
    time; [game.keyboard] throws as long as [useKeyboard()] has not been
    called. *)
Definition read_key_keep_deltaTime : Callback :=
  fun deltaTime =>
    Call (Op.keyboard_isDown "ArrowUp") (fun _ => keep_deltaTime deltaTime).

(** A new engine with that callback: the tick at 16 ms throws; the page
    then calls [useKeyboard()], [pause()] and [resume()], and the next
    tick comes at 50 ms. *)
Definition tick_after_throw : Game.t :=
  steps [CallUpdate read_key_keep_deltaTime; SettleLink 1 [];
         AnimationFrame 1 16;
         UserCode
           (Call Op.useKeyboard
              (fun _ => Call Op.pause (fun _ => Call Op.resume (fun _ => Return))));
         AnimationFrame 2 50]
    (constructed 320 240 true).

(** C4 (the code departs from the claim): the first tick is not handed
    0.  The previous-time field starts at 0 and the loop has no case
    for the first tick, so the callback of the first tick is handed the
    timestamp of the tick, divided by 1000: the time since the time
    origin of the page, whatever the timestamp is.  At 16 ms it is
    handed 16/1000.  The field is written when the callback has
    returned: after a tick whose callback threw, the next tick is not
    handed the time since that tick either (at 50 ms, after a throwing
    tick at 16 ms, it is handed 50/1000 and not 34/1000).  The callback
    here assigns what it is handed to the scale, where it is read. *)
Theorem first_tick_is_handed_its_timestamp :
  (forall currentTime,
     get_scale (first_tick currentTime) = Qabs ((currentTime - 0) / 1000))
  /\ (get_scale (first_tick 16) == 16 / 1000)%Q
  /\ ~ (get_scale (first_tick 16) == 0)%Q
  /\ (get_scale tick_after_throw == 50 / 1000)%Q
  /\ ~ (get_scale tick_after_throw == (50 - 16) / 1000)%Q.
Proof.
  split; [intros currentTime; reflexivity|].
  split; [reflexivity|]. split; [discriminate|].
  split; [reflexivity | discriminate].
Qed.

(** The log of the ticks of an engine a page can get to: each tick was
    handed its timestamp minus the previous-time field, divided by
    1000; the field is the timestamp of the last tick whose callback
    returned, and 0 before any. *)
Lemma deltaTime_is_time_since_recorded (g : Game.t) :
  reachable g ->
  ticks_ok (ticks g)
  /\ deltaTimePreviousTime g = last_recorded (ticks g)
  /\ (forall k, last (ticks g) = Some k ->
        Tick.deltaTime k = ((Tick.time k - 0) / 1000)%Q)
  /\ (forall ks1 k k' ks2,
        ticks g = ks1 ++ k :: k' :: ks2 -> Tick.recorded k' = true ->
        Tick.deltaTime k = ((Tick.time k - Tick.time k') / 1000)%Q).
Proof.
  intros Hreach. apply reachable_invariant in Hreach as [].
  split; [done|]. split; [done|]. split.
  - intros k. by apply ticks_ok_first.
  - intros ks1 k k' ks2 Hticks. apply (ticks_ok_next ks1 ks2).
    by rewrite <- Hticks.
Qed.

(** The engine after three animation frames, at 16, 33 and 50 ms. *)
Definition ticked_thrice : Game.t :=
  steps [AnimationFrame 1 16; AnimationFrame 2 33; AnimationFrame 3 50] updating.

Example ticked_thrice_ticks :
  ticks ticked_thrice
  = [Tick.mk 50 ((50 - 33) / 1000) true;
     Tick.mk 33 ((33 - 16) / 1000) true;
     Tick.mk 16 ((16 - 0) / 1000) true]%Q.
Proof. vm_compute. reflexivity. Qed.

End DeltaTime.

(** * The preload stage *)

Section Preload.

(** C6: for every preload producer that returns an empty asset list, the
    preload stage fails with [EmptyAssetListError], whatever the browser
    signals, and it leaves every registry as it was: no asset is
    inserted. *)
Theorem preload_empty_list_fails (signals : list Signal) (g : Game.t) :
  let r := run_stage (PreloadStage (Normal [])) signals g in
  r.1 = Rejected EmptyAssetListError
  /\ loadedSprites r.2 = loadedSprites g
  /\ loadedAudios r.2 = loadedAudios g
  /\ loadedGameObjects r.2 = loadedGameObjects g
  /\ loadedGameMaps r.2 = loadedGameMaps g
  /\ loadedGameCameras r.2 = loadedGameCameras g.
Proof.
  cbv zeta. cbn [run_stage]. unfold preload_body.
  rewrite bool_decide_eq_true_2 by reflexivity.
  repeat split.
Qed.

(** The link of the chain that carries such a stage settles as rejected
    with that error. *)
Lemma preload_empty_list_rejects_link (i : nat) (signals : list Signal)
    (g : Game.t) (p : nat) :
  promises g !! i = Some (Link.mk p (Then (PreloadStage (Normal []))) Registered) ->
  outcome_of p g = Some Fulfilled ->
  outcome_of (S i) (settle_link i signals g) = Some (Rejected EmptyAssetListError).
Proof.
  intros Hi Hp. unfold settle_link. rewrite Hi. cbn [Link.state Link.parent Link.reaction].
  rewrite Hp. cbn [run_stage]. unfold preload_body.
  rewrite bool_decide_eq_true_2 by reflexivity.
  cbn. rewrite list_lookup_alter_eq, Hi. reflexivity.
Qed.

(** A non-empty list whose assets all signal readiness: the stage
    resolves and each asset is in its registry under its name. *)
Example preload_ready_assets :
  let sprite :=
    GameSprite.mk "spr_player" "./spr_player.png" (Vector2.mk 0 0)
      (Vector2.mk 32 32) 0 (Vector2.mk 0 0) (Flip.mk false false) 1 in
  let audio := GameAudio.mk "jump" "./jump.ogg" 2 in
  let r :=
    run_stage (PreloadStage (Normal [AssetSprite sprite; AssetAudio audio]))
      [AudioCanPlayThrough 2; ImageLoad 1] (constructed 320 240 true) in
  r.1 = Fulfilled
  /\ loadedSprites r.2 !! "spr_player" = Some sprite
  /\ loadedAudios r.2 !! "jump" = Some audio.
Proof. cbv zeta. repeat split; vm_compute; reflexivity. Qed.

End Preload.

(** * The lifecycle chain *)

Section Lifecycle.

(** The lifecycle state is never [error]. *)
Lemma error_state_unreachable (g : Game.t) :
  reachable g -> currentState g ≠ GameState.error.
Proof. intros Hreach. by apply reachable_invariant in Hreach as []. Qed.

(** The handler the constructor hands to [catch] is never called: the
    promise it hangs on is the resolved promise the field starts with,
    not the chain. *)
Lemma catch_handler_never_called (g : Game.t) (i : nat) (l : Link.t) :
  reachable g -> promises g !! i = Some l -> Link.reaction l = Catch ->
  Link.parent l = 0 /\ forall o, Link.state l ≠ Called o.
Proof.
  intros Hreach Hi Hr. apply reachable_invariant in Hreach as [].
  by apply (Forall_lookup_1 _ _ _ _ inv_catch0 Hi).
Qed.

(** The body of a stage is called only when the link before it was
    fulfilled: after a rejection no later stage body runs. *)
Lemma stage_called_only_on_fulfilment (g : Game.t) (i : nat) (l : Link.t)
    (body : Stage) (o : Outcome) :
  reachable g -> promises g !! i = Some l ->
  Link.reaction l = Then body -> Link.state l = Called o ->
  outcome_of (Link.parent l) g = Some Fulfilled.
Proof.
  intros Hreach Hi Hr Hs. apply reachable_invariant in Hreach as [].
  by apply (Forall_lookup_1 _ _ _ _ inv_called0 Hi body o).
Qed.

(** A sprite whose image element is [element]. *)
Definition sprite_on (name : string) (element : nat) : GameSprite.t :=
  GameSprite.mk name "./sprite.png" (Vector2.mk 0 0) (Vector2.mk 16 16) 0
    (Vector2.mk 0 0) (Flip.mk false false) element.

(** [new Game(320, 240, el).preload(assets).load(() => []).update(() => {})],
    run until the chain has settled, the browser sending [signals] for
    the assets. *)
Definition lifecycle (assets : list Asset) (signals : list Signal) : Game.t :=
  settle_all (fun _ => signals)
    (update (fun _ => Return)
       (load (LoadReturn [])
          (preload (Normal assets) (constructed 320 240 true)))).

(** C1 (the code departs from the claim): a rejected chain does not
    become "errored".  With a producer that returns no asset, and with a
    sprite whose error signal fires, the preload link rejects and the
    links of [load] and [update] pass the rejection on without calling
    their bodies; the handler of the constructor is not called, nothing
    is written to the console, and the lifecycle state stays what the
    failed stage set, [preload]. *)
Theorem rejected_chain_is_not_errored :
  let empty := lifecycle [] [] in
  let failed := lifecycle [AssetSprite (sprite_on "hero" 1)] [ImageError 1 "404"] in
  (Link.state <$> promises empty
   = [PassedThrough Fulfilled;
      Called (Rejected EmptyAssetListError);
      PassedThrough (Rejected EmptyAssetListError);
      PassedThrough (Rejected EmptyAssetListError)]
   /\ currentState empty = GameState.preload
   /\ console empty = [])
  /\ (Link.state <$> promises failed
      = [PassedThrough Fulfilled;
         Called (Rejected "Error loading the sprite 'hero': 404");
         PassedThrough (Rejected "Error loading the sprite 'hero': 404");
         PassedThrough (Rejected "Error loading the sprite 'hero': 404")]
      /\ currentState failed = GameState.preload
      /\ console failed = []).
Proof. cbv zeta. repeat split; vm_compute; reflexivity. Qed.

End Lifecycle.

(** * Ending the game *)

Section End.

(** What [end()] does leave: logging off, the loop paused, the
    listeners of the keyboard instance detached, the registries, the key
    states and the miss-logging set empty.  The run-once keys are what
    they were. *)
Lemma end_quiesces (g : Game.t) :
  let g' := end_ g in
  logsEnabled g' = false
  /\ get_isRunning g' = false
  /\ (forall k, keyboardInstance g' = Some k ->
        GameKeyboard.listenerId k ∉ keyListeners g')
  /\ loadedSprites g' = ∅
  /\ loadedAudios g' = ∅
  /\ loadedGameObjects g' = ∅
  /\ loadedGameMaps g' = ∅
  /\ loadedGameCameras g' = ∅
  /\ keyboardState g' = ∅
  /\ loggedErros g' = ∅
  /\ updaterRunOnceKeys g' = updaterRunOnceKeys g.
Proof.
  cbv zeta. unfold end_, get_isRunning.
  set (g1 := pause (put_logsEnabled false g)).
  assert (Hpaused : updateIsRunning g1 = false
                    /\ updaterRunOnceKeys g1 = updaterRunOnceKeys g
                    /\ logsEnabled g1 = false).
  { unfold g1, pause. cbn [updateIsRunning put_logsEnabled].
    destruct (updateIsRunning g) eqn:Hrun; [| done].
    unfold log_if_enabled. cbn. done. }
  destruct Hpaused as (Hrun & Hkeys & Hlogs).
  destruct (keyboardInstance g1) as [k|] eqn:Hk; cbn; rewrite ?Hk;
    repeat split; try assumption; try reflexivity; try discriminate.
  intros k' [= <-]. intros [_ Hout]%elem_of_difference.
  apply Hout. by apply elem_of_singleton.
Qed.

(** An engine whose per-frame callback runs a block once, under the key
    "intro", after its first animation frame. *)
Definition played : Game.t :=
  steps [CallUpdate (fun _ => RunOnce "intro" Return Return);
         SettleLink 1 [];
         AnimationFrame 1 16]
    (constructed 320 240 true).

(** C5 (the code departs from the claim): [end()] does not clear the
    run-once key set.  After a frame whose callback ran a block once
    under the key "intro", the set holds that key, and it still holds it
    when [end()] has returned. *)
Theorem end_keeps_run_once_keys :
  "intro" ∈ updaterRunOnceKeys played
  /\ "intro" ∈ updaterRunOnceKeys (end_ played)
  /\ updaterRunOnceKeys (end_ played) ≠ ∅.
Proof.
  assert (Hin : "intro" ∈ updaterRunOnceKeys played).
  { apply elem_of_elements.
    assert (elements (updaterRunOnceKeys played) = ["intro"]) as ->
      by (vm_compute; reflexivity).
    by apply list_elem_of_singleton. }
  destruct (end_quiesces played) as (_ & _ & _ & _ & _ & _ & _ & _ & _ & _ & Hkeys).
  rewrite Hkeys. split; [exact Hin|]. split; [exact Hin|].
  intros Hempty. rewrite Hempty in Hin. by apply not_elem_of_empty in Hin.
Qed.

End End.

(** * Pausing and resuming *)

Section PauseResume.

(** [pause()] and [resume()] are guarded by [#updateIsRunning]: each is
    idempotent, [pause()] leaves the loop stopped and [resume()] leaves
    it running, and resuming a paused engine puts the lifecycle state
    back to [update]. *)
Theorem pause_resume_toggle (g : Game.t) :
  pause (pause g) = pause g
  /\ resume (resume g) = resume g
  /\ get_isRunning (pause g) = false
  /\ get_isRunning (resume g) = true
  /\ currentState (resume (pause g)) = GameState.update
  /\ get_isRunning (resume (pause g)) = true.
Proof.
  unfold get_isRunning.
  assert (Hp : updateIsRunning (pause g) = false).
  { unfold pause. destruct (updateIsRunning g) eqn:E; [| exact E]. host_cases. }
  assert (Hr : forall g, updateIsRunning (resume g) = true).
  { intros g0. unfold resume. destruct (updateIsRunning g0) eqn:E; [exact E|].
    host_cases. }
  assert (Hs : forall g, updateIsRunning g = false ->
                 currentState (resume g) = GameState.update).
  { intros g0 E. unfold resume. rewrite E. host_cases. }
  repeat split; auto.
  - unfold pause at 1. by rewrite Hp.
  - unfold resume at 1. by rewrite Hr.
Qed.

(** [pause()] cancels the frame the loop last requested and requests
    none; [resume()] on a paused engine whose loop exists requests
    exactly one frame, for that loop. *)
Theorem pause_cancels_resume_requests (g : Game.t) (loop : Callback) :
  updateLoopLogic g = Some loop ->
  (get_isRunning g = true ->
   animationFrames (pause g)
   = filter (fun f : nat * Callback => f.1 ≠ updateFrameId g) (animationFrames g))
  /\ (get_isRunning g = false ->
      animationFrames (resume g) = animationFrames g ++ [(nextFrameId g, loop)]).
Proof.
  intros Hloop. unfold get_isRunning. split; intros Hrun.
  - unfold pause. rewrite Hrun. host_cases.
  - unfold resume. rewrite Hrun. cbn. rewrite Hloop. host_cases.
Qed.

Lemma pause_cancels_resume_requests_witness :
  (get_isRunning updating = true ->
   animationFrames (pause updating)
   = filter (fun f : nat * Callback => f.1 ≠ updateFrameId updating)
       (animationFrames updating))
  /\ (get_isRunning updating = false ->
      animationFrames (resume updating)
      = animationFrames updating ++ [(nextFrameId updating, fun _ => Return)]).
Proof.
  apply (pause_cancels_resume_requests updating (fun _ => Return)).
  reflexivity.
Defined.

End PauseResume.

(** * What no call takes back

    Three things, once so, stay so whatever is called afterwards: a
    run-once key that is in the set, a keyboard instance that exists,
    and the guard of the loop being closed while the loop is stopped. *)

Section SessionFrame.

(** While [#updateIsRunning] is false the lifecycle state is not
    [update]: the loop closure returns at its first line. *)
Definition loop_guard (g : Game.t) : Prop :=
  updateIsRunning g = false -> currentState g ≠ GameState.update.

Record session_frame (g g' : Game.t) : Prop := mk_session_frame {
  keep_runOnce : updaterRunOnceKeys g ⊆ updaterRunOnceKeys g';
  keep_keyboard : is_Some (keyboardInstance g) -> is_Some (keyboardInstance g');
  keep_guard : loop_guard g -> loop_guard g'
}.

Lemma session_frame_refl (g : Game.t) : session_frame g g.
Proof. by split. Qed.

Lemma session_frame_trans (g1 g2 g3 : Game.t) :
  session_frame g1 g2 -> session_frame g2 g3 -> session_frame g1 g3.
Proof. intros [] []. split; [set_solver | auto | auto]. Qed.

Lemma foldl_session_frame {X} (f : Game.t -> X -> Game.t) (l : list X) (g : Game.t) :
  (forall g x, session_frame g (f g x)) -> session_frame g (foldl f g l).
Proof.
  intros Hf. revert g. induction l as [|x l IH]; intros g.
  - apply session_frame_refl.
  - cbn [foldl]. eapply session_frame_trans; [apply Hf | apply IH].
Qed.

Lemma map_fold_session_frame {V} (f : string -> V -> Game.t -> Game.t)
    (m : gmap string V) (g : Game.t) :
  (forall k v g, session_frame g (f k v g)) -> session_frame g (map_fold f g m).
Proof.
  intros Hf. apply (map_fold_weak_ind (fun r _ => session_frame g r)).
  - apply session_frame_refl.
  - intros k v m' r _ Hr. eapply session_frame_trans; [exact Hr | apply Hf].
Qed.

(** A write that touches none of the four fields the frame reads. *)
Lemma session_frame_same (g g' : Game.t) :
  updaterRunOnceKeys g' = updaterRunOnceKeys g ->
  keyboardInstance g' = keyboardInstance g ->
  updateIsRunning g' = updateIsRunning g ->
  currentState g' = currentState g ->
  session_frame g g'.
Proof.
  intros Hk Hi Hr Hs. split; unfold loop_guard; rewrite ?Hk, ?Hi, ?Hr, ?Hs; done.
Qed.

Ltac same_session := apply session_frame_same; host_cases.

Lemma ctx_calls_session_frame ops g : session_frame g (ctx_calls ops g).
Proof. same_session. Qed.

Lemma log_if_enabled_session_frame l s g : session_frame g (log_if_enabled l s g).
Proof. same_session. Qed.

Lemma clearGameObject_session_frame p s g : session_frame g (clearGameObject p s g).
Proof. same_session. Qed.

Lemma renderGameObject_session_frame o g : session_frame g (renderGameObject o g).
Proof. unfold renderGameObject. apply ctx_calls_session_frame. Qed.

Lemma pause_session_frame g : session_frame g (pause g).
Proof.
  unfold pause. destruct (updateIsRunning g); [| apply session_frame_refl].
  split; unfold loop_guard; host_cases.
Qed.

Lemma resume_session_frame g : session_frame g (resume g).
Proof.
  unfold resume. destruct (updateIsRunning g); [apply session_frame_refl|].
  split; unfold loop_guard; host_cases.
Qed.

Lemma updater_pause_session_frame g : session_frame g (updater_pause g).
Proof.
  unfold updater_pause. destruct (updateIsRunning g); [| apply session_frame_refl].
  split; unfold loop_guard; host_cases.
Qed.

Lemma updater_resume_session_frame g : session_frame g (updater_resume g).
Proof.
  unfold updater_resume. destruct (updateIsRunning g); [apply session_frame_refl|].
  split; unfold loop_guard; host_cases.
Qed.

Lemma end_session_frame g : session_frame g (end_ g).
Proof.
  unfold end_.
  eapply session_frame_trans with (g2 := pause (put_logsEnabled false g)).
  - eapply session_frame_trans; [| apply pause_session_frame]. same_session.
  - unfold GameKeyboard_removeListener. same_session.
Qed.

Lemma removeObject_session_frame target g : session_frame g (removeObject target g).
Proof.
  unfold removeObject.
  destruct target;
    match goal with |- context [has ?m ?k] => destruct (has m k) end;
    try apply session_frame_refl;
    (eapply session_frame_trans; [| apply log_if_enabled_session_frame]);
    (eapply session_frame_trans; [| apply clearGameObject_session_frame]);
    same_session.
Qed.

Lemma instantiate_session_frame o n g : session_frame g (instantiate o n g).2.
Proof.
  unfold instantiate. generalize (seq 0 n) as l.
  generalize (@nil GameObject.t) as acc. intros acc l. revert acc g.
  induction l as [|i l IH]; intros acc g; [apply session_frame_refl|].
  cbn [foldl].
  destruct (instantiate_step o (acc, g) i) as [acc' g'] eqn:E.
  eapply session_frame_trans; [| apply IH].
  unfold instantiate_step in E. cbv zeta in E.
  repeat case_match; simplify_eq; same_session.
Qed.

Lemma useShowCollisions_session_frame g : session_frame g (useShowCollisions g).
Proof.
  unfold useShowCollisions. apply map_fold_session_frame. intros k v g1.
  repeat case_match; try apply session_frame_refl. apply ctx_calls_session_frame.
Qed.

Lemma useKeyboard_session_frame g : session_frame g (useKeyboard g).
Proof.
  unfold useKeyboard, new_GameKeyboard. split; unfold loop_guard; host_cases.
Qed.

Lemma report_miss_once_session_frame b n l g :
  session_frame g (report_miss_once b n l g).
Proof. unfold report_miss_once. same_session. Qed.

Lemma updater_animate_session_frame o g : session_frame g (updater_animate o g).
Proof.
  unfold updater_animate. case_match; [apply renderGameObject_session_frame|].
  apply session_frame_refl.
Qed.

Lemma colliding_session_frame a b g : session_frame g (colliding a b g).2.
Proof.
  unfold colliding.
  repeat match goal with
         | |- context [if ?c then _ else _] => destruct c
         end; cbn [snd];
    try apply session_frame_refl; apply log_if_enabled_session_frame.
Qed.

Lemma call_session_frame {A} (op : Op.t A) (g : Game.t) :
  session_frame g (call op g).2.
Proof.
  destruct op; cbn [call]; unfold read, lift, bind, get_keyboard;
    try (cbn [snd]; apply session_frame_refl).
  - same_session.
  - same_session.
  - unfold set_smoothingQuality. case_decide; same_session.
  - apply pause_session_frame.
  - apply resume_session_frame.
  - apply end_session_frame.
  - apply removeObject_session_frame.
  - pose proof (instantiate_session_frame targetObject quantity g).
    by destruct (instantiate _ _ _).
  - unfold destroy. same_session.
  - pose proof (colliding_session_frame object1 object2 g).
    by destruct (colliding _ _ _).
  - apply ctx_calls_session_frame.
  - apply ctx_calls_session_frame.
  - unfold useLogs. same_session.
  - apply useShowCollisions_session_frame.
  - apply useKeyboard_session_frame.
  - repeat case_match; simplify_eq; apply session_frame_refl.
  - unfold updater_logObjects. same_session.
  - apply report_miss_once_session_frame.
  - apply report_miss_once_session_frame.
  - apply report_miss_once_session_frame.
  - apply report_miss_once_session_frame.
  - unfold updater_animateFromName. cbn [snd].
    eapply session_frame_trans; [apply report_miss_once_session_frame|].
    case_match; [apply renderGameObject_session_frame | apply session_frame_refl].
  - apply updater_animate_session_frame.
  - apply foldl_session_frame. intros. apply updater_animate_session_frame.
  - apply updater_pause_session_frame.
  - apply updater_resume_session_frame.
  - same_session.
Qed.

Lemma run_session_frame (s : Script) (g : Game.t) : session_frame g (run s g).2.
Proof.
  revert g. induction s as [| err | A op k IH | identifier body IHbody k IHk
                           | target threshold k IHk
                           | target threshold body IHbody k IHk]; intros g; cbn [run].
  - apply session_frame_refl.
  - apply session_frame_refl.
  - unfold bind. pose proof (call_session_frame op g) as Hop.
    destruct (call op g) as [[a|err] g1]; cbn [snd] in *; [|done].
    eapply session_frame_trans; [exact Hop | apply IH].
  - case_match; [| apply IHk].
    unfold bind, lift. pose proof (IHbody g) as Hbody.
    destruct (run body g) as [[[]|err] g1]; cbn [snd] in *; [|done].
    eapply session_frame_trans; [exact Hbody|].
    eapply session_frame_trans; [| apply IHk].
    split; unfold loop_guard; host_cases; set_solver.
  - case_match; [| apply IHk].
    eapply session_frame_trans; [apply pause_session_frame | apply IHk].
  - case_match; [| apply IHk].
    unfold bind. pose proof (IHbody g) as Hbody.
    destruct (run body g) as [[[]|err] g1]; cbn [snd] in *; [|done].
    eapply session_frame_trans; [exact Hbody | apply IHk].
Qed.

End SessionFrame.

Section SessionFrameEvents.

Ltac same_session := apply session_frame_same; host_cases.

Lemma put_currentState_session_frame (s : GameState.t) (g : Game.t) :
  s ≠ GameState.update -> session_frame g (put_currentState s g).
Proof. intros Hs. split; unfold loop_guard; cbn; done. Qed.

Lemma deliver_session_frame sprites audios w g s :
  session_frame g (deliver sprites audios (w, g) s).2.
Proof.
  unfold deliver. destruct s as [el | el msg | el | el msg].
  - destruct (installed_handler sprites el) as [[i sprite]|];
      [| apply session_frame_refl]. cbn [snd]. same_session.
  - destruct (installed_handler sprites el) as [[i sprite]|];
      apply session_frame_refl.
  - generalize (imap (fun j a => (j, a)) audios) as l. intros l.
    revert w g. induction l as [|p l IH]; intros w g; [apply session_frame_refl|].
    cbn [foldl].
    assert (Hp : session_frame g (on_canplaythrough el (w, g) p).2).
    { unfold on_canplaythrough. destruct p as [j audio].
      case_match; [| apply session_frame_refl]. cbn [snd]. same_session. }
    destruct (on_canplaythrough el (w, g) p) as [w1 g1]. cbn [snd] in Hp.
    eapply session_frame_trans; [exact Hp | apply IH].
  - apply session_frame_refl.
Qed.

Lemma advance_session_frame ph w g : session_frame g (advance ph w g).2.
Proof.
  unfold advance, advance_audios.
  repeat case_match; cbn [snd];
    try apply session_frame_refl; apply log_if_enabled_session_frame.
Qed.

Lemma on_signal_session_frame sprites audios ph w g s :
  session_frame g (on_signal sprites audios (ph, w, g) s).2.
Proof.
  unfold on_signal.
  pose proof (deliver_session_frame sprites audios w g s) as Hd.
  destruct (deliver sprites audios (w, g) s) as [w1 g1]. cbn [snd] in Hd.
  pose proof (advance_session_frame ph w1 g1) as Ha.
  destruct (advance ph w1 g1) as [ph1 g2]. cbn [snd] in *.
  eapply session_frame_trans; eassumption.
Qed.

Lemma preload_body_session_frame callbackFn signals g :
  session_frame g (preload_body callbackFn signals g).2.
Proof.
  unfold preload_body.
  assert (Hstate : session_frame g (put_currentState GameState.preload g))
    by by apply put_currentState_session_frame.
  destruct callbackFn as [assets|err]; [| exact Hstate].
  case_bool_decide; [exact Hstate|].
  set (sprites := sprites_of assets). set (audios := audios_of assets).
  set (w := mkWaits _ _ _ _).
  pose proof (advance_session_frame AwaitSprites w
                (put_currentState GameState.preload g)) as Ha.
  destruct (advance AwaitSprites w _) as [ph g1]. cbn [snd] in Ha.
  assert (Hfold : forall l ph w g,
            session_frame g (foldl (on_signal sprites audios) (ph, w, g) l).2).
  { clear. intros l. induction l as [|s l IH]; intros ph w g;
      [apply session_frame_refl|].
    cbn [foldl]. pose proof (on_signal_session_frame sprites audios ph w g s) as Hs.
    destruct (on_signal sprites audios (ph, w, g) s) as [[ph1 w1] g2].
    eapply session_frame_trans; [exact Hs | apply IH]. }
  specialize (Hfold signals ph w g1).
  destruct (foldl (on_signal sprites audios) (ph, w, g1) signals) as [[ph2 w2] g2].
  cbn [snd] in *.
  eapply session_frame_trans; [exact Hstate|].
  eapply session_frame_trans; eassumption.
Qed.

Lemma run_load_session_frame s g : session_frame g (run_load s g).2.
Proof.
  revert g. induction s as [objects | err | k IH | name k IH | name k IH];
    intros g; cbn [run_load]; try apply session_frame_refl.
  - eapply session_frame_trans; [| apply IH]. same_session.
  - eapply session_frame_trans; [| apply IH]. same_session.
  - eapply session_frame_trans; [| apply IH]. same_session.
Qed.

Lemma load_body_session_frame callbackFn g :
  session_frame g (load_body callbackFn g).2.
Proof.
  unfold load_body.
  eapply session_frame_trans with (g2 := put_currentState GameState.load g);
    [by apply put_currentState_session_frame|].
  pose proof (run_load_session_frame callbackFn (put_currentState GameState.load g))
    as Hrun.
  destruct (run_load callbackFn _) as [[objects|err] g1]; cbn [snd] in *;
    [| exact Hrun].
  eapply session_frame_trans; [exact Hrun|].
  eapply session_frame_trans; [| apply log_if_enabled_session_frame].
  eapply session_frame_trans;
    [| apply foldl_session_frame; intros; by apply session_frame_same].
  eapply session_frame_trans;
    [| apply foldl_session_frame; intros; by apply session_frame_same].
  apply foldl_session_frame; intros; by apply session_frame_same.
Qed.

Lemma update_body_session_frame callbackFn g :
  session_frame g (update_body callbackFn g).2.
Proof.
  unfold update_body. cbn [snd]. split; unfold loop_guard; host_cases.
Qed.

Lemma run_stage_session_frame body signals g :
  session_frame g (run_stage body signals g).2.
Proof.
  destruct body; cbn [run_stage].
  - apply preload_body_session_frame.
  - apply load_body_session_frame.
  - apply update_body_session_frame.
Qed.

Lemma settle_link_session_frame i signals g :
  session_frame g (settle_link i signals g).
Proof.
  unfold settle_link.
  destruct (promises g !! i) as [l|]; [| apply session_frame_refl].
  destruct (Link.state l); try apply session_frame_refl.
  destruct (outcome_of (Link.parent l) g) as [[| |r]|];
    try apply session_frame_refl;
    destruct (Link.reaction l) as [body|].
  - pose proof (run_stage_session_frame body signals g) as Hrun.
    destruct (run_stage body signals g) as [o g1]. cbn [snd] in Hrun.
    eapply session_frame_trans; [exact Hrun|]. by apply session_frame_same.
  - by apply session_frame_same.
  - by apply session_frame_same.
  - unfold lifecycle_catch, put_link_state.
    split; unfold loop_guard; host_cases.
Qed.

Lemma updateLoopLogic_run_session_frame callbackFn currentTime g :
  session_frame g (updateLoopLogic_run callbackFn currentTime g).2.
Proof.
  unfold updateLoopLogic_run. case_decide; [apply session_frame_refl|].
  set (g1 := map_fold _ g (loadedGameCameras g)).
  set (g2 := map_fold _ g1 (loadedGameObjects g1)).
  assert (Hf2 : session_frame g g2).
  { eapply session_frame_trans with (g2 := g1); apply map_fold_session_frame;
      intros;
      first [apply ctx_calls_session_frame | apply clearGameObject_session_frame]. }
  set (deltaTime := ((currentTime - deltaTimePreviousTime g2) / 1000)%Q).
  set (g3 := put_ticks _ g2).
  pose proof (run_session_frame (callbackFn deltaTime) g3) as Hrun.
  assert (Hf4 : session_frame g (run (callbackFn deltaTime) g3).2).
  { eapply session_frame_trans; [exact Hf2|].
    eapply session_frame_trans; [| exact Hrun]. by apply session_frame_same. }
  destruct (run (callbackFn deltaTime) g3) as [[[]|err] g4]; cbn [snd] in *;
    [| exact Hf4].
  eapply session_frame_trans; [exact Hf4|].
  unfold tick_recorded, requestAnimationFrame.
  destruct (ticks (put_deltaTimePreviousTime currentTime g4)) as [|k ks];
    cbn; case_match; cbn [snd]; same_session.
Qed.

Lemma step_session_frame (e : Event) (g : Game.t) : session_frame g (step e g).
Proof.
  destruct e; cbn [step].
  - apply run_session_frame.
  - by apply session_frame_same.
  - by apply session_frame_same.
  - by apply session_frame_same.
  - apply settle_link_session_frame.
  - destruct (list_find _ _) as [[? [? loop]]|]; [| apply session_frame_refl].
    eapply session_frame_trans; [| apply updateLoopLogic_run_session_frame].
    same_session.
  - case_bool_decide; [apply session_frame_refl | by apply session_frame_same].
  - case_bool_decide; [apply session_frame_refl|].
    repeat case_match; try apply session_frame_refl; by apply session_frame_same.
Qed.

Lemma steps_session_frame (es : list Event) (g : Game.t) :
  session_frame g (steps es g).
Proof.
  unfold steps. revert g. induction es as [|e es IH]; intros g.
  - apply session_frame_refl.
  - cbn [foldl]. eapply session_frame_trans; [apply step_session_frame | apply IH].
Qed.

Lemma reachable_loop_guard (g : Game.t) : reachable g -> loop_guard g.
Proof.
  induction 1 as [width height context g Hnew | e g _ IH].
  - injection Hnew as <-. intros _. done.
  - by apply (keep_guard _ _ (step_session_frame e g)).
Qed.

End SessionFrameEvents.

(** * The loop while it is stopped, run-once blocks, the keyboard *)

Section Session.

Lemma filter_ne_absent (l : list (nat * Callback)) (id : nat) :
  list_find (fun f : nat * Callback => f.1 = id) l = None ->
  filter (fun f : nat * Callback => f.1 ≠ id) l = l.
Proof.
  intros Hnone. apply list_find_None in Hnone.
  induction Hnone as [|f l Hf _ IH]; [done|].
  rewrite filter_cons_True by done. by rewrite IH.
Qed.

(** An engine whose loop was started and then paused. *)
Definition paused : Game.t :=
  step (UserCode (Call Op.pause (fun _ => Return))) updating.

(** While [isRunning] is false, an animation frame that fires calls no
    callback, leaves the previous-time field alone and requests no
    frame: it is only taken off the requests. *)
Theorem stopped_loop_drops_frames (g : Game.t) (id : nat) (currentTime : number) :
  reachable g -> get_isRunning g = false ->
  let g' := step (AnimationFrame id currentTime) g in
  ticks g' = ticks g
  /\ deltaTimePreviousTime g' = deltaTimePreviousTime g
  /\ nextFrameId g' = nextFrameId g
  /\ animationFrames g'
     = filter (fun f : nat * Callback => f.1 ≠ id) (animationFrames g).
Proof.
  intros Hreach Hrun. cbv zeta. cbn [step].
  pose proof (reachable_loop_guard g Hreach Hrun) as Hguard.
  destruct (list_find _ (animationFrames g)) as [[? [? loop]]|] eqn:Hfind.
  - unfold updateLoopLogic_run.
    rewrite decide_True by (unfold cancelAnimationFrame; cbn; exact Hguard).
    done.
  - by rewrite filter_ne_absent.
Qed.

Lemma stopped_loop_drops_frames_witness :
  let g' := step (AnimationFrame 1 16) paused in
  ticks g' = ticks paused
  /\ deltaTimePreviousTime g' = deltaTimePreviousTime paused
  /\ nextFrameId g' = nextFrameId paused
  /\ animationFrames g'
     = filter (fun f : nat * Callback => f.1 ≠ 1) (animationFrames paused).
Proof.
  apply (stopped_loop_drops_frames paused 1 16).
  - unfold paused, updating, steps. cbn [foldl].
    repeat apply reachable_step. apply (reachable_new 320 240 true). reflexivity.
  - reflexivity.
Defined.

(** A run-once block whose key is in the set never runs again: whatever
    happens to the engine afterwards, [end()] included, [runOnce] with
    that key goes straight on. *)
Theorem runOnce_never_runs_again (identifier : string) (callbackFn k : Script)
    (es : list Event) (g : Game.t) :
  identifier ∈ updaterRunOnceKeys g ->
  run (RunOnce identifier callbackFn k) (steps es g) = run k (steps es g).
Proof.
  intros Hin. cbn [run].
  rewrite bool_decide_eq_true_2; [done|].
  by apply (keep_runOnce _ _ (steps_session_frame es g)).
Qed.

Lemma runOnce_never_runs_again_witness :
  run (RunOnce "intro" (Raise "ran twice") Return)
    (steps [UserCode (Call Op.end_ (fun _ => Return)); AnimationFrame 2 33] played)
  = run Return
      (steps [UserCode (Call Op.end_ (fun _ => Return)); AnimationFrame 2 33] played).
Proof.
  apply (runOnce_never_runs_again "intro" (Raise "ran twice") Return
           [UserCode (Call Op.end_ (fun _ => Return)); AnimationFrame 2 33] played).
  apply elem_of_elements.
  assert (elements (updaterRunOnceKeys played) = ["intro"]) as ->
    by (vm_compute; reflexivity).
  by apply list_elem_of_singleton.
Defined.

(** The first [runOnce] under a key runs the block: when the block
    returns the key is in the set, and when the block throws the
    exception goes to the caller and [runOnce] itself adds nothing (the
    engine is as the block left it). *)
Theorem runOnce_first_run (identifier : string) (callbackFn : Script) (g : Game.t) :
  identifier ∉ updaterRunOnceKeys g ->
  match run callbackFn g with
  | (Normal _, g1) =>
      exists g2, run (RunOnce identifier callbackFn Return) g = (Normal tt, g2)
        /\ identifier ∈ updaterRunOnceKeys g2
        /\ updaterRunOnceKeys g1 ⊆ updaterRunOnceKeys g2
  | (Throw err, g1) =>
      run (RunOnce identifier callbackFn Return) g = (Throw err, g1)
  end.
Proof.
  intros Hnew. cbn [run]. rewrite bool_decide_eq_false_2 by done. cbn [negb].
  unfold bind, lift. destruct (run callbackFn g) as [[[]|err] g1]; [|done].
  eexists. split; [reflexivity|]. cbn. split; set_solver.
Qed.

Lemma runOnce_first_run_witness :
  match run (Call Op.useLogs (fun _ => Return)) updating with
  | (Normal _, g1) =>
      exists g2,
        run (RunOnce "intro" (Call Op.useLogs (fun _ => Return)) Return) updating
        = (Normal tt, g2)
        /\ "intro" ∈ updaterRunOnceKeys g2
        /\ updaterRunOnceKeys g1 ⊆ updaterRunOnceKeys g2
  | (Throw err, g1) =>
      run (RunOnce "intro" (Call Op.useLogs (fun _ => Return)) Return) updating
      = (Throw err, g1)
  end.
Proof.
  apply (runOnce_first_run "intro" (Call Op.useLogs (fun _ => Return)) updating).
  intros Hin. apply elem_of_elements in Hin.
  assert (elements (updaterRunOnceKeys updating) = []) as E
    by (vm_compute; reflexivity).
  rewrite E in Hin. by apply not_elem_of_nil in Hin.
Defined.

(** [game.keyboard] throws on an engine on which [useKeyboard()] was
    never called, and once [useKeyboard()] has been called it returns an
    instance in every later state of the engine: nothing, [end()]
    included, unsets the instance. *)
Theorem keyboard_available_once_enabled (g : Game.t) (es : list Event) :
  (forall width height context,
     exists err,
       get_keyboard (constructed width height context)
       = (Throw err, constructed width height context))
  /\ exists k,
       get_keyboard (steps es (useKeyboard g))
       = (Normal k, steps es (useKeyboard g)).
Proof.
  split.
  - intros. eexists. reflexivity.
  - assert (Hsome : is_Some (keyboardInstance (steps es (useKeyboard g)))).
    { apply (keep_keyboard _ _ (steps_session_frame es (useKeyboard g))).
      unfold useKeyboard, new_GameKeyboard. cbn. eauto. }
    destruct Hsome as [k Hk]. exists k. unfold get_keyboard. by rewrite Hk.
Qed.

End Session.

(** * Lookups by name in the per-frame callback *)

Section Lookups.

Lemma report_miss_once_again (b : bool) (name line line' : string) (g : Game.t) :
  report_miss_once b name line' (report_miss_once b name line g)
  = report_miss_once b name line g.
Proof.
  unfold report_miss_once.
  destruct (logsEnabled g && b
            && negb (bool_decide (("loadError: " +:+ name) ∈ loggedErros g))) eqn:E;
    cbn.
  - rewrite (bool_decide_eq_true_2 (_ ∈ {[_]} ∪ _)) by set_solver.
    by rewrite !andb_false_r.
  - by rewrite E.
Qed.

Lemma report_miss_once_known (b : bool) (name line : string) (g : Game.t) :
  ("loadError: " +:+ name) ∈ loggedErros g ->
  report_miss_once b name line g = g.
Proof.
  intros Hin. unfold report_miss_once.
  rewrite (bool_decide_eq_true_2 _ Hin). by rewrite andb_false_r.
Qed.

Lemma report_miss_once_registries (b : bool) (name line : string) (g : Game.t) :
  let g' := report_miss_once b name line g in
  loadedSprites g' = loadedSprites g /\ loadedAudios g' = loadedAudios g
  /\ loadedGameObjects g' = loadedGameObjects g
  /\ loadedGameMaps g' = loadedGameMaps g
  /\ logsEnabled g' = logsEnabled g
  /\ length (console g') <= S (length (console g)).
Proof.
  cbv zeta. unfold report_miss_once. case_match; cbn; repeat split; lia.
Qed.

(** A lookup through [updater] writes at most one line, and the same
    lookup made again gives the same answer and writes nothing: a miss
    is reported once. *)
Theorem updater_lookup_reports_once (name : string) (g : Game.t) :
  (let r := updater_getSprite name g in
   updater_getSprite name r.2 = r
   /\ length (console r.2) <= S (length (console g)))
  /\ (let r := updater_getAudio name g in
      updater_getAudio name r.2 = r
      /\ length (console r.2) <= S (length (console g)))
  /\ (let r := updater_getObject name g in
      updater_getObject name r.2 = r
      /\ length (console r.2) <= S (length (console g)))
  /\ (let r := updater_getMap name g in
      updater_getMap name r.2 = r
      /\ length (console r.2) <= S (length (console g))).
Proof.
  cbv zeta.
  unfold updater_getSprite, updater_getAudio, updater_getObject, updater_getMap.
  cbn [fst snd].
  repeat split;
    try (match goal with
         | |- context [report_miss_once ?b ?n ?l g] =>
             destruct (report_miss_once_registries b n l g)
               as (Hs & Ha & Ho & Hm & _ & Hlen)
         end; first [exact Hlen | lia]);
    match goal with
    | |- context [report_miss_once ?b ?n ?l g] =>
        destruct (report_miss_once_registries b n l g)
          as (Hs & Ha & Ho & Hm & _ & _)
    end;
    rewrite ?Hs, ?Ha, ?Ho, ?Hm; by rewrite report_miss_once_again.
Qed.

(** The reports are remembered by name alone.  With logging on, a
    lookup of an entity that misses on a name writes one line at most
    and puts the name in the set of the reported misses.  In every
    state of the engine in which the name is in that set, a lookup of
    the name through [updater] (sprite, audio, entity or map) writes
    nothing and leaves the engine as it is, found or not. *)
Theorem updater_miss_silences_name (name : string) (g g' : Game.t) :
  logsEnabled g = true ->
  loadedGameObjects g !! name = None ->
  ("loadError: " +:+ name) ∈ loggedErros g' ->
  let g1 := (updater_getObject name g).2 in
  ("loadError: " +:+ name) ∈ loggedErros g1
  /\ length (console g1) <= S (length (console g))
  /\ (updater_getSprite name g').2 = g'
  /\ (updater_getAudio name g').2 = g'
  /\ (updater_getObject name g').2 = g'
  /\ (updater_getMap name g').2 = g'.
Proof.
  intros Hlogs Hmiss Hknown. cbv zeta. split; [|split].
  - unfold updater_getObject, report_miss_once. cbn [snd].
    rewrite Hlogs. replace (has (loadedGameObjects g) name) with false
      by (symmetry; by apply has_false).
    cbn [negb andb]. case_bool_decide as Hin; cbn; [done|].
    apply elem_of_union. left. by apply elem_of_singleton.
  - unfold updater_getObject. cbn [snd].
    by destruct (report_miss_once_registries
                   (negb (has (loadedGameObjects g) name)) name
                   ("Named game object '" +:+ name
                    +:+ "' was not found in the loaded resources, check if you loaded it correctly and gave it the right name")
                   g) as (_ & _ & _ & _ & _ & Hlen).
  - unfold updater_getSprite, updater_getAudio, updater_getObject, updater_getMap.
    cbn [fst snd]. by rewrite !report_miss_once_known by exact Hknown.
Qed.

(** An engine with logging on and no entity. *)
Definition logging : Game.t := useLogs (constructed 320 240 true).

(** That engine after a lookup of the entity "coin-1" has missed, a
    frame has been drawn, and an entity of that name has been made. *)
Definition missed_then_made : Game.t :=
  step
    (UserCode
       (Call (Op.updater_getObject "coin-1")
          (fun _ =>
             Call Op.useClearScreen
               (fun _ => Call (Op.instantiate coin 1) (fun _ => Return)))))
    logging.

Lemma updater_miss_silences_name_witness :
  let g1 := (updater_getObject "coin-1" logging).2 in
  ("loadError: " +:+ "coin-1") ∈ loggedErros g1
  /\ length (console g1) <= S (length (console logging))
  /\ (updater_getSprite "coin-1" missed_then_made).2 = missed_then_made
  /\ (updater_getAudio "coin-1" missed_then_made).2 = missed_then_made
  /\ (updater_getObject "coin-1" missed_then_made).2 = missed_then_made
  /\ (updater_getMap "coin-1" missed_then_made).2 = missed_then_made.
Proof.
  apply (updater_miss_silences_name "coin-1" logging missed_then_made).
  - reflexivity.
  - reflexivity.
  - apply elem_of_elements.
    assert (elements (loggedErros missed_then_made) = ["loadError: coin-1"]) as ->
      by (vm_compute; reflexivity).
    by apply list_elem_of_singleton.
Defined.

End Lookups.

(** * The load stage *)

Section Load.

(** The last of the values of [l] that [key] names [k], and the entry of
    [m] when there is none: what [m] has under [k] once every value of
    [l] was set under its name, in order. *)
Definition last_named {V} (key : V -> string) (l : list V) (m : gmap string V)
    (k : string) : option V :=
  match last (filter (fun v => key v = k) l) with
  | Some v => Some v
  | None => m !! k
  end.

Lemma lookup_foldl_insert {V} (key : V -> string) (l : list V)
    (m : gmap string V) (k : string) :
  foldl (fun m v => <[key v := v]> m) m l !! k = last_named key l m k.
Proof.
  unfold last_named. revert m. induction l as [|v l IH]; intros m; [done|].
  cbn [foldl]. rewrite IH. destruct (decide (key v = k)) as [Hk|Hk].
  - rewrite filter_cons_True by done. rewrite last_cons.
    destruct (last _); [done|]. rewrite <- Hk. apply lookup_insert_eq.
  - rewrite filter_cons_False by done.
    destruct (last _); [done|]. by apply lookup_insert_ne.
Qed.

(** The producer of [load] reads the registries and writes to the
    console only. *)
Lemma run_load_reads (s : LoadScript) (g : Game.t) :
  let g' := (run_load s g).2 in
  loadedSprites g' = loadedSprites g
  /\ loadedAudios g' = loadedAudios g
  /\ loadedGameObjects g' = loadedGameObjects g
  /\ loadedGameMaps g' = loadedGameMaps g
  /\ loadedGameCameras g' = loadedGameCameras g
  /\ currentState g' = currentState g.
Proof.
  cbv zeta. revert g.
  induction s as [objects | err | k IH | name k IH | name k IH];
    intros g; cbn [run_load]; try done.
  - destruct (IH (if logsEnabled g
                  then console_write console_log "Currently loaded audios: "
                         (console_write console_log "Currently loaded sprites: " g)
                  else g)) as (-> & -> & -> & -> & -> & ->).
    by destruct (logsEnabled g).
  - match goal with |- context [run_load (k ?a) ?g'] =>
      destruct (IH a g') as (-> & -> & -> & -> & -> & ->) end.
    by case_match.
  - match goal with |- context [run_load (k ?a) ?g'] =>
      destruct (IH a g') as (-> & -> & -> & -> & -> & ->) end.
    by case_match.
Qed.

Lemma set_gameObjects_fold (l : list GameObject.t) (g : Game.t) :
  let g' :=
    foldl (fun g o =>
             put_loadedGameObjects (<[GameObject.name o := o]> (loadedGameObjects g)) g)
      g l in
  loadedGameObjects g'
  = foldl (fun m o => <[GameObject.name o := o]> m) (loadedGameObjects g) l
  /\ loadedSprites g' = loadedSprites g /\ loadedAudios g' = loadedAudios g
  /\ loadedGameMaps g' = loadedGameMaps g
  /\ loadedGameCameras g' = loadedGameCameras g
  /\ currentState g' = currentState g.
Proof.
  cbv zeta. revert g. induction l as [|o l IH]; intros g; [done|].
  cbn [foldl]. by destruct (IH (put_loadedGameObjects
    (<[GameObject.name o := o]> (loadedGameObjects g)) g))
    as (-> & -> & -> & -> & -> & ->).
Qed.

Lemma set_gameMaps_fold (l : list GameMap.t) (g : Game.t) :
  let g' :=
    foldl (fun g m =>
             put_loadedGameMaps (<[GameMap.name m := m]> (loadedGameMaps g)) g)
      g l in
  loadedGameMaps g'
  = foldl (fun r m => <[GameMap.name m := m]> r) (loadedGameMaps g) l
  /\ loadedSprites g' = loadedSprites g /\ loadedAudios g' = loadedAudios g
  /\ loadedGameObjects g' = loadedGameObjects g
  /\ loadedGameCameras g' = loadedGameCameras g
  /\ currentState g' = currentState g.
Proof.
  cbv zeta. revert g. induction l as [|o l IH]; intros g; [done|].
  cbn [foldl]. by destruct (IH (put_loadedGameMaps
    (<[GameMap.name o := o]> (loadedGameMaps g)) g))
    as (-> & -> & -> & -> & -> & ->).
Qed.

Lemma set_gameCameras_fold (l : list GameCamera.t) (g : Game.t) :
  let g' :=
    foldl (fun g c =>
             put_loadedGameCameras
               (<[GameCamera.name c := c]> (loadedGameCameras g)) g)
      g l in
  loadedGameCameras g'
  = foldl (fun r c => <[GameCamera.name c := c]> r) (loadedGameCameras g) l
  /\ loadedSprites g' = loadedSprites g /\ loadedAudios g' = loadedAudios g
  /\ loadedGameObjects g' = loadedGameObjects g
  /\ loadedGameMaps g' = loadedGameMaps g
  /\ currentState g' = currentState g.
Proof.
  cbv zeta. revert g. induction l as [|o l IH]; intros g; [done|].
  cbn [foldl]. by destruct (IH (put_loadedGameCameras
    (<[GameCamera.name o := o]> (loadedGameCameras g)) g))
    as (-> & -> & -> & -> & -> & ->).
Qed.

(** When the producer of [load] returns, the stage is fulfilled in the
    state [load]; each registry of entities, maps and cameras has, under
    every name, the last returned item of its kind with that name, and
    what it had before when no item has the name; the registries of
    sprites and audios are as they were. *)
Theorem load_registers_returned (callbackFn : LoadScript)
    (objects : list LoadItem) (g : Game.t) :
  (run_load callbackFn (put_currentState GameState.load g)).1 = Normal objects ->
  let r := load_body callbackFn g in
  r.1 = Fulfilled
  /\ currentState r.2 = GameState.load
  /\ (forall k, loadedGameObjects r.2 !! k
        = last_named GameObject.name (gameObjects_of objects) (loadedGameObjects g) k)
  /\ (forall k, loadedGameMaps r.2 !! k
        = last_named GameMap.name (gameMaps_of objects) (loadedGameMaps g) k)
  /\ (forall k, loadedGameCameras r.2 !! k
        = last_named GameCamera.name (gameCameras_of objects) (loadedGameCameras g) k)
  /\ loadedSprites r.2 = loadedSprites g
  /\ loadedAudios r.2 = loadedAudios g.
Proof.
  intros Hrun. cbv zeta. unfold load_body.
  destruct (run_load_reads callbackFn (put_currentState GameState.load g))
    as (Hs & Ha & Ho & Hm & Hc & Hst).
  destruct (run_load callbackFn (put_currentState GameState.load g))
    as [[objects'|err] g1]; cbn [fst snd] in *; [| done].
  injection Hrun as ->.
  set (g2 := foldl _ g1 (gameObjects_of objects)).
  set (g3 := foldl _ g2 (gameMaps_of objects)).
  set (g4 := foldl _ g3 (gameCameras_of objects)).
  destruct (set_gameObjects_fold (gameObjects_of objects) g1)
    as (Ho2 & Hs2 & Ha2 & Hm2 & Hc2 & Hst2).
  destruct (set_gameMaps_fold (gameMaps_of objects) g2)
    as (Hm3 & Hs3 & Ha3 & Ho3 & Hc3 & Hst3).
  destruct (set_gameCameras_fold (gameCameras_of objects) g3)
    as (Hc4 & Hs4 & Ha4 & Ho4 & Hm4 & Hst4).
  fold g2 in Ho2, Hs2, Ha2, Hm2, Hc2, Hst2.
  fold g3 in Hm3, Hs3, Ha3, Ho3, Hc3, Hst3.
  fold g4 in Hc4, Hs4, Ha4, Ho4, Hm4, Hst4.
  assert (Hlog : forall l s g,
            currentState (log_if_enabled l s g) = currentState g
            /\ loadedGameObjects (log_if_enabled l s g) = loadedGameObjects g
            /\ loadedGameMaps (log_if_enabled l s g) = loadedGameMaps g
            /\ loadedGameCameras (log_if_enabled l s g) = loadedGameCameras g
            /\ loadedSprites (log_if_enabled l s g) = loadedSprites g
            /\ loadedAudios (log_if_enabled l s g) = loadedAudios g).
  { intros. unfold log_if_enabled. by case_match. }
  destruct (Hlog console_info "Load step complete!" g4)
    as (-> & -> & -> & -> & -> & ->).
  split; [done|]. split; [by rewrite Hst4, Hst3, Hst2, Hst|].
  split; [| split; [| split]].
  - intros k. rewrite Ho4, Ho3, Ho2, lookup_foldl_insert. by rewrite Ho.
  - intros k. rewrite Hm4, Hm3, lookup_foldl_insert. by rewrite Hm2, Hm.
  - intros k. rewrite Hc4, lookup_foldl_insert. by rewrite Hc3, Hc2, Hc.
  - split; [by rewrite Hs4, Hs3, Hs2, Hs | by rewrite Ha4, Ha3, Ha2, Ha].
Qed.

(** A producer that looks up a sprite, preloaded or not, and returns
    two entities named "hero" and one map. *)
Definition two_heroes : LoadScript :=
  GetSprite "spr_hero"
    (fun s =>
       LoadReturn [ItemObject (GameObject.new 1 "hero" s 0);
                   ItemMap (GameMap.mk "level" s);
                   ItemObject (GameObject.new 2 "hero" s 1)]).

Lemma load_registers_returned_witness :
  let objects :=
    [ItemObject (GameObject.new 1 "hero" GameSprite.getEmptyInstance 0);
     ItemMap (GameMap.mk "level" GameSprite.getEmptyInstance);
     ItemObject (GameObject.new 2 "hero" GameSprite.getEmptyInstance 1)] in
  let g := constructed 320 240 true in
  let r := load_body two_heroes g in
  r.1 = Fulfilled
  /\ currentState r.2 = GameState.load
  /\ (forall k, loadedGameObjects r.2 !! k
        = last_named GameObject.name (gameObjects_of objects) (loadedGameObjects g) k)
  /\ (forall k, loadedGameMaps r.2 !! k
        = last_named GameMap.name (gameMaps_of objects) (loadedGameMaps g) k)
  /\ (forall k, loadedGameCameras r.2 !! k
        = last_named GameCamera.name (gameCameras_of objects) (loadedGameCameras g) k)
  /\ loadedSprites r.2 = loadedSprites g
  /\ loadedAudios r.2 = loadedAudios g.
Proof.
  cbv zeta. apply (load_registers_returned two_heroes). reflexivity.
Defined.

(** A producer of [load] that throws rejects the stage with what it
    threw, in the state [load], and no registry changes. *)
Theorem load_producer_throw_rejects (callbackFn : LoadScript) (err : string)
    (g : Game.t) :
  (run_load callbackFn (put_currentState GameState.load g)).1 = Throw err ->
  let r := load_body callbackFn g in
  r.1 = Rejected err
  /\ currentState r.2 = GameState.load
  /\ loadedSprites r.2 = loadedSprites g
  /\ loadedAudios r.2 = loadedAudios g
  /\ loadedGameObjects r.2 = loadedGameObjects g
  /\ loadedGameMaps r.2 = loadedGameMaps g
  /\ loadedGameCameras r.2 = loadedGameCameras g.
Proof.
  intros Hrun. cbv zeta. unfold load_body.
  destruct (run_load_reads callbackFn (put_currentState GameState.load g))
    as (Hs & Ha & Ho & Hm & Hc & Hst).
  destruct (run_load callbackFn (put_currentState GameState.load g))
    as [[objects'|err'] g1]; cbn [fst snd] in *; [done|].
  injection Hrun as ->. done.
Qed.

Lemma load_producer_throw_rejects_witness :
  let callbackFn :=
    GetAudio "theme" (fun _ => LogAssets (LoadRaise "no level data")) in
  let g := constructed 320 240 true in
  let r := load_body callbackFn g in
  r.1 = Rejected "no level data"
  /\ currentState r.2 = GameState.load
  /\ loadedSprites r.2 = loadedSprites g
  /\ loadedAudios r.2 = loadedAudios g
  /\ loadedGameObjects r.2 = loadedGameObjects g
  /\ loadedGameMaps r.2 = loadedGameMaps g
  /\ loadedGameCameras r.2 = loadedGameCameras g.
Proof.
  cbv zeta.
  apply (load_producer_throw_rejects
           (GetAudio "theme" (fun _ => LogAssets (LoadRaise "no level data")))
           "no level data" (constructed 320 240 true)).
  reflexivity.
Defined.

End Load.

(** * More on the preload stage *)

Section PreloadSignals.

Variables (sprites : list GameSprite.t) (audios : list GameAudio.t).

Lemma on_signal_finished (o : Outcome) (w : Waits) (g : Game.t) (s : Signal) :
  (on_signal sprites audios (Finished o, w, g) s).1.1 = Finished o.
Proof.
  unfold on_signal. destruct (deliver sprites audios (w, g) s) as [w1 g1].
  reflexivity.
Qed.

Lemma signals_finished (o : Outcome) (l : list Signal) (w : Waits) (g : Game.t) :
  (foldl (on_signal sprites audios) (Finished o, w, g) l).1.1 = Finished o.
Proof.
  revert w g. induction l as [|s l IH]; intros w g; [done|].
  cbn [foldl]. pose proof (on_signal_finished o w g s) as Hs.
  destruct (on_signal sprites audios (Finished o, w, g) s) as [[ph w1] g1].
  cbn in Hs. subst ph. apply IH.
Qed.

(** What the handlers and the body of [preload] leave alone, and what
    they only add to. *)
Record asset_frame (g g' : Game.t) : Prop := mk_asset_frame {
  assets_state : currentState g' = currentState g;
  assets_objects : loadedGameObjects g' = loadedGameObjects g;
  assets_maps : loadedGameMaps g' = loadedGameMaps g;
  assets_cameras : loadedGameCameras g' = loadedGameCameras g;
  assets_sprites : dom (loadedSprites g) ⊆ dom (loadedSprites g');
  assets_audios : dom (loadedAudios g) ⊆ dom (loadedAudios g')
}.

Lemma asset_frame_refl (g : Game.t) : asset_frame g g.
Proof. by split. Qed.

Lemma asset_frame_trans (g1 g2 g3 : Game.t) :
  asset_frame g1 g2 -> asset_frame g2 g3 -> asset_frame g1 g3.
Proof. intros [] []. split; try congruence; set_solver. Qed.

Lemma log_if_enabled_asset_frame l s g : asset_frame g (log_if_enabled l s g).
Proof. unfold log_if_enabled. case_match; by split. Qed.

Lemma deliver_asset_frame w g s :
  asset_frame g (deliver sprites audios (w, g) s).2.
Proof.
  unfold deliver. destruct s as [el | el msg | el | el msg].
  - destruct (installed_handler sprites el) as [[i sprite]|];
      [| apply asset_frame_refl]. cbn [snd].
    eapply asset_frame_trans; [| apply log_if_enabled_asset_frame].
    split; cbn; try done. rewrite dom_insert_L. set_solver.
  - destruct (installed_handler sprites el) as [[i sprite]|];
      apply asset_frame_refl.
  - generalize (imap (fun j a => (j, a)) audios) as l. intros l.
    revert w g. induction l as [|p l IH]; intros w g; [apply asset_frame_refl|].
    cbn [foldl].
    assert (Hp : asset_frame g (on_canplaythrough el (w, g) p).2).
    { unfold on_canplaythrough. destruct p as [j audio].
      case_match; [| apply asset_frame_refl]. cbn [snd].
      eapply asset_frame_trans; [| apply log_if_enabled_asset_frame].
      split; cbn; try done. rewrite dom_insert_L. set_solver. }
    destruct (on_canplaythrough el (w, g) p) as [w1 g1]. cbn [snd] in Hp.
    eapply asset_frame_trans; [exact Hp | apply IH].
  - apply asset_frame_refl.
Qed.

Lemma advance_asset_frame ph w g : asset_frame g (advance ph w g).2.
Proof.
  unfold advance, advance_audios.
  repeat case_match; cbn [snd];
    try apply asset_frame_refl; apply log_if_enabled_asset_frame.
Qed.

Lemma signals_asset_frame (l : list Signal) ph w g :
  asset_frame g (foldl (on_signal sprites audios) (ph, w, g) l).2.
Proof.
  revert ph w g. induction l as [|s l IH]; intros ph w g;
    [apply asset_frame_refl|].
  cbn [foldl]. unfold on_signal at 2.
  pose proof (deliver_asset_frame w g s) as Hd.
  destruct (deliver sprites audios (w, g) s) as [w1 g1]. cbn [snd] in Hd.
  pose proof (advance_asset_frame ph w1 g1) as Ha.
  destruct (advance ph w1 g1) as [ph1 g2]. cbn [snd] in Ha.
  eapply asset_frame_trans; [exact Hd|].
  eapply asset_frame_trans; [exact Ha | apply IH].
Qed.

End PreloadSignals.

Section PreloadMore.

(** Once the body of [preload] has settled, fulfilled or rejected, the
    signals that come later do not change how it settled: the first
    failure wins, and a late failure does not undo a success. *)
Theorem preload_outcome_final (callbackFn : Completion (list Asset))
    (signals later : list Signal) (g : Game.t) :
  (preload_body callbackFn signals g).1 ≠ Pending ->
  (preload_body callbackFn (signals ++ later) g).1
  = (preload_body callbackFn signals g).1.
Proof.
  unfold preload_body. destruct callbackFn as [assets|err]; [| done].
  case_bool_decide; [done|].
  set (sprites := sprites_of assets). set (audios := audios_of assets).
  set (w := mkWaits _ _ _ _).
  destruct (advance AwaitSprites w _) as [ph g1].
  rewrite foldl_app.
  destruct (foldl (on_signal sprites audios) (ph, w, g1) signals)
    as [[ph2 w2] g2] eqn:E.
  cbn [fst]. intros Hsettled.
  destruct ph2 as [| |o]; try done.
  pose proof (signals_finished sprites audios o later w2 g2) as Hlater.
  destruct (foldl (on_signal sprites audios) (Finished o, w2, g2) later)
    as [[ph3 w3] g3].
  cbn in Hlater. by subst ph3.
Qed.

Lemma preload_outcome_final_witness :
  (preload_body (Normal [AssetSprite (sprite_on "hero" 1);
                         AssetSprite (sprite_on "coin" 2)])
     ([ImageError 2 "404"] ++ [ImageLoad 1; ImageLoad 2]) (constructed 320 240 true)).1
  = (preload_body (Normal [AssetSprite (sprite_on "hero" 1);
                           AssetSprite (sprite_on "coin" 2)])
       [ImageError 2 "404"] (constructed 320 240 true)).1.
Proof.
  apply (preload_outcome_final
           (Normal [AssetSprite (sprite_on "hero" 1); AssetSprite (sprite_on "coin" 2)])
           [ImageError 2 "404"] [ImageLoad 1; ImageLoad 2] (constructed 320 240 true)).
  vm_compute. discriminate.
Defined.

Lemma preload_body_registries (callbackFn : Completion (list Asset))
    (signals : list Signal) (g : Game.t) :
  let r := preload_body callbackFn signals g in
  currentState r.2 = GameState.preload
  /\ loadedGameObjects r.2 = loadedGameObjects g
  /\ loadedGameMaps r.2 = loadedGameMaps g
  /\ loadedGameCameras r.2 = loadedGameCameras g
  /\ dom (loadedSprites g) ⊆ dom (loadedSprites r.2)
  /\ dom (loadedAudios g) ⊆ dom (loadedAudios r.2).
Proof.
  cbv zeta. unfold preload_body. destruct callbackFn as [assets|err]; [| done].
  case_bool_decide; [done|].
  set (sprites := sprites_of assets). set (audios := audios_of assets).
  set (w := mkWaits _ _ _ _).
  pose proof (advance_asset_frame AwaitSprites w
                (put_currentState GameState.preload g)) as Ha.
  destruct (advance AwaitSprites w _) as [ph g1]. cbn [snd] in Ha.
  pose proof (signals_asset_frame sprites audios signals ph w g1) as Hs.
  destruct (foldl (on_signal sprites audios) (ph, w, g1) signals) as [[ph2 w2] g2].
  cbn [snd] in *.
  destruct (asset_frame_trans _ _ _ Ha Hs) as [H1 H2 H3 H4 H5 H6].
  cbn in *. done.
Qed.

(** Whatever the producer returns and the browser signals, the body of
    [preload] leaves the lifecycle state at [preload], does not touch
    the registries of entities, maps and cameras, and takes no name out
    of the registries of sprites and audios. *)
Theorem preload_only_adds_assets (callbackFn : Completion (list Asset))
    (signals : list Signal) (g : Game.t) :
  let r := preload_body callbackFn signals g in
  currentState r.2 = GameState.preload
  /\ loadedGameObjects r.2 = loadedGameObjects g
  /\ loadedGameMaps r.2 = loadedGameMaps g
  /\ loadedGameCameras r.2 = loadedGameCameras g
  /\ dom (loadedSprites g) ⊆ dom (loadedSprites r.2)
  /\ dom (loadedAudios g) ⊆ dom (loadedAudios r.2).
Proof. apply preload_body_registries. Qed.

End PreloadMore.

(** * A preload whose assets all become ready *)

#[global] Instance Signal_eq_dec : EqDecision Signal.
Proof. solve_decision. Defined.

Section PreloadReady.

Variables (sprites : list GameSprite.t) (audios : list GameAudio.t).

(** No two sprites of the list share an image element. *)
Hypothesis distinct_elements : NoDup (GameSprite.element <$> sprites).

(** The signal is one of readiness, not of failure. *)
Definition ready (s : Signal) : Prop :=
  match s with
  | ImageLoad _ | AudioCanPlayThrough _ => True
  | ImageError _ _ | AudioError _ _ => False
  end.

(** How the promise of an asset stands when the signals [done] have
    come and none of them was a failure. *)
Definition sprite_status (done : list Signal) (s : GameSprite.t) : Outcome :=
  if decide (ImageLoad (GameSprite.element s) ∈ done) then Fulfilled else Pending.

Definition audio_status (done : list Signal) (a : GameAudio.t) : Outcome :=
  if decide (AudioCanPlayThrough (GameAudio.element a) ∈ done)
  then Fulfilled else Pending.

(** The [canplaythrough] listener of an audio is attached until it has
    fired. *)
Definition audio_listening (done : list Signal) (a : GameAudio.t) : bool :=
  negb (bool_decide (AudioCanPlayThrough (GameAudio.element a) ∈ done)).

(** The registry [m] has, under the name of [v], a value of [l] with
    that name. *)
Definition named_in {V} (key : V -> string) (l : list V) (m : gmap string V)
    (v : V) : Prop :=
  exists v', m !! key v = Some v' /\ v' ∈ l /\ key v' = key v.

Lemma named_in_insert {V} (key : V -> string) (l : list V) (m : gmap string V)
    (v u : V) :
  u ∈ l -> named_in key l m v -> named_in key l (<[key u := u]> m) v.
Proof.
  intros Hu (v' & Hv' & Hin & Hkey). destruct (decide (key u = key v)) as [E|E].
  - exists u. rewrite E, lookup_insert_eq. done.
  - exists v'. rewrite lookup_insert_ne by done. done.
Qed.

Lemma named_in_new {V} (key : V -> string) (l : list V) (m : gmap string V) (u : V) :
  u ∈ l -> named_in key l (<[key u := u]> m) u.
Proof. intros Hu. exists u. by rewrite lookup_insert_eq. Qed.

Record ready_inv (done : list Signal) (w : Waits) (g : Game.t) : Prop :=
  mk_ready_inv {
  ri_sprites : spriteLoadPromises w = sprite_status done <$> sprites;
  ri_audios : audioLoadPromises w = audio_status done <$> audios;
  ri_listeners : canplaythroughListeners w = audio_listening done <$> audios;
  ri_sprite_named :
    forall s, s ∈ sprites -> ImageLoad (GameSprite.element s) ∈ done ->
      named_in GameSprite.name sprites (loadedSprites g) s;
  ri_audio_named :
    forall a, a ∈ audios -> AudioCanPlayThrough (GameAudio.element a) ∈ done ->
      named_in GameAudio.name audios (loadedAudios g) a
}.

(** The handlers installed on an image element are those of the one
    sprite that owns it. *)
Lemma installed_handler_Some (element i : nat) (s : GameSprite.t) :
  installed_handler sprites element = Some (i, s) ->
  sprites !! i = Some s /\ GameSprite.element s = element.
Proof.
  unfold installed_handler. intros Hlast.
  apply last_Some_elem_of, list_elem_of_filter in Hlast as [Hel Hin].
  apply elem_of_lookup_imap in Hin as (i' & s' & [= -> ->] & Hi). done.
Qed.

Lemma installed_handler_owner (i : nat) (s : GameSprite.t) :
  sprites !! i = Some s ->
  installed_handler sprites (GameSprite.element s) = Some (i, s).
Proof.
  intros Hi. unfold installed_handler.
  destruct (last _) as [[i' s']|] eqn:Hlast.
  - pose proof Hlast as Hlast'.
    apply installed_handler_Some in Hlast' as [Hi' Hel].
    assert (i' = i) as ->.
    { apply (NoDup_lookup _ _ _ (GameSprite.element s) distinct_elements);
        rewrite list_lookup_fmap; [rewrite Hi' | rewrite Hi]; cbn; congruence. }
    congruence.
  - apply last_None in Hlast.
    assert (Hin : (i, s) ∈ filter
              (fun p : nat * GameSprite.t =>
                 GameSprite.element p.2 = GameSprite.element s)
              (imap (fun i s => (i, s)) sprites)).
    { apply list_elem_of_filter. split; [done|].
      by apply (elem_of_lookup_imap_2 (fun i s => (i, s))). }
    rewrite Hlast in Hin. by apply not_elem_of_nil in Hin.
Qed.

Lemma installed_handler_None (element : nat) (s : GameSprite.t) :
  installed_handler sprites element = None -> s ∈ sprites ->
  GameSprite.element s ≠ element.
Proof.
  intros Hnone [i Hi]%list_elem_of_lookup Hel.
  apply installed_handler_owner in Hi. congruence.
Qed.

Lemma status_after_other (done : list Signal) (s : Signal) (t : Signal) :
  s ≠ t -> (t ∈ done ++ [s] <-> t ∈ done).
Proof.
  intros Hne. rewrite elem_of_app, list_elem_of_singleton.
  split; [intros [H|H]; [exact H | by destruct Hne] | by left].
Qed.

(** An image element is loaded. *)
Lemma ready_inv_ImageLoad (done : list Signal) (w : Waits) (g : Game.t)
    (element : nat) :
  ready_inv done w g ->
  let r := deliver sprites audios (w, g) (ImageLoad element) in
  ready_inv (done ++ [ImageLoad element]) r.1 r.2.
Proof.
  intros [Hs Ha Hl Hsn Han]. cbv zeta. unfold deliver.
  assert (Haudio : forall a,
            AudioCanPlayThrough (GameAudio.element a) ∈ done ++ [ImageLoad element]
            <-> AudioCanPlayThrough (GameAudio.element a) ∈ done).
  { intros a. by apply status_after_other. }
  assert (Ha' : audioLoadPromises w
                = audio_status (done ++ [ImageLoad element]) <$> audios).
  { rewrite Ha. apply list_fmap_ext. intros j a _. unfold audio_status.
    apply decide_ext. symmetry. apply Haudio. }
  assert (Hl' : canplaythroughListeners w
                = audio_listening (done ++ [ImageLoad element]) <$> audios).
  { rewrite Hl. apply list_fmap_ext. intros j a _. unfold audio_listening.
    f_equal. apply bool_decide_ext. symmetry. apply Haudio. }
  destruct (installed_handler sprites element) as [[i s]|] eqn:Hh; cbn [fst snd].
  - apply installed_handler_Some in Hh as [Hi Hel].
    assert (Hin : s ∈ sprites) by (apply list_elem_of_lookup; eauto).
    assert (Hreg : forall l line g0,
              loadedSprites (log_if_enabled l line g0) = loadedSprites g0
              /\ loadedAudios (log_if_enabled l line g0) = loadedAudios g0).
    { intros. unfold log_if_enabled. by case_match. }
    split; cbn; [| done | done | |].
    + rewrite Hs. apply list_eq. intros i'.
      unfold settle. rewrite list_lookup_fmap, Hi. cbn.
      assert (Hnow : sprite_status (done ++ [ImageLoad element]) s = Fulfilled).
      { unfold sprite_status. apply decide_True. rewrite Hel.
        apply elem_of_app. right. by apply list_elem_of_singleton. }
      assert (Hsame : forall s', i' ≠ i -> sprites !! i' = Some s' ->
                sprite_status (done ++ [ImageLoad element]) s'
                = sprite_status done s').
      { intros s' Hne Hi'. unfold sprite_status. apply decide_ext.
        apply status_after_other. intros [= Heq]. apply Hne.
        apply (NoDup_lookup _ _ _ element distinct_elements);
          rewrite list_lookup_fmap; [rewrite Hi' | rewrite Hi]; cbn; congruence. }
      rewrite (list_lookup_fmap _ sprites i').
      destruct (sprite_status done s) eqn:Est.
      * destruct (decide (i' = i)) as [->|Hne].
        -- rewrite list_lookup_insert_eq, Hi; [cbn; by rewrite Hnow|].
           rewrite length_fmap. by eapply lookup_lt_Some.
        -- rewrite list_lookup_insert_ne, list_lookup_fmap by done.
           destruct (sprites !! i') as [s'|] eqn:Hi'; [|done]. cbn.
           by rewrite Hsame.
      * rewrite list_lookup_fmap. destruct (decide (i' = i)) as [->|Hne].
        -- rewrite Hi. cbn. by rewrite Est, Hnow.
        -- destruct (sprites !! i') as [s'|] eqn:Hi'; [|done]. cbn.
           by rewrite Hsame.
      * unfold sprite_status in Est. by case_decide.
    + intros s' Hs' Hdone. destruct (Hreg console_log
        ("GameSprite: " +:+ GameSprite.name s +:+ " was sucessfully preloaded")
        (put_loadedSprites (<[GameSprite.name s := s]> (loadedSprites g)) g))
        as [-> _]. cbn.
      apply elem_of_app in Hdone as [Hdone|Hnow].
      * apply named_in_insert; auto.
      * apply list_elem_of_singleton in Hnow. injection Hnow as Heq.
        assert (s' = s) as ->.
        { apply list_elem_of_lookup in Hs' as [i' Hi'].
          assert (i' = i) as ->; [| congruence].
          apply (NoDup_lookup _ _ _ element distinct_elements);
            rewrite list_lookup_fmap; [rewrite Hi' | rewrite Hi]; cbn; congruence. }
        by apply named_in_new.
    + intros a Ha0 Hdone. destruct (Hreg console_log
        ("GameSprite: " +:+ GameSprite.name s +:+ " was sucessfully preloaded")
        (put_loadedSprites (<[GameSprite.name s := s]> (loadedSprites g)) g))
        as [_ ->]. cbn. apply Han; [done|]. by apply Haudio.
  - split; cbn; [| done | done | |].
    + rewrite Hs. apply list_fmap_ext. intros i s Hi. unfold sprite_status.
      apply decide_ext. symmetry. apply status_after_other. intros [= Heq].
      eapply installed_handler_None; [exact Hh | | symmetry; exact Heq].
      apply list_elem_of_lookup; eauto.
    + intros s Hin Hdone. apply Hsn; [done|].
      apply elem_of_app in Hdone as [Hdone|Hnow]; [done|].
      apply list_elem_of_singleton in Hnow. injection Hnow as Heq.
      by destruct (installed_handler_None element s Hh Hin).
    + intros a Ha0 Hdone. apply Han; [done|]. by apply Haudio.
Qed.

Lemma audio_now (done : list Signal) (element : nat) (a : GameAudio.t) :
  GameAudio.element a = element ->
  audio_status (done ++ [AudioCanPlayThrough element]) a = Fulfilled
  /\ audio_listening (done ++ [AudioCanPlayThrough element]) a = false.
Proof.
  intros <-. unfold audio_status, audio_listening.
  assert (AudioCanPlayThrough (GameAudio.element a)
          ∈ done ++ [AudioCanPlayThrough (GameAudio.element a)])
    by (apply elem_of_app; right; by apply list_elem_of_singleton).
  by rewrite decide_True, bool_decide_eq_true_2.
Qed.

Lemma audio_other (done : list Signal) (element : nat) (a : GameAudio.t) :
  GameAudio.element a ≠ element ->
  audio_status (done ++ [AudioCanPlayThrough element]) a = audio_status done a
  /\ audio_listening (done ++ [AudioCanPlayThrough element]) a
     = audio_listening done a.
Proof.
  intros Hne. unfold audio_status, audio_listening.
  assert (AudioCanPlayThrough (GameAudio.element a)
          ∈ done ++ [AudioCanPlayThrough element]
          <-> AudioCanPlayThrough (GameAudio.element a) ∈ done)
    by (apply status_after_other; congruence).
  split; [by apply decide_ext | f_equal; by apply bool_decide_ext].
Qed.

Lemma audio_fired (done : list Signal) (a : GameAudio.t) :
  audio_listening done a = false ->
  AudioCanPlayThrough (GameAudio.element a) ∈ done
  /\ audio_status done a = Fulfilled.
Proof.
  unfold audio_listening, audio_status. intros H%negb_false_iff.
  apply bool_decide_eq_true_1 in H. by rewrite decide_True.
Qed.

Lemma audio_waiting (done : list Signal) (a : GameAudio.t) :
  audio_listening done a = true -> audio_status done a = Pending.
Proof.
  unfold audio_listening, audio_status. intros H%negb_true_iff.
  apply bool_decide_eq_false_1 in H. by rewrite decide_False.
Qed.

(** The [canplaythrough] listeners of the audios [pre], the first of the
    list, have been called for the element; those of [post] are still to
    be. *)
Lemma canplaythrough_listeners (done : list Signal) (element : nat)
    (pre : list GameAudio.t) :
  forall (post : list GameAudio.t) (w : Waits) (g : Game.t),
    pre ++ post = audios ->
    audioLoadPromises w = audio_status done <$> (pre ++ post) ->
    canplaythroughListeners w = audio_listening done <$> (pre ++ post) ->
    (forall a, a ∈ audios -> AudioCanPlayThrough (GameAudio.element a) ∈ done ->
       named_in GameAudio.name audios (loadedAudios g) a) ->
    let r := foldl (on_canplaythrough element) (w, g)
               (imap (fun j a => (j, a)) pre) in
    let done' := done ++ [AudioCanPlayThrough element] in
    spriteLoadPromises r.1 = spriteLoadPromises w
    /\ audioLoadPromises r.1
       = (audio_status done' <$> pre) ++ (audio_status done <$> post)
    /\ canplaythroughListeners r.1
       = (audio_listening done' <$> pre) ++ (audio_listening done <$> post)
    /\ loadedSprites r.2 = loadedSprites g
    /\ (forall a, a ∈ audios ->
          named_in GameAudio.name audios (loadedAudios g) a ->
          named_in GameAudio.name audios (loadedAudios r.2) a)
    /\ (forall a, a ∈ pre -> GameAudio.element a = element ->
          named_in GameAudio.name audios (loadedAudios r.2) a).
Proof.
  induction pre as [|a pre IH] using rev_ind; intros post w g Hall Ha Hl Hnamed;
    cbv zeta.
  - cbn. repeat split; try done. intros a Hin. by apply not_elem_of_nil in Hin.
  - assert (Hall' : pre ++ a :: post = audios) by by rewrite <- Hall, <- app_assoc.
    rewrite <- app_assoc in Ha, Hl. cbn [app] in Ha, Hl.
    specialize (IH (a :: post) w g Hall' Ha Hl Hnamed). cbv zeta in IH.
    rewrite imap_app, foldl_app. cbn [imap foldl].
    destruct (foldl (on_canplaythrough element) (w, g)
                (imap (fun j a => (j, a)) pre)) as [w1 g1].
    cbn [fst snd] in IH. destruct IH as (Hs1 & Ha1 & Hl1 & Hsp1 & Hkeep1 & Hpre1).
    rewrite Nat.add_0_r. unfold on_canplaythrough.
    assert (Hin : a ∈ audios).
    { rewrite <- Hall'. apply elem_of_app. right. by apply elem_of_cons; left. }
    assert (Hj : canplaythroughListeners w1 !! length pre
                 = Some (audio_listening done a)).
    { rewrite Hl1. cbn [fmap list_fmap]. apply list_lookup_middle.
      by rewrite length_fmap. }
    assert (Hst : audioLoadPromises w1 !! length pre = Some (audio_status done a)).
    { rewrite Ha1. cbn [fmap list_fmap]. apply list_lookup_middle.
      by rewrite length_fmap. }
    rewrite Hj. cbn [default from_option id].
    rewrite !fmap_app. cbn [fmap list_fmap]. rewrite <- !app_assoc. cbn [app].
    destruct (bool_decide (GameAudio.element a = element)) eqn:Hel;
      [apply bool_decide_eq_true_1 in Hel | apply bool_decide_eq_false_1 in Hel].
    + destruct (audio_now done element a Hel) as [Hnow Hoff].
      destruct (audio_listening done a) eqn:Hon; cbn [andb fst snd].
      * (* the listener is attached: it registers the audio and resolves *)
        assert (Hreg : forall l line g0,
                  loadedSprites (log_if_enabled l line g0) = loadedSprites g0
                  /\ loadedAudios (log_if_enabled l line g0) = loadedAudios g0).
        { intros. unfold log_if_enabled. by case_match. }
        destruct (Hreg console_log
                    ("Audio: " +:+ GameAudio.name a +:+ " was sucessfully preloaded")
                    (put_loadedAudios
                       (<[GameAudio.name a := a]> (loadedAudios g1)) g1))
          as [-> ->]. cbn.
        unfold settle. rewrite Hst, (audio_waiting done a Hon).
        rewrite Ha1, Hl1. cbn [fmap list_fmap].
        rewrite !insert_app_r_alt by (rewrite length_fmap; lia).
        rewrite !length_fmap, Nat.sub_diag. cbn. rewrite Hnow, Hoff.
        repeat split; try done.
        -- intros a' Hin' Hn. apply named_in_insert; auto.
        -- intros a' [Hin'|Hin']%elem_of_app Hel'.
           ++ apply named_in_insert; auto.
           ++ apply list_elem_of_singleton in Hin' as ->. by apply named_in_new.
      * (* the listener was called before: nothing happens *)
        destruct (audio_fired done a Hon) as [Hdone Hful].
        rewrite Ha1, Hl1. cbn [fmap list_fmap]. rewrite Hnow, Hoff, Hful, Hon.
        repeat split; try done.
        intros a' [Hin'|Hin']%elem_of_app Hel'; [by apply Hpre1|].
        apply list_elem_of_singleton in Hin' as ->.
        apply Hkeep1; [done|]. by apply Hnamed.
    + destruct (audio_other done element a Hel) as [-> ->].
      cbn [andb fst snd]. rewrite Ha1, Hl1. cbn [fmap list_fmap].
      repeat split; try done.
      intros a' [Hin'|Hin']%elem_of_app Hel'; [by apply Hpre1|].
      apply list_elem_of_singleton in Hin' as ->. done.
Qed.

(** An audio element can play through. *)
Lemma ready_inv_AudioCanPlayThrough (done : list Signal) (w : Waits) (g : Game.t)
    (element : nat) :
  ready_inv done w g ->
  let r := deliver sprites audios (w, g) (AudioCanPlayThrough element) in
  ready_inv (done ++ [AudioCanPlayThrough element]) r.1 r.2.
Proof.
  intros [Hs Ha Hl Hsn Han]. cbv zeta. unfold deliver.
  destruct (canplaythrough_listeners done element audios [] w g)
    as (Hs1 & Ha1 & Hl1 & Hsp1 & Hkeep1 & Hpre1);
    rewrite ?app_nil_r; try done.
  destruct (foldl (on_canplaythrough element) (w, g)
              (imap (fun j a => (j, a)) audios)) as [w1 g1].
  cbn [fst snd] in *. rewrite app_nil_r in Ha1, Hl1.
  assert (Hsprite : forall s,
            ImageLoad (GameSprite.element s) ∈ done ++ [AudioCanPlayThrough element]
            <-> ImageLoad (GameSprite.element s) ∈ done)
    by (intros s; by apply status_after_other).
  split; try done.
  - rewrite Hs1, Hs. apply list_fmap_ext. intros i s _. unfold sprite_status.
    apply decide_ext. symmetry. apply Hsprite.
  - intros s Hin Hdone. rewrite Hsp1. apply Hsn; [done|]. by apply Hsprite.
  - intros a Hin Hdone. apply elem_of_app in Hdone as [Hdone|Hnow].
    + apply Hkeep1; [done|]. by apply Han.
    + apply list_elem_of_singleton in Hnow. injection Hnow as Hel.
      by apply Hpre1.
Qed.

(** Where the body of [preload] stands when none of its promises has
    rejected. *)
Definition phase_of (w : Waits) : Phase :=
  if all_fulfilled (spriteLoadPromises w)
  then if all_fulfilled (audioLoadPromises w) then Finished Fulfilled else AwaitAudios
  else AwaitSprites.

(** The phase is one the body can have been in before the promises
    stood as in [w]. *)
Definition phase_behind (ph : Phase) (w : Waits) : Prop :=
  match ph with
  | AwaitSprites => True
  | AwaitAudios => all_fulfilled (spriteLoadPromises w) = true
  | Finished o =>
      o = Fulfilled /\ all_fulfilled (spriteLoadPromises w) = true
      /\ all_fulfilled (audioLoadPromises w) = true
  end.

Lemma first_rejection_none {A} (f : A -> Outcome) (l : list A) :
  (forall a, f a = Fulfilled \/ f a = Pending) -> first_rejection (f <$> l) = None.
Proof.
  intros Hf. induction l as [|a l IH]; [done|]. cbn.
  by destruct (Hf a) as [-> | ->].
Qed.

Lemma all_fulfilled_mono {A} (f f' : A -> Outcome) (l : list A) :
  (forall a, f a = Fulfilled -> f' a = Fulfilled) ->
  all_fulfilled (f <$> l) = true -> all_fulfilled (f' <$> l) = true.
Proof.
  intros Hf. induction l as [|a l IH]; [done|]. cbn.
  intros [Ha Hl]%andb_true_iff. destruct (f a) eqn:E; try done.
  rewrite (Hf a E). cbn. by apply IH.
Qed.

Lemma all_fulfilled_all {A} (f : A -> Outcome) (l : list A) :
  (forall a, a ∈ l -> f a = Fulfilled) -> all_fulfilled (f <$> l) = true.
Proof.
  induction l as [|a l IH]; [done|]. intros Hf. cbn.
  rewrite (Hf a) by (apply elem_of_cons; by left). cbn.
  apply IH. intros b Hb. apply Hf, elem_of_cons. by right.
Qed.

Lemma log_if_enabled_assets (l : LogLevel) (line : string) (g : Game.t) :
  loadedSprites (log_if_enabled l line g) = loadedSprites g
  /\ loadedAudios (log_if_enabled l line g) = loadedAudios g.
Proof. unfold log_if_enabled. by case_match. Qed.

Lemma advance_assets (ph : Phase) (w : Waits) (g : Game.t) :
  loadedSprites (advance ph w g).2 = loadedSprites g
  /\ loadedAudios (advance ph w g).2 = loadedAudios g.
Proof.
  unfold advance, advance_audios.
  repeat case_match; cbn [snd]; try done; apply log_if_enabled_assets.
Qed.

Lemma ready_inv_assets (done : list Signal) (w : Waits) (g g' : Game.t) :
  loadedSprites g' = loadedSprites g -> loadedAudios g' = loadedAudios g ->
  ready_inv done w g -> ready_inv done w g'.
Proof. intros Hs Ha [H1 H2 H3 H4 H5]. split; rewrite ?Hs, ?Ha; done. Qed.

(** With no promise rejected, the body goes on to where the promises
    allow. *)
Lemma advance_ready (done : list Signal) (ph : Phase) (w : Waits) (g : Game.t) :
  ready_inv done w g -> phase_behind ph w ->
  (advance ph w g).1 = phase_of w.
Proof.
  intros [Hs Ha _ _ _] Hph.
  assert (Hns : first_rejection (spriteLoadPromises w) = None).
  { rewrite Hs. apply first_rejection_none. intros s. unfold sprite_status.
    case_decide; auto. }
  assert (Hna : first_rejection (audioLoadPromises w) = None).
  { rewrite Ha. apply first_rejection_none. intros a. unfold audio_status.
    case_decide; auto. }
  unfold advance, advance_audios, phase_of. rewrite Hna.
  destruct ph as [| |o]; cbn in Hph.
  - rewrite Hns. by repeat case_match.
  - rewrite Hph. by case_match.
  - destruct Hph as (-> & -> & ->). done.
Qed.

Lemma phase_of_behind (done done' : list Signal) (w w' : Waits) (g g' : Game.t) :
  ready_inv done w g -> ready_inv done' w' g' ->
  (forall t, t ∈ done -> t ∈ done') ->
  phase_behind (phase_of w) w'.
Proof.
  intros [Hs Ha _ _ _] [Hs' Ha' _ _ _] Hsub.
  assert (Hms : all_fulfilled (spriteLoadPromises w) = true ->
                all_fulfilled (spriteLoadPromises w') = true).
  { rewrite Hs, Hs'. apply all_fulfilled_mono. intros s. unfold sprite_status.
    repeat case_decide; try done. intros _. exfalso. auto. }
  assert (Hma : all_fulfilled (audioLoadPromises w) = true ->
                all_fulfilled (audioLoadPromises w') = true).
  { rewrite Ha, Ha'. apply all_fulfilled_mono. intros a. unfold audio_status.
    repeat case_decide; try done. intros _. exfalso. auto. }
  unfold phase_of.
  destruct (all_fulfilled (spriteLoadPromises w)) eqn:Es; [|done].
  destruct (all_fulfilled (audioLoadPromises w)) eqn:Ea; cbn; auto.
Qed.

(** Before any signal. *)
Lemma ready_inv_start (g : Game.t) :
  ready_inv []
    (mkWaits (replicate (length sprites) Pending) (replicate (length audios) Pending)
       (replicate (length audios) true) (replicate (length audios) true)) g.
Proof.
  assert (Hrep : forall {A B} (b : B) (l : list A),
            replicate (length l) b = (fun _ => b) <$> l).
  { intros A B b l. induction l as [|a l IH]; [done|]. cbn. by rewrite IH. }
  split; cbn.
  - rewrite Hrep. apply list_fmap_ext. intros i s _. unfold sprite_status.
    rewrite decide_False; [done | apply not_elem_of_nil].
  - rewrite Hrep. apply list_fmap_ext. intros i a _. unfold audio_status.
    rewrite decide_False; [done | apply not_elem_of_nil].
  - rewrite Hrep. apply list_fmap_ext. intros i a _. unfold audio_listening.
    rewrite bool_decide_eq_false_2; [done | apply not_elem_of_nil].
  - intros s _ H. by apply not_elem_of_nil in H.
  - intros a _ H. by apply not_elem_of_nil in H.
Qed.

(** Signals of readiness only. *)
Lemma signals_ready (signals : list Signal) :
  forall (done : list Signal) (ph : Phase) (w : Waits) (g : Game.t),
    Forall ready signals -> ready_inv done w g -> ph = phase_of w ->
    let r := foldl (on_signal sprites audios) (ph, w, g) signals in
    r.1.1 = phase_of r.1.2 /\ ready_inv (done ++ signals) r.1.2 r.2.
Proof.
  induction signals as [|s signals IH]; intros done ph w g Hready Hinv Hph; cbv zeta.
  - cbn. by rewrite app_nil_r.
  - apply Forall_cons in Hready as [Hs Hready]. cbn [foldl].
    assert (Hstep : ready_inv (done ++ [s]) (deliver sprites audios (w, g) s).1
                      (deliver sprites audios (w, g) s).2).
    { destruct s as [element|element message|element|element message];
        try done; [by apply ready_inv_ImageLoad|by apply ready_inv_AudioCanPlayThrough]. }
    assert (Hacc : on_signal sprites audios (ph, w, g) s
                   = let '(w1, g1) := deliver sprites audios (w, g) s in
                     let '(ph1, g2) := advance ph w1 g1 in (ph1, w1, g2)) by done.
    rewrite Hacc. clear Hacc.
    destruct (deliver sprites audios (w, g) s) as [w1 g1]. cbn [fst snd] in Hstep.
    pose proof (advance_ready (done ++ [s]) ph w1 g1 Hstep) as Hadv.
    pose proof (advance_assets ph w1 g1) as [Hsp Hau].
    destruct (advance ph w1 g1) as [ph1 g2]. cbn [fst snd] in *.
    replace (done ++ s :: signals) with ((done ++ [s]) ++ signals)
      by by rewrite <- app_assoc.
    apply IH; [done | by eapply ready_inv_assets |].
    apply Hadv. subst ph. eapply phase_of_behind; [exact Hinv | exact Hstep |].
    intros t Ht. apply elem_of_app. by left.
Qed.

End PreloadReady.

Section PreloadResolves.

Lemma preload_body_ready (assets : list Asset) (signals : list Signal)
    (g : Game.t) :
  assets ≠ [] ->
  NoDup (GameSprite.element <$> sprites_of assets) ->
  Forall ready signals ->
  (forall s, s ∈ sprites_of assets -> ImageLoad (GameSprite.element s) ∈ signals) ->
  (forall a, a ∈ audios_of assets ->
     AudioCanPlayThrough (GameAudio.element a) ∈ signals) ->
  let r := preload_body (Normal assets) signals g in
  r.1 = Fulfilled
  /\ (forall s, s ∈ sprites_of assets ->
        named_in GameSprite.name (sprites_of assets) (loadedSprites r.2) s)
  /\ (forall a, a ∈ audios_of assets ->
        named_in GameAudio.name (audios_of assets) (loadedAudios r.2) a).
Proof.
  intros Hne Hdistinct Hready Hsprites Haudios. cbv zeta. unfold preload_body.
  rewrite bool_decide_eq_false_2 by (destruct assets; [done | cbn; lia]).
  set (sprites := sprites_of assets) in *. set (audios := audios_of assets) in *.
  set (g0 := put_currentState GameState.preload g).
  pose proof (ready_inv_start sprites audios g0) as Hstart.
  set (w := mkWaits _ _ _ _) in *.
  pose proof (advance_ready sprites audios [] AwaitSprites w g0 Hstart I) as Hadv.
  pose proof (advance_assets AwaitSprites w g0) as [Hsp Hau].
  destruct (advance AwaitSprites w g0) as [ph g1]. cbn [fst snd] in *.
  assert (Hinv1 : ready_inv sprites audios [] w g1)
    by by eapply ready_inv_assets.
  pose proof (signals_ready sprites audios Hdistinct signals [] ph w g1
                Hready Hinv1 Hadv) as [Hph Hinv].
  cbv zeta in Hph, Hinv. cbn [app] in Hinv.
  destruct (foldl (on_signal sprites audios) (ph, w, g1) signals) as [[ph' w'] g'].
  cbn [fst snd] in *. destruct Hinv as [Hs Ha _ Hsn Han].
  split; [|split].
  - rewrite Hph. unfold phase_of. rewrite Hs, Ha.
    rewrite !all_fulfilled_all; [done | |].
    + intros a Hin. unfold audio_status. rewrite decide_True; auto.
    + intros s Hin. unfold sprite_status. rewrite decide_True; auto.
  - intros s Hin. apply Hsn; auto.
  - intros a Hin. apply Han; auto.
Qed.

(** Every asset becomes ready: [preload] resolves, and every asset is
    in its registry under its name.  The sprites have image elements of
    their own, the browser reports no failure, and a signal of
    readiness comes for each asset, in any order and any number of
    times. *)
Theorem preload_ready_resolves (assets : list Asset) (signals : list Signal)
    (g : Game.t) :
  assets ≠ [] ->
  NoDup (GameSprite.element <$> sprites_of assets) ->
  Forall ready signals ->
  (forall s, s ∈ sprites_of assets -> ImageLoad (GameSprite.element s) ∈ signals) ->
  (forall a, a ∈ audios_of assets ->
     AudioCanPlayThrough (GameAudio.element a) ∈ signals) ->
  let r := preload_body (Normal assets) signals g in
  r.1 = Fulfilled
  /\ (forall s, s ∈ sprites_of assets ->
        named_in GameSprite.name (sprites_of assets) (loadedSprites r.2) s)
  /\ (forall a, a ∈ audios_of assets ->
        named_in GameAudio.name (audios_of assets) (loadedAudios r.2) a).
Proof. apply preload_body_ready. Qed.

Definition hero_coin_theme : list Asset :=
  [AssetSprite (sprite_on "hero" 1); AssetAudio (GameAudio.mk "theme" "./theme.ogg" 3);
   AssetSprite (sprite_on "coin" 2)].

Lemma preload_ready_resolves_witness :
  let r := preload_body (Normal hero_coin_theme)
             [AudioCanPlayThrough 3; ImageLoad 2; ImageLoad 1; AudioCanPlayThrough 3]
             (constructed 320 240 true) in
  r.1 = Fulfilled
  /\ (forall s, s ∈ sprites_of hero_coin_theme ->
        named_in GameSprite.name (sprites_of hero_coin_theme) (loadedSprites r.2) s)
  /\ (forall a, a ∈ audios_of hero_coin_theme ->
        named_in GameAudio.name (audios_of hero_coin_theme) (loadedAudios r.2) a).
Proof.
  apply (preload_ready_resolves hero_coin_theme
           [AudioCanPlayThrough 3; ImageLoad 2; ImageLoad 1; AudioCanPlayThrough 3]
           (constructed 320 240 true)).
  - discriminate.
  - cbn. repeat constructor; rewrite ?elem_of_cons, ?elem_of_nil; intuition lia.
  - repeat constructor.
  - cbn. intros s Hs. repeat (apply elem_of_cons in Hs as [-> | Hs]).
    + cbn. rewrite !elem_of_cons. auto.
    + cbn. rewrite !elem_of_cons. auto.
    + by apply elem_of_nil in Hs.
  - cbn. intros a Ha. repeat (apply elem_of_cons in Ha as [-> | Ha]).
    + cbn. rewrite !elem_of_cons. auto.
    + by apply elem_of_nil in Ha.
Defined.

End PreloadResolves.

(** * Numbers that are not finite *)

Module Double.

(** A number of the page: NaN, an infinity, or a finite value.  The
    rounding of finite values and the sign of a zero are not modelled;
    neither shows in [Math.abs], [<], [>=] or a product by 0. *)
Inductive t :=
| NaN
| Infinity
| NegativeInfinity
| Finite (q : number).

(** [Math.abs(x)] *)
Definition abs (x : t) : t :=
  match x with
  | NaN => NaN
  | Infinity | NegativeInfinity => Infinity
  | Finite q => Finite (Qabs q)
  end.

(** [a < b]: false when either is NaN. *)
Definition lt (a b : t) : bool :=
  match a, b with
  | NaN, _ | _, NaN => false
  | Infinity, _ => false
  | _, NegativeInfinity => false
  | NegativeInfinity, _ => true
  | Finite _, Infinity => true
  | Finite p, Finite q => negb (Qle_bool q p)
  end.

(** [a >= b]: false when either is NaN. *)
Definition gte (a b : t) : bool :=
  match a, b with
  | NaN, _ | _, NaN => false
  | Infinity, _ => true
  | _, NegativeInfinity => true
  | NegativeInfinity, _ => false
  | Finite _, Infinity => false
  | Finite p, Finite q => Qle_bool q p
  end.



End Double.

(** * Leaving the screen *)

Section Outbound.

Lemma zero_bound (a b : number) : (0 * a * b == 0)%Q.
Proof. by rewrite !Qmult_0_l. Qed.

Lemma lt_spec (a b : number) : lt a b = true <-> (a < b)%Q.
Proof.
  unfold lt. rewrite negb_true_iff. split.
  - intros H. apply Qnot_le_lt. intros Hle. apply Qle_bool_iff in Hle. congruence.
  - intros H. destruct (Qle_bool b a) eqn:E; [|done].
    apply Qle_bool_iff in E. by apply Qle_not_lt in E.
Qed.

Lemma gt_spec (a b : number) : gt a b = true <-> (b < a)%Q.
Proof. apply lt_spec. Qed.

(** The test of [outbound] is: right of the screen width times the
    threshold, below the screen height times the threshold, or wholly
    left of 0 or above 0. *)
Lemma outbound_test_spec (targetObject : GameObject.t) (screenThreshold : number)
    (g : Game.t) :
  let posX := Vector2.x (GameObject.pos targetObject) in
  let posY := Vector2.y (GameObject.pos targetObject) in
  let sizeX := Vector2.x (GameObject.size targetObject) in
  let sizeY := Vector2.y (GameObject.size targetObject) in
  outbound_test targetObject screenThreshold g = true
  <-> (width g * screenThreshold < posX)%Q \/ (posX + sizeX * scale g < 0)%Q
      \/ (height g * screenThreshold < posY)%Q \/ (posY + sizeY * scale g < 0)%Q.
Proof.
  cbv zeta. unfold outbound_test.
  rewrite !orb_true_iff, !gt_spec, !lt_spec, !zero_bound. tauto.
Qed.

(** An entity of non-negative size that stands inside the screen is not
    reported by [outbound], whatever the threshold from 1 up: neither
    the callback runs nor is the game paused. *)
Theorem outbound_inside_screen_is_silent (targetObject : GameObject.t)
    (screenThreshold : number) (callbackFn k : Script) (g : Game.t) :
  reachable g ->
  (1 <= screenThreshold)%Q ->
  (0 <= Vector2.x (GameObject.pos targetObject) <= get_width g)%Q ->
  (0 <= Vector2.y (GameObject.pos targetObject) <= get_height g)%Q ->
  (0 <= Vector2.x (GameObject.size targetObject))%Q ->
  (0 <= Vector2.y (GameObject.size targetObject))%Q ->
  run (OutboundWith targetObject screenThreshold callbackFn k) g = run k g
  /\ run (Outbound targetObject screenThreshold k) g = run k g.
Proof.
  unfold get_width, get_height.
  intros Hreach Hth [Hx0 Hx1] [Hy0 Hy1] Hsx Hsy.
  apply reachable_invariant in Hreach as [Hw Hh Hs _ _ _ _ _].
  assert (Hin : outbound_test targetObject screenThreshold g = false).
  { apply not_true_is_false. rewrite outbound_test_spec.
    assert (Hgrow : forall a, (0 <= a)%Q -> (a <= a * screenThreshold)%Q).
    { intros a Ha. rewrite <- (Qmult_1_r a) at 1.
      rewrite !(Qmult_comm a). by apply Qmult_le_compat_r. }
    assert (Hpos : forall p s, (0 <= p)%Q -> (0 <= s)%Q -> (0 <= p + s * scale g)%Q).
    { intros p s Hp Hs'. rewrite <- (Qplus_0_r 0).
      apply Qplus_le_compat; [done | by apply Qmult_le_0_compat]. }
    intros [H|[H|[H|H]]]; revert H; apply Qle_not_lt.
    - eapply Qle_trans; [exact Hx1 | by apply Hgrow].
    - by apply Hpos.
    - eapply Qle_trans; [exact Hy1 | by apply Hgrow].
    - by apply Hpos. }
  cbn [run]. by rewrite Hin.
Qed.

Lemma outbound_inside_screen_is_silent_witness :
  run (OutboundWith (boxed "a" 300 200 0 0 10 10) 2 (Raise "gone") Return) updating
  = run Return updating
  /\ run (Outbound (boxed "a" 300 200 0 0 10 10) 2 Return) updating
     = run Return updating.
Proof.
  apply (outbound_inside_screen_is_silent (boxed "a" 300 200 0 0 10 10) 2
           (Raise "gone") Return updating).
  - do 2 apply reachable_step. by apply (reachable_new 320 240 true).
  - done.
  - split; discriminate.
  - split; discriminate.
  - discriminate.
  - discriminate.
Defined.




End Outbound.

(** * The whole chain

    What the bodies of [preload] and [load] write, whatever the relation
    that is to be kept, and the chain of the three stages when nothing
    fails. *)

Section StageWrites.

Variable R : Game.t -> Game.t -> Prop.
Hypothesis R_refl : forall g, R g g.
Hypothesis R_trans : forall g1 g2 g3, R g1 g2 -> R g2 g3 -> R g1 g3.
Hypothesis R_console : forall l line g, R g (console_write l line g).
Hypothesis R_state : forall s g, R g (put_currentState s g).

Lemma log_if_enabled_writes l line g : R g (log_if_enabled l line g).
Proof. unfold log_if_enabled. case_match; auto. Qed.

Section PreloadWrites.

Hypothesis R_sprites : forall m g, R g (put_loadedSprites m g).
Hypothesis R_audios : forall m g, R g (put_loadedAudios m g).

Lemma deliver_writes sprites audios w g s :
  R g (deliver sprites audios (w, g) s).2.
Proof.
  unfold deliver. destruct s as [el | el msg | el | el msg]; try done.
  - destruct (installed_handler sprites el) as [[i sprite]|]; [|done]. cbn [snd].
    eapply R_trans; [| apply log_if_enabled_writes]. apply R_sprites.
  - by destruct (installed_handler sprites el) as [[i sprite]|].
  - generalize (imap (fun j a => (j, a)) audios) as l. intros l.
    revert w g. induction l as [|[j audio] l IH]; intros w g; [done|].
    cbn [foldl]. unfold on_canplaythrough at 2.
    case_match; [| apply IH].
    eapply R_trans; [| apply IH].
    eapply R_trans; [| apply log_if_enabled_writes]. apply R_audios.
Qed.

Lemma advance_writes ph w g : R g (advance ph w g).2.
Proof.
  unfold advance, advance_audios.
  repeat case_match; cbn [snd]; try done; apply log_if_enabled_writes.
Qed.

Lemma preload_body_writes callbackFn signals g :
  R g (preload_body callbackFn signals g).2.
Proof.
  unfold preload_body.
  destruct callbackFn as [assets|err]; [| apply R_state].
  case_bool_decide; [apply R_state|].
  set (sprites := sprites_of assets). set (audios := audios_of assets).
  set (w := mkWaits _ _ _ _).
  pose proof (advance_writes AwaitSprites w
                (put_currentState GameState.preload g)) as Ha.
  destruct (advance AwaitSprites w _) as [ph g1]. cbn [snd] in Ha.
  assert (Hfold : forall l ph w g,
            R g (foldl (on_signal sprites audios) (ph, w, g) l).2).
  { clear Ha. intros l. induction l as [|s l IH]; intros ph0 w0 g0; [done|].
    cbn [foldl]. unfold on_signal at 2.
    pose proof (deliver_writes sprites audios w0 g0 s) as Hd.
    destruct (deliver sprites audios (w0, g0) s) as [w1 g2]. cbn [snd] in Hd.
    pose proof (advance_writes ph0 w1 g2) as Hadv.
    destruct (advance ph0 w1 g2) as [ph1 g3]. cbn [snd] in Hadv.
    eapply R_trans; [| apply IH]. eapply R_trans; eassumption. }
  specialize (Hfold signals ph w g1).
  destruct (foldl (on_signal sprites audios) (ph, w, g1) signals) as [[ph2 w2] g2].
  cbn [snd] in *.
  eapply R_trans; [apply (R_state GameState.preload)|].
  eapply R_trans; eassumption.
Qed.

End PreloadWrites.

Section LoadWrites.

Hypothesis R_objects : forall m g, R g (put_loadedGameObjects m g).
Hypothesis R_maps : forall m g, R g (put_loadedGameMaps m g).
Hypothesis R_cameras : forall m g, R g (put_loadedGameCameras m g).

Lemma run_load_writes s g : R g (run_load s g).2.
Proof.
  revert g. induction s as [objects | err | k IH | name k IH | name k IH];
    intros g; cbn [run_load]; try done.
  - eapply R_trans; [| apply IH]. case_match; [|done].
    eapply R_trans; apply R_console.
  - eapply R_trans; [| apply IH]. case_match; [apply R_console | done].
  - eapply R_trans; [| apply IH]. case_match; [apply R_console | done].
Qed.

Lemma foldl_writes {X} (f : Game.t -> X -> Game.t) (l : list X) (g : Game.t) :
  (forall g x, R g (f g x)) -> R g (foldl f g l).
Proof.
  intros Hf. revert g. induction l as [|x l IH]; intros g; [done|].
  cbn [foldl]. eapply R_trans; [apply Hf | apply IH].
Qed.

Lemma load_body_writes callbackFn g : R g (load_body callbackFn g).2.
Proof.
  unfold load_body.
  eapply R_trans; [apply (R_state GameState.load)|].
  pose proof (run_load_writes callbackFn (put_currentState GameState.load g))
    as Hrun.
  destruct (run_load callbackFn _) as [[objects|err] g1]; cbn [snd] in *;
    [| exact Hrun].
  eapply R_trans; [exact Hrun|].
  eapply R_trans; [| apply log_if_enabled_writes].
  eapply R_trans; [| apply foldl_writes; intros; apply R_cameras].
  eapply R_trans; [| apply foldl_writes; intros; apply R_maps].
  apply foldl_writes; intros; apply R_objects.
Qed.

End LoadWrites.

End StageWrites.

Section WholeChain.

(** The requests for animation frames are as they were. *)
Definition same_requests (g g' : Game.t) : Prop :=
  animationFrames g' = animationFrames g /\ nextFrameId g' = nextFrameId g.

(** The registries of assets are as they were. *)
Definition same_assets (g g' : Game.t) : Prop :=
  loadedSprites g' = loadedSprites g /\ loadedAudios g' = loadedAudios g.

Lemma preload_body_same_requests callbackFn signals g :
  same_requests g (preload_body callbackFn signals g).2.
Proof.
  apply (preload_body_writes same_requests); unfold same_requests; try done.
  intros g1 g2 g3 [] []. split; congruence.
Qed.

Lemma load_body_same_requests callbackFn g :
  same_requests g (load_body callbackFn g).2.
Proof.
  apply (load_body_writes same_requests); unfold same_requests; try done.
  intros g1 g2 g3 [] []. split; congruence.
Qed.

Lemma load_body_same_assets callbackFn g :
  same_assets g (load_body callbackFn g).2.
Proof.
  apply (load_body_writes same_assets); unfold same_assets; try done.
  intros g1 g2 g3 [] []. split; congruence.
Qed.

(** The reaction of a [then] link whose promise is fulfilled. *)
Lemma settle_link_then (i p : nat) (body : Stage) (signals : list Signal)
    (g : Game.t) :
  promises g !! i = Some (Link.mk p (Then body) Registered) ->
  outcome_of p g = Some Fulfilled ->
  settle_link i signals g
  = put_link_state i (Called (run_stage body signals g).1)
      (run_stage body signals g).2.
Proof.
  intros Hi Hp. unfold settle_link. rewrite Hi. cbn. rewrite Hp.
  by destruct (run_stage body signals g).
Qed.

(** The engine of a page that chains the three stages on a new engine,
    when the reactions of the chain have run in order and the browser
    has sent [signals] for the assets. *)
Definition chained (width height : number) (context : bool) (assets : list Asset)
    (signals : list Signal) (load_producer : LoadScript) (callbackFn : Callback)
    : Game.t :=
  steps [CallPreload (Normal assets); CallLoad load_producer; CallUpdate callbackFn;
         SettleLink 0 []; SettleLink 1 signals; SettleLink 2 []; SettleLink 3 []]
    (constructed width height context).

(** When every asset becomes ready and the producer of [load] does not
    throw, the chain gets to the frame loop: the engine is in the state
    [update] and running, one animation frame is requested, for the
    callback of [update], and every asset is in its registry. *)
Theorem chain_reaches_update (width height : number) (context : bool)
    (assets : list Asset) (signals : list Signal) (load_producer : LoadScript)
    (callbackFn : Callback) :
  assets ≠ [] ->
  NoDup (GameSprite.element <$> sprites_of assets) ->
  Forall ready signals ->
  (forall s, s ∈ sprites_of assets -> ImageLoad (GameSprite.element s) ∈ signals) ->
  (forall a, a ∈ audios_of assets ->
     AudioCanPlayThrough (GameAudio.element a) ∈ signals) ->
  (forall g, exists objects, (run_load load_producer g).1 = Normal objects) ->
  let g := chained width height context assets signals load_producer callbackFn in
  currentState g = GameState.update
  /\ get_isRunning g = true
  /\ animationFrames g = [(1, callbackFn)]
  /\ (forall s, s ∈ sprites_of assets ->
        named_in GameSprite.name (sprites_of assets) (loadedSprites g) s)
  /\ (forall a, a ∈ audios_of assets ->
        named_in GameAudio.name (audios_of assets) (loadedAudios g) a).
Proof.
  intros Hne Hdistinct Hready Hsprites Haudios Hload. cbv zeta.
  unfold chained, steps. cbn [foldl].
  set (g3 := step (CallUpdate callbackFn) _).
  assert (Hp3 : promises g3
                = [Link.mk 0 Catch Registered;
                   Link.mk 0 (Then (PreloadStage (Normal assets))) Registered;
                   Link.mk 2 (Then (LoadStage load_producer)) Registered;
                   Link.mk 3 (Then (UpdateStage callbackFn)) Registered])
    by reflexivity.
  assert (Hf3 : animationFrames g3 = [] /\ nextFrameId g3 = 1) by done.
  clearbody g3.
  (* the handler of the constructor *)
  set (g4 := step (SettleLink 0 []) g3).
  assert (Hp4 : promises g4
                = [Link.mk 0 Catch (PassedThrough Fulfilled);
                   Link.mk 0 (Then (PreloadStage (Normal assets))) Registered;
                   Link.mk 2 (Then (LoadStage load_producer)) Registered;
                   Link.mk 3 (Then (UpdateStage callbackFn)) Registered]).
  { subst g4. cbn [step]. unfold settle_link. rewrite Hp3. cbn. by rewrite Hp3. }
  assert (Hf4 : animationFrames g4 = [] /\ nextFrameId g4 = 1).
  { subst g4. cbn [step]. unfold settle_link. rewrite Hp3. cbn. done. }
  clearbody g4. clear Hp3 Hf3 g3.
  (* preload *)
  set (g5 := step (SettleLink 1 signals) g4).
  assert (H5 : promises g5
               = [Link.mk 0 Catch (PassedThrough Fulfilled);
                  Link.mk 0 (Then (PreloadStage (Normal assets))) (Called Fulfilled);
                  Link.mk 2 (Then (LoadStage load_producer)) Registered;
                  Link.mk 3 (Then (UpdateStage callbackFn)) Registered]
               /\ (animationFrames g5 = [] /\ nextFrameId g5 = 1)
               /\ (forall s, s ∈ sprites_of assets ->
                     named_in GameSprite.name (sprites_of assets) (loadedSprites g5) s)
               /\ (forall a, a ∈ audios_of assets ->
                     named_in GameAudio.name (audios_of assets) (loadedAudios g5) a)).
  { subst g5. cbn [step].
    rewrite (settle_link_then 1 0 (PreloadStage (Normal assets)))
      by (by rewrite ?Hp4).
    cbn [run_stage].
    destruct (preload_body_ready assets signals g4 Hne Hdistinct Hready Hsprites
                Haudios) as (Ho & Hs & Ha).
    pose proof (preload_body_user_frame (Normal assets) signals g4) as [].
    destruct (preload_body_same_requests (Normal assets) signals g4) as [Hfr Hnx].
    destruct (preload_body (Normal assets) signals g4) as [o g']. cbn [fst snd] in *.
    subst o. unfold put_link_state. cbn.
    rewrite frame_promises0, Hp4, Hfr, Hnx. done. }
  clearbody g5. clear Hp4 Hf4 g4. destruct H5 as (Hp5 & Hf5 & Hs5 & Ha5).
  (* load *)
  set (g6 := step (SettleLink 2 []) g5).
  assert (H6 : promises g6
               = [Link.mk 0 Catch (PassedThrough Fulfilled);
                  Link.mk 0 (Then (PreloadStage (Normal assets))) (Called Fulfilled);
                  Link.mk 2 (Then (LoadStage load_producer)) (Called Fulfilled);
                  Link.mk 3 (Then (UpdateStage callbackFn)) Registered]
               /\ (animationFrames g6 = [] /\ nextFrameId g6 = 1)
               /\ loadedSprites g6 = loadedSprites g5
               /\ loadedAudios g6 = loadedAudios g5).
  { subst g6. cbn [step].
    rewrite (settle_link_then 2 2 (LoadStage load_producer))
      by (by rewrite ?Hp5; unfold outcome_of; rewrite ?Hp5).
    cbn [run_stage].
    assert (Ho : (load_body load_producer g5).1 = Fulfilled).
    { unfold load_body.
      destruct (Hload (put_currentState GameState.load g5)) as [objects Hobjects].
      destruct (run_load load_producer _) as [[objects'|err] g']; [done|].
      discriminate Hobjects. }
    pose proof (load_body_user_frame load_producer g5) as [].
    destruct (load_body_same_requests load_producer g5) as [Hfr Hnx].
    destruct (load_body_same_assets load_producer g5) as [Hsp Hau].
    destruct (load_body load_producer g5) as [o g']. cbn [fst snd] in *.
    subst o. unfold put_link_state. cbn.
    rewrite frame_promises0, Hp5, Hfr, Hnx. done. }
  clearbody g6. destruct H6 as (Hp6 & [Hfr6 Hnx6] & Hsp6 & Hau6).
  rewrite <- Hsp6 in Hs5. rewrite <- Hau6 in Ha5.
  clear Hp5 Hf5 Hsp6 Hau6 g5.
  (* update *)
  cbn [step].
  rewrite (settle_link_then 3 3 (UpdateStage callbackFn))
    by (by rewrite ?Hp6; unfold outcome_of; rewrite ?Hp6).
  cbn [run_stage]. unfold update_body, get_isRunning, put_link_state.
  cbn [fst snd]. unfold log_if_enabled, requestAnimationFrame, console_write.
  destruct (logsEnabled _); cbn; rewrite Hfr6, Hnx6; done.
Qed.

Lemma chain_reaches_update_witness :
  let g :=
    chained 320 240 true hero_coin_theme
      [AudioCanPlayThrough 3; ImageLoad 2; ImageLoad 1] two_heroes (fun _ => Return) in
  currentState g = GameState.update
  /\ get_isRunning g = true
  /\ animationFrames g = [(1, fun _ => Return)]
  /\ (forall s, s ∈ sprites_of hero_coin_theme ->
        named_in GameSprite.name (sprites_of hero_coin_theme) (loadedSprites g) s)
  /\ (forall a, a ∈ audios_of hero_coin_theme ->
        named_in GameAudio.name (audios_of hero_coin_theme) (loadedAudios g) a).
Proof.
  apply (chain_reaches_update 320 240 true hero_coin_theme
           [AudioCanPlayThrough 3; ImageLoad 2; ImageLoad 1] two_heroes
           (fun _ => Return)).
  - discriminate.
  - cbn. repeat constructor; rewrite ?elem_of_cons, ?elem_of_nil; intuition lia.
  - repeat constructor.
  - cbn. intros s Hs. repeat (apply elem_of_cons in Hs as [-> | Hs]).
    + cbn. rewrite !elem_of_cons. auto.
    + cbn. rewrite !elem_of_cons. auto.
    + by apply elem_of_nil in Hs.
  - cbn. intros a Ha. repeat (apply elem_of_cons in Ha as [-> | Ha]).
    + cbn. rewrite !elem_of_cons. auto.
    + by apply elem_of_nil in Ha.
  - intros g. eexists. reflexivity.
Defined.

(** The frame loop is as it was. *)
Definition same_loop (g g' : Game.t) : Prop :=
  updateIsRunning g' = updateIsRunning g /\ updateLoopLogic g' = updateLoopLogic g.

Lemma preload_body_same_loop callbackFn signals g :
  same_loop g (preload_body callbackFn signals g).2.
Proof.
  apply (preload_body_writes same_loop); unfold same_loop; try done.
  intros g1 g2 g3 [] []. split; congruence.
Qed.

(** The reaction of a [then] link whose promise is rejected: the
    rejection is passed on and the callback is not called. *)
Lemma settle_link_rejected (i p : nat) (body : Stage) (r : string)
    (signals : list Signal) (g : Game.t) :
  promises g !! i = Some (Link.mk p (Then body) Registered) ->
  outcome_of p g = Some (Rejected r) ->
  settle_link i signals g = put_link_state i (PassedThrough (Rejected r)) g.
Proof. intros Hi Hp. unfold settle_link. rewrite Hi. cbn. by rewrite Hp. Qed.

(** The engine of a page that chains the three stages on a new engine,
    when the handler of the constructor has had its turn and the
    reaction of [preload] is the next to run. *)
Definition chained_before_preload (width height : number) (context : bool)
    (producer : Completion (list Asset)) (load_producer : LoadScript)
    (callbackFn : Callback) : Game.t :=
  steps [CallPreload producer; CallLoad load_producer; CallUpdate callbackFn;
         SettleLink 0 []]
    (constructed width height context).

(** When the body of [preload] rejects, [load] and [update] are
    skipped.  Whatever the producers of [load] and [update] are, once
    the reactions of the chain have run the engine is the one the body
    of [preload] left, but for the states of the links: the promise at
    the end of the chain is rejected with the reason of [preload], the
    lifecycle state is still [preload], the loop is not running and has
    no callback, no animation frame is requested, and the registries of
    entities, maps and cameras are empty. *)
Theorem rejected_preload_skips_load_and_update (width height : number)
    (context : bool) (producer : Completion (list Asset)) (signals later later' : list Signal)
    (load_producer : LoadScript) (callbackFn : Callback) (r : string) :
  let g3 :=
    chained_before_preload width height context producer load_producer callbackFn in
  (preload_body producer signals g3).1 = Rejected r ->
  let g := steps [SettleLink 1 signals; SettleLink 2 later; SettleLink 3 later'] g3 in
  g = put_promises
        [Link.mk 0 Catch (PassedThrough Fulfilled);
         Link.mk 0 (Then (PreloadStage producer)) (Called (Rejected r));
         Link.mk 2 (Then (LoadStage load_producer)) (PassedThrough (Rejected r));
         Link.mk 3 (Then (UpdateStage callbackFn)) (PassedThrough (Rejected r))]
        (preload_body producer signals g3).2
  /\ outcome_of (lifecyclePromise g) g = Some (Rejected r)
  /\ currentState g = GameState.preload
  /\ get_isRunning g = false
  /\ updateLoopLogic g = None
  /\ animationFrames g = []
  /\ loadedGameObjects g = ∅ /\ loadedGameMaps g = ∅ /\ loadedGameCameras g = ∅.
Proof.
  cbv zeta. intros Hrejected.
  set (g3 := chained_before_preload _ _ _ _ _ _) in *.
  assert (Hp3 : promises g3
                = [Link.mk 0 Catch (PassedThrough Fulfilled);
                   Link.mk 0 (Then (PreloadStage producer)) Registered;
                   Link.mk 2 (Then (LoadStage load_producer)) Registered;
                   Link.mk 3 (Then (UpdateStage callbackFn)) Registered])
    by reflexivity.
  assert (H3 : lifecyclePromise g3 = 4 /\ updateIsRunning g3 = false
               /\ updateLoopLogic g3 = None /\ animationFrames g3 = []
               /\ loadedGameObjects g3 = ∅ /\ loadedGameMaps g3 = ∅
               /\ loadedGameCameras g3 = ∅) by done.
  clearbody g3. destruct H3 as (Hl3 & Hr3 & Hu3 & Hf3 & Ho3 & Hm3 & Hc3).
  unfold steps. cbn [foldl step].
  rewrite (settle_link_then 1 0 (PreloadStage producer)) by (by rewrite ?Hp3).
  cbn [run_stage]. rewrite Hrejected.
  pose proof (preload_body_user_frame producer signals g3) as [].
  destruct (preload_body_same_requests producer signals g3) as [Hfr _].
  destruct (preload_body_same_loop producer signals g3) as [Hrun Hloop].
  destruct (preload_body_registries producer signals g3)
    as (Hstate & Hobjects & Hmaps & Hcameras & _ & _).
  cbv zeta in *.
  set (g4 := (preload_body producer signals g3).2) in *. clearbody g4.
  rewrite (settle_link_rejected 2 2 (LoadStage load_producer) r)
    by (unfold put_link_state, outcome_of; cbn; by rewrite frame_promises0, Hp3).
  rewrite (settle_link_rejected 3 3 (UpdateStage callbackFn) r)
    by (unfold put_link_state, outcome_of; cbn; by rewrite frame_promises0, Hp3).
  unfold put_link_state, get_isRunning. cbn.
  rewrite frame_promises0, Hp3, frame_lifecyclePromise0, Hl3. cbn.
  rewrite Hstate, Hrun, Hr3, Hloop, Hu3, Hfr, Hf3, Hobjects, Ho3, Hmaps, Hm3,
    Hcameras, Hc3.
  done.
Qed.

Lemma rejected_preload_skips_load_and_update_witness :
  let producer :=
    Normal [AssetSprite (sprite_on "hero" 1); AssetSprite (sprite_on "coin" 2)] in
  let g3 :=
    chained_before_preload 320 240 true producer two_heroes keep_deltaTime in
  let r := "Error loading the sprite 'coin': 404" in
  let g :=
    steps [SettleLink 1 [ImageLoad 1; ImageError 2 "404"]; SettleLink 2 [];
           SettleLink 3 []] g3 in
  g = put_promises
        [Link.mk 0 Catch (PassedThrough Fulfilled);
         Link.mk 0 (Then (PreloadStage producer)) (Called (Rejected r));
         Link.mk 2 (Then (LoadStage two_heroes)) (PassedThrough (Rejected r));
         Link.mk 3 (Then (UpdateStage keep_deltaTime)) (PassedThrough (Rejected r))]
        (preload_body producer [ImageLoad 1; ImageError 2 "404"] g3).2
  /\ outcome_of (lifecyclePromise g) g = Some (Rejected r)
  /\ currentState g = GameState.preload
  /\ get_isRunning g = false
  /\ updateLoopLogic g = None
  /\ animationFrames g = []
  /\ loadedGameObjects g = ∅ /\ loadedGameMaps g = ∅ /\ loadedGameCameras g = ∅.
Proof.
  apply (rejected_preload_skips_load_and_update 320 240 true
           (Normal [AssetSprite (sprite_on "hero" 1); AssetSprite (sprite_on "coin" 2)])
           [ImageLoad 1; ImageError 2 "404"] [] [] two_heroes keep_deltaTime
           "Error loading the sprite 'coin': 404").
  vm_compute. reflexivity.
Defined.

End WholeChain.

(** * Sizes that are not finite numbers

    The width and height handed to the constructor and the value
    assigned to [scale] are JavaScript numbers: NaN and the infinities
    are among them, and [Math.abs(NaN)] is NaN.  The engine above holds
    finite sizes; this part has the constructor and the setter on every
    number, and shows that the engine does to its sizes what they do. *)

Module Sizes.

(** The fields [#width], [#height] and [#scale] of an engine, as the
    numbers the source stores. *)
Record t := mk { width : Double.t; height : Double.t; scale : Double.t }.

Definition NegativeValues : string :=
  "Game constructor: Negative values converted into positive.".

(** The sizes that [new Game(width, height, appendToElement)] leaves:
    [Math.abs] of the two it is given, and the initial value of
    [#scale]. *)
Definition constructed (width height : Double.t) : t :=
  mk (Double.abs width) (Double.abs height) (Double.Finite 1).

(** What the constructor does about the sizes: the lines it writes to
    the console, and the sizes it leaves or the error it throws.
    [isHTMLElement] is [appendToElement instanceof HTMLElement].  The
    warning is written through [GameLogger.out]; as in
    [Game.GameLogger_out] the line is the message, and the logger is
    called from the constructor, a caller outside of it. *)
Definition constructor (width height : Double.t) (isHTMLElement : bool)
    : Console * Completion t :=
  let lines :=
    if Double.lt width (Double.Finite 0) || Double.lt height (Double.Finite 0)
    then [(console_warn, NegativeValues)]
    else [] in
  if negb isHTMLElement
  then (lines,
        Throw "Game constructor: A Game should be appended to a working HTMLElement.")
  else (lines, Normal (constructed width height)).

(** [game.scale = scaleValue] *)
Definition set_scale (scaleValue : Double.t) (s : t) : t :=
  mk (width s) (height s) (Double.abs scaleValue).

(** The sizes of an engine made with [width] and [height] after the
    assignments [scales] to its scale. *)
Definition run (width height : Double.t) (scales : list Double.t) : t :=
  foldl (fun s scaleValue => set_scale scaleValue s) (constructed width height) scales.

End Sizes.

Section SizesOfTheEngine.



































End SizesOfTheEngine.

(** * The logger

    [GameLogger] is a class of static members: the page has one logger.
    The engine hands it the sets it records reported ids in
    ([useLogs]), and writes to the console through [out]. *)

Module GameLogger.

(** An entry of the tables [errors] and [exceptions] of [game_logs]; the
    ids of the tables are integers. *)
Record LoggerLogType := mkLog { id : Z; title : string; message : string }.

(** The static fields of the class, with the [Set] objects of the page
    ([sets], by reference: a store is a reference to a set that its
    owner goes on using) and the console. *)
Record t := mk {
  storedErrors : option nat;
  storedExceptions : option nat;
  errors : list LoggerLogType;
  exceptions : list LoggerLogType;
  sets : gmap nat (gset Z);
  console : Console
}.

Definition put_storedErrors (v : option nat) (st : t) : t :=
  mk v (storedExceptions st) (errors st) (exceptions st) (sets st) (console st).

Definition put_storedExceptions (v : option nat) (st : t) : t :=
  mk (storedErrors st) v (errors st) (exceptions st) (sets st) (console st).

Definition put_sets (v : gmap nat (gset Z)) (st : t) : t :=
  mk (storedErrors st) (storedExceptions st) (errors st) (exceptions st) v (console st).

Definition write (l : LogLevel) (line : string) (st : t) : t :=
  mk (storedErrors st) (storedExceptions st) (errors st) (exceptions st) (sets st)
    ((l, line) :: console st).

(** [set.has(i)] and [set.add(i)] on the set a store refers to. *)
Definition set_has (store : nat) (i : Z) (st : t) : bool :=
  bool_decide (i ∈ default ∅ (sets st !! store)).

Definition set_add (store : nat) (i : Z) (st : t) : t :=
  put_sets (<[store := {[i]} ∪ default ∅ (sets st !! store)]> (sets st)) st.

Definition newline : string := String (Ascii.ascii_of_nat 10) EmptyString.

Definition ReduceOfEmptyArray : string :=
  "TypeError: Reduce of empty array with no initial value".

(** [GameLogger.callerInfo].  [matches] is what
    [new Error().stack.match(pattern)] gives: the file positions of the
    stack, innermost first, or [None] when there is no stack or no
    position in it.  [reduce] is called with no initial value: it throws
    on an empty array. *)
Definition callerInfo (matches : option (list string)) : Completion (option string) :=
  match matches with
  | None => Normal None
  | Some match_ =>
      let filtered :=
        filter (fun path : string => negb (String.prefix "GameLogger" path)) match_ in
      match filtered with
      | [] => Throw ReduceOfEmptyArray
      | first :: rest =>
          let result := foldl (fun prev next => next +:+ newline +:+ prev) first rest in
          Normal (Some (newline +:+ newline +:+ result))
      end
  end.

(** [`${this.callerInfo}`] *)
Definition interpolate (info : option string) : string := default "undefined" info.

(** [GameLogger.out(type, message)]; the [default] case of its [switch]
    is for a type that is none of the four. *)
Definition out (matches : option (list string)) (type : LogLevel) (message : string)
    (st : t) : Completion unit * t :=
  match callerInfo matches with
  | Throw err => (Throw err, st)
  | Normal info => (Normal tt, write type (message +:+ " " +:+ interpolate info) st)
  end.

Definition fatalError (matches : option (list string)) (message : string) (st : t)
    : Completion unit * t :=
  match callerInfo matches with
  | Throw err => (Throw err, st)
  | Normal info => (Throw (message +:+ " " +:+ interpolate info), st)
  end.

Definition setErrorsStore (errorsSet : nat) (st : t) : t :=
  match storedErrors st with
  | Some _ => st
  | None => put_storedErrors (Some errorsSet) st
  end.

Definition setExceptionsStore (exceptionsSet : nat) (st : t) : t :=
  match storedExceptions st with
  | Some _ => st
  | None => put_storedExceptions (Some exceptionsSet) st
  end.

Definition error_text (err : LoggerLogType) : string :=
  title err +:+ newline +:+ newline +:+ message err +:+ newline +:+ newline
  +:+ "Error id: " +:+ pretty (id err).

Definition exception_text (ex : LoggerLogType) : string :=
  title ex +:+ newline +:+ newline +:+ message ex +:+ newline +:+ newline
  +:+ "Exception id: " +:+ pretty (id ex).

(** The loop of [error] over the table; the result is [isFound]. *)
Fixpoint error_loop (matches : option (list string)) (store : nat) (errorId : Z)
    (table : list LoggerLogType) (st : t) : Completion bool * t :=
  match table with
  | [] => (Normal false, st)
  | err :: table =>
      if bool_decide (id err = errorId)
      then
        match out matches console_error (error_text err) st with
        | (Throw e, st) => (Throw e, st)
        | (Normal _, st) => (Normal true, set_add store errorId st)
        end
      else error_loop matches store errorId table st
  end.

Definition error (matches : option (list string)) (errorId : Z) (st : t)
    : Completion unit * t :=
  match storedErrors st with
  | None => (Normal tt, st)
  | Some store =>
      if set_has store errorId st then (Normal tt, st)
      else
        match error_loop matches store errorId (errors st) st with
        | (Throw e, st) => (Throw e, st)
        | (Normal true, st) => (Normal tt, st)
        | (Normal false, st) =>
            (Normal tt,
             write console_error ("Error id " +:+ pretty errorId +:+ " not found.") st)
        end
  end.

Fixpoint exception_loop (matches : option (list string)) (store : nat)
    (exceptionId : Z) (table : list LoggerLogType) (st : t) : Completion bool * t :=
  match table with
  | [] => (Normal false, st)
  | ex :: table =>
      if bool_decide (id ex = exceptionId)
      then
        match out matches console_warn (exception_text ex) st with
        | (Throw e, st) => (Throw e, st)
        | (Normal _, st) => (Normal true, set_add store exceptionId st)
        end
      else exception_loop matches store exceptionId table st
  end.

(** [exception]: the statement after the loop is [if (isFound) true;],
    which returns nothing; the line that follows it is always run. *)
Definition exception (matches : option (list string)) (exceptionId : Z) (st : t)
    : Completion unit * t :=
  match storedExceptions st with
  | None => (Normal tt, st)
  | Some store =>
      if set_has store exceptionId st then (Normal tt, st)
      else
        match exception_loop matches store exceptionId (exceptions st) st with
        | (Throw e, st) => (Throw e, st)
        | (Normal _, st) =>
            (Normal tt,
             write console_warn
               ("Exception id " +:+ pretty exceptionId +:+ " not found.") st)
        end
  end.

End GameLogger.

Section Logger.

Import GameLogger.

Lemma out_result (matches : option (list string)) (type : LogLevel) (message : string)
    (st : GameLogger.t) :
  (exists e, out matches type message st = (Throw e, st))
  \/ (exists info, callerInfo matches = Normal info
        /\ out matches type message st
           = (Normal tt, write type (message +:+ " " +:+ interpolate info) st)).
Proof.
  unfold out. destruct (callerInfo matches) as [info|e]; [right|left]; eauto.
Qed.

(** The loop of [error] on a table that has the id: it throws with the
    state as it was, or has written and recorded the id. *)
Lemma error_loop_known (matches : option (list string)) (store : nat) (errorId : Z)
    (table : list LoggerLogType) (st : GameLogger.t) :
  (exists err, err ∈ table /\ id err = errorId) ->
  (exists e, error_loop matches store errorId table st = (Throw e, st))
  \/ (exists st', error_loop matches store errorId table st
                  = (Normal true, set_add store errorId st')
        /\ storedErrors st' = storedErrors st
        /\ storedExceptions st' = storedExceptions st
        /\ errors st' = errors st /\ sets st' = sets st).
Proof.
  induction table as [|err table IH]; intros (e & Hin & Hid).
  - by apply elem_of_nil in Hin.
  - cbn [error_loop]. case_bool_decide as Hhead.
    + destruct (out_result matches console_error (error_text err) st)
        as [(x & ->)|(info & _ & ->)]; [left; eauto|].
      right. eexists. split; [done|]. done.
    + apply IH. exists e. split; [|done].
      apply elem_of_cons in Hin as [->|Hin]; [congruence | done].
Qed.

Lemma error_loop_unknown (matches : option (list string)) (store : nat) (errorId : Z)
    (table : list LoggerLogType) (st : GameLogger.t) :
  (forall err, err ∈ table -> id err ≠ errorId) ->
  error_loop matches store errorId table st = (Normal false, st).
Proof.
  induction table as [|err table IH]; intros Hnone; [done|].
  cbn [error_loop]. rewrite bool_decide_eq_false_2.
  - apply IH. intros e He. apply Hnone, elem_of_cons. by right.
  - apply Hnone, elem_of_cons. by left.
Qed.

Lemma set_has_add (store : nat) (i : Z) (st : GameLogger.t) :
  set_has store i (set_add store i st) = true.
Proof.
  unfold set_has, set_add. cbn. rewrite lookup_insert_eq. cbn.
  apply bool_decide_eq_true_2, elem_of_union. left. by apply elem_of_singleton.
Qed.

(** A call on the logger. *)
Inductive LoggerCall :=
| CallOut (matches : option (list string)) (type : LogLevel) (message : string)
| CallFatalError (matches : option (list string)) (message : string)
| CallSetErrorsStore (errorsSet : nat)
| CallSetExceptionsStore (exceptionsSet : nat)
| CallError (matches : option (list string)) (errorId : Z)
| CallException (matches : option (list string)) (exceptionId : Z).

(** The logger after the call, returned or thrown. *)
Definition after_call (st : GameLogger.t) (c : LoggerCall) : GameLogger.t :=
  match c with
  | CallOut matches type message => (out matches type message st).2
  | CallFatalError matches message => (fatalError matches message st).2
  | CallSetErrorsStore errorsSet => setErrorsStore errorsSet st
  | CallSetExceptionsStore exceptionsSet => setExceptionsStore exceptionsSet st
  | CallError matches errorId => (error matches errorId st).2
  | CallException matches exceptionId => (exception matches exceptionId st).2
  end.

(** The store of errors is [store] and holds [i]. *)
Definition recorded (store : nat) (i : Z) (st : GameLogger.t) : Prop :=
  storedErrors st = Some store /\ set_has store i st = true.

Lemma recorded_write store i l line st :
  recorded store i st -> recorded store i (write l line st).
Proof. by intros []. Qed.

Lemma recorded_set_add store i store' j st :
  recorded store i st -> recorded store i (set_add store' j st).
Proof.
  intros [Hs Hi]. split; [done|]. unfold set_has, set_add in *. cbn.
  apply bool_decide_eq_true_1 in Hi. apply bool_decide_eq_true_2.
  destruct (decide (store' = store)) as [->|Hne].
  - rewrite lookup_insert_eq. cbn. apply elem_of_union. by right.
  - by rewrite lookup_insert_ne.
Qed.

Lemma recorded_out store i matches type message st :
  recorded store i st -> recorded store i (out matches type message st).2.
Proof.
  intros H. unfold out. destruct (callerInfo matches); [|done].
  by apply recorded_write.
Qed.

Lemma recorded_error_loop store i matches store' j table st :
  recorded store i st -> recorded store i (error_loop matches store' j table st).2.
Proof.
  intros H. induction table as [|err table IH]; [done|]. cbn [error_loop].
  case_bool_decide; [|done].
  pose proof (recorded_out store i matches console_error (error_text err) st H) as Hout.
  destruct (out matches console_error (error_text err) st) as [[[]|e] st1];
    cbn [snd] in *; [|done].
  by apply recorded_set_add.
Qed.

Lemma recorded_exception_loop store i matches store' j table st :
  recorded store i st ->
  recorded store i (exception_loop matches store' j table st).2.
Proof.
  intros H. induction table as [|ex table IH]; [done|]. cbn [exception_loop].
  case_bool_decide; [|done].
  pose proof (recorded_out store i matches console_warn (exception_text ex) st H)
    as Hout.
  destruct (out matches console_warn (exception_text ex) st) as [[[]|e] st1];
    cbn [snd] in *; [|done].
  by apply recorded_set_add.
Qed.

(** No call on the logger takes an id out of the store of errors or
    changes the store. *)
Lemma recorded_after_call store i st c :
  recorded store i st -> recorded store i (after_call st c).
Proof.
  intros H. destruct c as [m t msg | m msg | r | r | m j | m j]; cbn [after_call].
  - by apply recorded_out.
  - unfold fatalError. by destruct (callerInfo m).
  - unfold setErrorsStore. destruct H as [Hs ?]. rewrite Hs. by split.
  - unfold setExceptionsStore. by destruct (storedExceptions st).
  - unfold error. destruct (storedErrors st) as [store'|]; [|done].
    destruct (set_has store' j st); [done|].
    pose proof (recorded_error_loop store i m store' j (errors st) st H) as Hloop.
    destruct (error_loop m store' j (errors st) st) as [[[]|e] st1];
      cbn [snd] in *; try done; by apply recorded_write.
  - unfold exception. destruct (storedExceptions st) as [store'|]; [|done].
    destruct (set_has store' j st); [done|].
    pose proof (recorded_exception_loop store i m store' j (exceptions st) st H)
      as Hloop.
    destruct (exception_loop m store' j (exceptions st) st) as [[b|e] st1];
      cbn [snd] in *; try done; by apply recorded_write.
Qed.

(** An error of the table is reported once.  With a store set, when
    [error(id)] has returned for an id that is in the table, then
    whatever calls on the logger follow ([error] and [exception] of
    this or other ids, [out], [fatalError], the setters of the stores),
    every later [error(id)] returns at once, writing nothing and
    recording nothing. *)
Theorem error_known_id_reported_once (matches matches' : option (list string))
    (errorId : Z) (store : nat) (calls : list LoggerCall) (st st' : GameLogger.t) :
  storedErrors st = Some store ->
  (exists err, err ∈ errors st /\ id err = errorId) ->
  error matches errorId st = (Normal tt, st') ->
  let later := foldl after_call st' calls in
  error matches' errorId later = (Normal tt, later).
Proof.
  intros Hstore Hknown Hfirst. cbv zeta.
  assert (Hrec : recorded store errorId st').
  { unfold error in Hfirst. rewrite Hstore in Hfirst.
    destruct (set_has store errorId st) eqn:Hhas.
    - injection Hfirst as <-. done.
    - destruct (error_loop_known matches store errorId (errors st) st Hknown)
        as [(e & He)|(st1 & He & Hs & _ & _ & _)]; rewrite He in Hfirst; [done|].
      injection Hfirst as <-. split; [by cbn; rewrite Hs, Hstore|].
      apply set_has_add. }
  assert (Hlater : recorded store errorId (foldl after_call st' calls)).
  { clear Hfirst. revert st' Hrec.
    induction calls as [|c calls IH]; intros st' Hrec; [done|].
    cbn [foldl]. by apply IH, recorded_after_call. }
  destruct Hlater as [Hs Hi]. unfold error. by rewrite Hs, Hi.
Qed.

Definition table : list LoggerLogType :=
  [mkLog 1 "Asset" "The asset was not found."; mkLog 2 "Object" "No such object."].

(** A logger with its stores set to the sets 0 and 1 of the page. *)
Definition logger : GameLogger.t :=
  setExceptionsStore 1
    (setErrorsStore 0 (GameLogger.mk None None table table {[0 := ∅; 1 := ∅]} [])).

Lemma error_known_id_reported_once_witness :
  let later :=
    foldl after_call (error (Some ["game.js:10:4"]) 2 logger).2
      [CallError None 1; CallException (Some ["game.js:12:4"]) 2;
       CallSetErrorsStore 1; CallError None 7; CallOut None console_info "tick"] in
  error None 2 later = (Normal tt, later).
Proof.
  apply (error_known_id_reported_once (Some ["game.js:10:4"]) None 2 0
           [CallError None 1; CallException (Some ["game.js:12:4"]) 2;
            CallSetErrorsStore 1; CallError None 7; CallOut None console_info "tick"]
           logger).
  - reflexivity.
  - exists (mkLog 2 "Object" "No such object."). split; [|done].
    apply elem_of_cons. right. apply elem_of_cons. by left.
  - reflexivity.
Defined.

(** An id that is not in the table is reported every time: [error(id)]
    writes the line saying so and records nothing, so that [n] calls
    write [n] lines. *)
Theorem error_unknown_id_reported_every_time (matches : option (list string))
    (errorId : Z) (n : nat) (st : GameLogger.t) (store : nat) :
  storedErrors st = Some store ->
  set_has store errorId st = false ->
  (forall err, err ∈ errors st -> id err ≠ errorId) ->
  let st' := Nat.iter n (fun st => (error matches errorId st).2) st in
  console st'
  = replicate n (console_error, "Error id " +:+ pretty errorId +:+ " not found.")
    ++ console st
  /\ sets st' = sets st.
Proof.
  intros Hstore Hhas Hnone. cbv zeta.
  assert (Hstep : forall st1,
            storedErrors st1 = Some store -> errors st1 = errors st ->
            sets st1 = sets st ->
            (error matches errorId st1).2
            = write console_error ("Error id " +:+ pretty errorId +:+ " not found.")
                st1).
  { intros st1 H1 H2 H3. unfold error. rewrite H1.
    replace (set_has store errorId st1) with false
      by (unfold set_has in *; by rewrite H3).
    by rewrite error_loop_unknown by (rewrite H2; exact Hnone). }
  induction n as [|n IH].
  - done.
  - rewrite Nat.iter_succ. cbn [replicate].
    set (st' := Nat.iter n _ st) in *.
    assert (Hkeep : storedErrors st' = Some store /\ errors st' = errors st
                    /\ sets st' = sets st).
    { subst st'. clear IH. induction n as [|n IH]; [done|].
      rewrite Nat.iter_succ. destruct IH as (H1 & H2 & H3).
      by rewrite Hstep. }
    destruct Hkeep as (H1 & H2 & H3), IH as [Hc Hs].
    rewrite Hstep by done. cbn. by rewrite Hc, Hs.
Qed.

Lemma error_unknown_id_reported_every_time_witness :
  let st' := Nat.iter 3 (fun st => (error None 7 st).2) logger in
  console st'
  = replicate 3 (console_error, "Error id " +:+ pretty 7%Z +:+ " not found.")
    ++ console logger
  /\ sets st' = sets logger.
Proof.
  apply (error_unknown_id_reported_every_time None 7 3 logger 0).
  - reflexivity.
  - unfold set_has. apply bool_decide_eq_false_2. cbn.
    rewrite lookup_insert_eq. cbn. apply not_elem_of_empty.
  - intros err Hin. cbn in Hin.
    repeat (apply elem_of_cons in Hin as [->|Hin]); [done|done|].
    by apply elem_of_nil in Hin.
Defined.

(** A known exception is also reported as not found: [exception(id)],
    for an id whose first entry in the table is [ex] and that is not
    recorded yet, writes the warning of [ex], records the id, and then
    writes that the id was not found. *)
Theorem exception_known_id_also_not_found (matches : option (list string))
    (info : option string) (exceptionId : Z) (store : nat)
    (before after : list LoggerLogType) (ex : LoggerLogType) (st : GameLogger.t) :
  storedExceptions st = Some store ->
  set_has store exceptionId st = false ->
  exceptions st = before ++ ex :: after ->
  (forall e, e ∈ before -> id e ≠ exceptionId) ->
  id ex = exceptionId ->
  callerInfo matches = Normal info ->
  let r := exception matches exceptionId st in
  r.1 = Normal tt
  /\ console r.2
     = (console_warn, "Exception id " +:+ pretty exceptionId +:+ " not found.")
       :: (console_warn, exception_text ex +:+ " " +:+ interpolate info)
       :: console st
  /\ set_has store exceptionId r.2 = true.
Proof.
  intros Hstore Hhas Htable Hbefore Hex Hinfo. cbv zeta.
  unfold exception. rewrite Hstore, Hhas, Htable.
  assert (Hloop : exception_loop matches store exceptionId (before ++ ex :: after) st
                  = (Normal true,
                     set_add store exceptionId
                       (write console_warn
                          (exception_text ex +:+ " " +:+ interpolate info) st))).
  { clear Htable. induction before as [|e before IH]; cbn [app exception_loop].
    - rewrite bool_decide_eq_true_2 by done. unfold out. by rewrite Hinfo.
    - rewrite bool_decide_eq_false_2 by (apply Hbefore, elem_of_cons; by left).
      apply IH. intros e' He'. apply Hbefore, elem_of_cons. by right. }
  rewrite Hloop. cbn [fst snd]. split; [done|]. split; [done|].
  unfold set_has, set_add. cbn. rewrite lookup_insert_eq. cbn.
  apply bool_decide_eq_true_2, elem_of_union. left. by apply elem_of_singleton.
Qed.

Lemma exception_known_id_also_not_found_witness :
  let r := exception (Some ["GameLogger.ts:20:3"; "game.js:10:4"]) 2 logger in
  r.1 = Normal tt
  /\ console r.2
     = (console_warn, "Exception id " +:+ pretty 2%Z +:+ " not found.")
       :: (console_warn,
           exception_text (mkLog 2 "Object" "No such object.") +:+ " "
           +:+ interpolate (Some (newline +:+ newline +:+ "game.js:10:4")))
       :: console logger
  /\ set_has 1 2 r.2 = true.
Proof.
  apply (exception_known_id_also_not_found
           (Some ["GameLogger.ts:20:3"; "game.js:10:4"])
           (Some (newline +:+ newline +:+ "game.js:10:4")) 2 1
           [mkLog 1 "Asset" "The asset was not found."] []
           (mkLog 2 "Object" "No such object.") logger).
  - reflexivity.
  - unfold set_has. apply bool_decide_eq_false_2.
    assert (sets logger !! 1 = Some ∅) as -> by reflexivity.
    apply not_elem_of_empty.
  - reflexivity.
  - intros e He. apply list_elem_of_singleton in He as ->. done.
  - reflexivity.
  - reflexivity.
Defined.

(** The first store handed to the logger stays: a second
    [setErrorsStore] is ignored, and no call of [error] ever touches
    the set it was given. *)
Theorem second_errors_store_is_ignored (first second : nat)
    (calls : list (option (list string) * Z)) (st : GameLogger.t) :
  storedErrors st = None ->
  first ≠ second ->
  let st' :=
    foldl (fun st c => (error c.1 c.2 st).2)
      (setErrorsStore second (setErrorsStore first st)) calls in
  storedErrors st' = Some first /\ sets st' !! second = sets st !! second.
Proof.
  intros Hnone Hne. cbv zeta.
  assert (Hstart : storedErrors (setErrorsStore second (setErrorsStore first st))
                   = Some first
                   /\ sets (setErrorsStore second (setErrorsStore first st))
                      !! second = sets st !! second).
  { unfold setErrorsStore. rewrite Hnone. cbn. done. }
  revert Hstart. generalize (setErrorsStore second (setErrorsStore first st)).
  induction calls as [|[matches errorId] calls IH]; intros st1 [Hs Hsets]; [done|].
  cbn [foldl fst snd]. apply IH. unfold error. rewrite Hs.
  destruct (set_has first errorId st1); [done|].
  assert (Hloop : forall table,
            storedErrors (error_loop matches first errorId table st1).2 = Some first
            /\ sets (error_loop matches first errorId table st1).2 !! second
               = sets st !! second).
  { induction table0 as [|err table0 IHt]; [done|]. cbn [error_loop].
    case_bool_decide; [|done]. unfold out.
    destruct (callerInfo matches); cbn; [|done].
    by rewrite lookup_insert_ne. }
  specialize (Hloop (errors st1)).
  destruct (error_loop matches first errorId (errors st1) st1) as [[[]|e] st2];
    done.
Qed.

Lemma second_errors_store_is_ignored_witness :
  let st' :=
    foldl (fun st c => (error c.1 c.2 st).2)
      (setErrorsStore 1
         (setErrorsStore 0 (GameLogger.mk None None table table {[0 := ∅; 1 := ∅]} [])))
      [(None, 2%Z); (Some ["game.js:10:4"], 1%Z)] in
  storedErrors st' = Some 0
  /\ sets st' !! 1
     = sets (GameLogger.mk None None table table {[0 := ∅; 1 := ∅]} []) !! 1.
Proof.
  apply (second_errors_store_is_ignored 0 1
           [(None, 2%Z); (Some ["game.js:10:4"], 1%Z)]
           (GameLogger.mk None None table table {[0 := ∅; 1 := ∅]} [])).
  - reflexivity.
  - done.
Defined.

Lemma append_assoc (a b c : string) : (a +:+ b) +:+ c = a +:+ b +:+ c.
Proof.
  induction a as [|x a IH]; [done|].
  change (String x ((a +:+ b) +:+ c) = String x (a +:+ b +:+ c)).
  by rewrite IH.
Qed.

Lemma concat_snoc (sep : string) (l : list string) (a : string) :
  l ≠ [] -> String.concat sep (l ++ [a]) = String.concat sep l +:+ sep +:+ a.
Proof.
  induction l as [|b l IH]; intros Hl; [done|].
  destruct l as [|c l]; [done|].
  change (String.concat sep ((b :: c :: l) ++ [a]))
    with (b +:+ sep +:+ String.concat sep ((c :: l) ++ [a])).
  rewrite IH by done.
  change (String.concat sep (b :: c :: l))
    with (b +:+ sep +:+ String.concat sep (c :: l)).
  by rewrite !append_assoc.
Qed.

(** The positions [reduce] joins: the first of the list ends up last. *)
Lemma reduce_reverse (first : string) (rest : list string) :
  foldl (fun prev next => next +:+ newline +:+ prev) first rest
  = String.concat newline (reverse (first :: rest)).
Proof.
  revert first. induction rest as [|next rest IH]; intros first; [done|].
  cbn [foldl]. rewrite IH. rewrite !reverse_cons.
  rewrite (concat_snoc newline (reverse rest ++ [next]) first)
    by by destruct (reverse rest).
  destruct (reverse rest) as [|r l] eqn:E; [done|].
  rewrite !concat_snoc by done. by rewrite !append_assoc.
Qed.

(** [callerInfo] lists the positions of the callers outermost first,
    one per line after an empty line, the logger's own left out. *)
Theorem callerInfo_lists_callers_outermost_first (match_ : list string) :
  filter (fun path : string => negb (String.prefix "GameLogger" path)) match_ ≠ [] ->
  callerInfo (Some match_)
  = Normal (Some (newline +:+ newline
                  +:+ String.concat newline
                        (reverse
                           (filter
                              (fun path : string =>
                                 negb (String.prefix "GameLogger" path))
                              match_)))).
Proof.
  intros Hne. unfold callerInfo.
  destruct (filter _ match_) as [|first rest]; [done|].
  by rewrite reduce_reverse.
Qed.

Lemma callerInfo_lists_callers_outermost_first_witness :
  callerInfo (Some ["GameLogger.ts:29:8"; "Game.js:713:24"; "main.js:5:1"])
  = Normal (Some (newline +:+ newline
                  +:+ String.concat newline
                        (reverse
                           (filter
                              (fun path : string =>
                                 negb (String.prefix "GameLogger" path))
                              ["GameLogger.ts:29:8"; "Game.js:713:24"; "main.js:5:1"])))).
Proof.
  apply (callerInfo_lists_callers_outermost_first
           ["GameLogger.ts:29:8"; "Game.js:713:24"; "main.js:5:1"]).
  vm_compute. discriminate.
Defined.

(** When every position of the stack is the logger's own, nothing is
    written: [out] throws the [TypeError] of [reduce], and so does
    [fatalError], in place of the error it was to throw. *)
Theorem logger_throws_without_outside_caller (match_ : list string) (type : LogLevel)
    (message : string) (st : GameLogger.t) :
  Forall (fun path => String.prefix "GameLogger" path = true) match_ ->
  out (Some match_) type message st = (Throw ReduceOfEmptyArray, st)
  /\ fatalError (Some match_) message st = (Throw ReduceOfEmptyArray, st).
Proof.
  intros Hown.
  assert (Hempty : filter (fun path : string => negb (String.prefix "GameLogger" path))
                     match_ = []).
  { induction Hown as [|path l Hpath _ IH]; [done|].
    rewrite filter_cons_False; [done|]. rewrite Hpath. cbn. tauto. }
  unfold out, fatalError, callerInfo. by rewrite Hempty.
Qed.

Lemma logger_throws_without_outside_caller_witness :
  out (Some ["GameLogger.ts:29:8"]) console_info "Utility logs are now enabled." logger
  = (Throw ReduceOfEmptyArray, logger)
  /\ fatalError (Some ["GameLogger.ts:29:8"]) "Utility logs are now enabled." logger
     = (Throw ReduceOfEmptyArray, logger).
Proof.
  apply (logger_throws_without_outside_caller ["GameLogger.ts:29:8"] console_info
           "Utility logs are now enabled." logger).
  apply Forall_singleton. reflexivity.
Defined.

End Logger.

(** * The gamepad input source

    [GameGamepad] keeps the state of the keys in the map it is built
    over, through a key-down and a key-up listener on the window. *)

Module GameGamepad.

(** An instance with what it acts on: the map of key states (the map of
    its owner, by reference), whether its two listeners are on the
    window, and the console.  [event.preventDefault()] acts on the
    event only. *)
Record t := mk {
  gamepadState : gmap string bool;
  attached : bool;
  console : Console
}.

(** [new GameGamepad(keyboardStateMap)], on a page whose console holds
    [lines]. *)
Definition new (keyboardStateMap : gmap string bool) (lines : Console) : t :=
  mk keyboardStateMap true
    ((console_info, "Keyboard Event Listener sucessfuly created") :: lines).

(** The listener of [keydown], for [event.key]. *)
Definition keyDownListener (key : string) (m : gmap string bool) : gmap string bool :=
  let m := if negb (bool_decide (is_Some (m !! key))) then <[key := true]> m else m in
  if bool_decide (m !! key = Some false) then <[key := true]> m else m.

(** The listener of [keyup], for [event.key]. *)
Definition keyUpListener (key : string) (m : gmap string bool) : gmap string bool :=
  if bool_decide (m !! key = Some true) then <[key := false]> m else m.

(** The listeners are fields set by the constructor: [removeListener]
    finds them defined. *)
Definition removeListener (p : t) : t :=
  mk (gamepadState p) false
    ((console_info, "Keyboard Event Listener sucessfuly removed") :: console p).

Definition isDown (key : string) (p : t) : bool :=
  if bool_decide (is_Some (gamepadState p !! key))
  then if bool_decide (gamepadState p !! key = Some true) then true else false
  else false.

(** The key events of the window. *)
Inductive KeyEvent :=
| keydown (key : string)
| keyup (key : string).

(** The window dispatches an event to the listeners it has. *)
Definition dispatch (p : t) (e : KeyEvent) : t :=
  if attached p
  then
    match e with
    | keydown key => mk (keyDownListener key (gamepadState p)) true (console p)
    | keyup key => mk (keyUpListener key (gamepadState p)) true (console p)
    end
  else p.

End GameGamepad.

Section Gamepad.

Import GameGamepad.

(** What the event says of the key, if it is an event of that key. *)
Definition pressed (key : string) (e : KeyEvent) : option bool :=
  match e with
  | keydown k => if decide (k = key) then Some true else None
  | keyup k => if decide (k = key) then Some false else None
  end.

(** The keys the events press. *)
Definition pressed_keys (events : list KeyEvent) : gset string :=
  list_to_set (omap (fun e => match e with keydown k => Some k | keyup _ => None end)
                 events).

Lemma keyDownListener_sets (key : string) (m : gmap string bool) :
  keyDownListener key m = <[key := true]> m.
Proof.
  unfold keyDownListener. destruct (m !! key) as [b|] eqn:Hb.
  - rewrite (bool_decide_eq_true_2 (is_Some (Some b))) by eauto. cbn [negb].
    rewrite Hb. destruct b.
    + rewrite bool_decide_eq_false_2 by done. by rewrite insert_id.
    + by rewrite bool_decide_eq_true_2.
  - rewrite (bool_decide_eq_false_2 (is_Some None)) by (intros []; done). cbn [negb].
    rewrite lookup_insert_eq, bool_decide_eq_false_2 by done. done.
Qed.

Lemma isDown_spec (key : string) (p : GameGamepad.t) :
  isDown key p = bool_decide (gamepadState p !! key = Some true).
Proof.
  unfold isDown. repeat case_bool_decide; try done.
  exfalso. naive_solver.
Qed.

Lemma dispatch_attached (p : GameGamepad.t) (e : KeyEvent) :
  attached (dispatch p e) = attached p.
Proof. unfold dispatch. destruct (attached p) eqn:E, e; done. Qed.

Lemma isDown_dispatch (key : string) (p : GameGamepad.t) (e : KeyEvent) :
  attached p = true ->
  isDown key (dispatch p e) = default (isDown key p) (pressed key e).
Proof.
  intros Hon. rewrite !isDown_spec. unfold dispatch, pressed. rewrite Hon.
  destruct e as [k|k]; cbn [gamepadState].
  - rewrite keyDownListener_sets. destruct (decide (k = key)) as [->|Hk]; cbn [default].
    + rewrite lookup_insert_eq. by apply bool_decide_eq_true_2.
    + by rewrite lookup_insert_ne.
  - unfold keyUpListener.
    destruct (bool_decide (gamepadState p !! k = Some true)) eqn:Hdown;
      destruct (decide (k = key)) as [->|Hk]; cbn [default].
    + rewrite lookup_insert_eq. by apply bool_decide_eq_false_2.
    + by rewrite lookup_insert_ne.
    + done.
    + done.
Qed.

(** While the listeners are attached, [isDown(key)] is what the last
    event of the key said: true after its key-down, false after its
    key-up, and as before when no event was of that key.  After
    [removeListener] no event changes it. *)
Theorem isDown_is_last_event_of_key (keyboardStateMap : gmap string bool)
    (lines : Console) (events later : list KeyEvent) (key : string) :
  let p := foldl dispatch (new keyboardStateMap lines) events in
  isDown key p
  = default (bool_decide (keyboardStateMap !! key = Some true))
      (last (omap (pressed key) events))
  /\ isDown key (foldl dispatch (removeListener p) later) = isDown key p.
Proof.
  cbv zeta. split.
  - assert (Hevents : forall p, attached p = true ->
              isDown key (foldl dispatch p events)
              = default (isDown key p) (last (omap (pressed key) events))).
    { induction events as [|e events IH]; intros p Hon; [done|].
      cbn [foldl omap]. rewrite IH by by rewrite dispatch_attached.
      rewrite isDown_dispatch by done. cbn [omap list_omap].
      destruct (pressed key e) as [b|]; cbn [default]; [|done].
      rewrite last_cons. by destruct (last _). }
    rewrite Hevents by done. by rewrite isDown_spec.
  - generalize (foldl dispatch (new keyboardStateMap lines) events). intros p.
    assert (Hfrozen : forall q, attached q = false -> foldl dispatch q later = q).
    { induction later as [|e later' IH]; intros q Hq; [done|].
      cbn [foldl]. unfold dispatch at 2. rewrite Hq. by apply IH. }
    rewrite Hfrozen by done. by rewrite !isDown_spec.
Qed.

(** A key gets into the map only by being pressed: after any events,
    the keys of the map are those it had and those of the key-down
    events; a key-up adds none. *)
Theorem keys_enter_by_keydown_only (keyboardStateMap : gmap string bool)
    (lines : Console) (events : list KeyEvent) :
  dom (gamepadState (foldl dispatch (new keyboardStateMap lines) events))
  = dom keyboardStateMap ∪ pressed_keys events.
Proof.
  change keyboardStateMap with (gamepadState (new keyboardStateMap lines)) at 2.
  assert (Hon : attached (new keyboardStateMap lines) = true) by done.
  revert Hon. generalize (new keyboardStateMap lines).
  induction events as [|e events IH]; intros p Hon.
  - unfold pressed_keys. cbn. by rewrite (right_id_L ∅ (∪)).
  - cbn [foldl]. rewrite IH by by rewrite dispatch_attached.
    unfold dispatch. rewrite Hon. unfold pressed_keys.
    destruct e as [k|k]; cbn [gamepadState omap list_omap list_to_set].
    + rewrite keyDownListener_sets, dom_insert_L. by rewrite (assoc_L (∪)), (comm_L (∪) {[k]}).
    + unfold keyUpListener. case_bool_decide as Hdown; [|done].
      rewrite dom_insert_L.
      assert (Hk : k ∈ dom (gamepadState p)) by (apply elem_of_dom; eauto).
      f_equal. apply subseteq_union_1_L. by apply singleton_subseteq_l.
Qed.

End Gamepad.

(** * Sprite sheets

    [SpriteSheet] cuts the image of a sprite into a grid of cells and
    keeps named animations. *)

Module SpriteSheet.

(** The properties [setAnimation] hands to [new GameSprite]. *)
Record GameSpriteProps := mkProps {
  name : string;
  src : string;
  pos : Vector2.t;
  size : Vector2.t;
  type : string
}.

Record t := mk {
  sprite : GameSprite.t;
  slicing : Vector2.t;
  grid : Vector2.t;
  animations : gmap string GameSprite.t
}.

Section WithHost.

(** The division of numbers.  The numbers of the page are doubles and
    their division rounds: nothing is assumed of it here. *)
Variable divide : number -> number -> number.

(** The constructor of [GameSprite], whose class is not in the
    sources. *)
Variable new_GameSprite : GameSpriteProps -> GameSprite.t.

(** [new SpriteSheet(sprite, sliceX, sliceY)] *)
Definition new (sprite : GameSprite.t) (sliceX sliceY : number) : t :=
  let slicing := Vector2.mk sliceX sliceY in
  mk sprite slicing
    (Vector2.mk (divide (Vector2.x (GameSprite.size sprite)) (Vector2.x slicing))
       (divide (Vector2.y (GameSprite.size sprite)) (Vector2.y slicing)))
    ∅.

Definition log (s : t) : t := s.

(** The properties of the sprite of the animation [name]. *)
Definition animation_props (animationName : string) (s : t) : GameSpriteProps :=
  mkProps (GameSprite.name (sprite s) +:+ "_" +:+ animationName)
    (GameSprite.src (sprite s)) (GameSprite.pos (sprite s))
    (Vector2.mk (divide (Vector2.x (GameSprite.size (sprite s))) (Vector2.x (grid s)))
       (Vector2.y (GameSprite.size (sprite s))))
    "img".

(** The test [setAnimation] returns on: the cell is outside the grid. *)
Definition outside_grid (gridX gridY : number) (s : t) : bool :=
  gt gridX (Vector2.x (grid s)) || lt gridX 1
  || gt gridY (Vector2.y (grid s)) || lt gridY 1.

Definition setAnimation (animationName : string) (gridX gridY animationTime : number)
    (s : t) : t :=
  if outside_grid gridX gridY s
  then s
  else
    if negb (bool_decide (is_Some (animations s !! animationName)))
    then
      mk (sprite s) (slicing s) (grid s)
        (<[animationName := new_GameSprite (animation_props animationName s)]>
           (animations s))
    else s.

End WithHost.

End SpriteSheet.

Section SpriteSheets.

Import SpriteSheet.

Variable divide : number -> number -> number.
Variable new_GameSprite : GameSpriteProps -> GameSprite.t.

(** A call of [setAnimation]: the name, the cell and the time. *)
Definition SetAnimation : Type := string * number * number * number.

Definition apply_setAnimation (s : SpriteSheet.t) (c : SetAnimation) : SpriteSheet.t :=
  let '(animationName, gridX, gridY, animationTime) := c in
  setAnimation divide new_GameSprite animationName gridX gridY animationTime s.

Lemma setAnimation_keeps (animationName : string) (gridX gridY animationTime : number)
    (s : SpriteSheet.t) :
  let s' :=
    setAnimation divide new_GameSprite animationName gridX gridY animationTime s in
  sprite s' = sprite s /\ slicing s' = slicing s /\ grid s' = grid s
  /\ forall k a, animations s !! k = Some a -> animations s' !! k = Some a.
Proof.
  cbv zeta. unfold setAnimation. destruct (outside_grid _ _ _); [done|].
  case_bool_decide as Hhas; cbn; [done|]. repeat split; try done.
  intros k a Hk. destruct (decide (animationName = k)) as [->|Hne].
  - destruct Hhas. eauto.
  - by rewrite lookup_insert_ne.
Qed.

(** An animation is never replaced, and the sheet keeps its sprite and
    its grid: whatever calls of [setAnimation] follow, a name that has
    an animation keeps that animation. *)
Theorem animation_is_never_replaced (calls : list SetAnimation) (s : SpriteSheet.t)
    (animationName : string) (a : GameSprite.t) :
  animations s !! animationName = Some a ->
  let s' := foldl apply_setAnimation s calls in
  animations s' !! animationName = Some a
  /\ sprite s' = sprite s /\ slicing s' = slicing s /\ grid s' = grid s.
Proof.
  cbv zeta. revert s. induction calls as [|[[[n x] y] time] calls IH]; intros s Ha.
  - done.
  - cbn [foldl apply_setAnimation].
    destruct (setAnimation_keeps n x y time s) as (H1 & H2 & H3 & H4).
    cbv zeta in *. rewrite <- H1, <- H2, <- H3. apply IH. by apply H4.
Qed.


End SpriteSheets.

(** A sheet of four cells of 16 by 16 over a sprite of 64 by 16. *)
Definition walk_strip : GameSprite.t :=
  GameSprite.mk "hero" "./hero.png" (Vector2.mk 0 0) (Vector2.mk 64 16) 0
    (Vector2.mk 0 0) (Flip.mk false false) 1.

(** A constructor of sprites from their properties, for the examples:
    the new sprite has no rotation, skew or flip. *)
Definition sprite_of_props (p : SpriteSheet.GameSpriteProps) : GameSprite.t :=
  GameSprite.mk (SpriteSheet.name p) (SpriteSheet.src p) (SpriteSheet.pos p)
    (SpriteSheet.size p) 0 (Vector2.mk 0 0) (Flip.mk false false) 0.

Lemma animation_is_never_replaced_witness :
  let s :=
    SpriteSheet.setAnimation Qdiv sprite_of_props "walk" 1 1 100
      (SpriteSheet.new Qdiv walk_strip 16 16) in
  let s' :=
    foldl (apply_setAnimation Qdiv sprite_of_props) s
      [("walk", 3, 1, 50); ("idle", 2, 1, 50); ("walk", 9, 9, 50)]%Q in
  SpriteSheet.animations s' !! "walk"
  = Some (sprite_of_props (SpriteSheet.animation_props Qdiv "walk"
                             (SpriteSheet.new Qdiv walk_strip 16 16)))
  /\ SpriteSheet.sprite s' = SpriteSheet.sprite s
  /\ SpriteSheet.slicing s' = SpriteSheet.slicing s
  /\ SpriteSheet.grid s' = SpriteSheet.grid s.
Proof.
  apply (animation_is_never_replaced Qdiv sprite_of_props
           [("walk", 3, 1, 50); ("idle", 2, 1, 50); ("walk", 9, 9, 50)]%Q
           (SpriteSheet.setAnimation Qdiv sprite_of_props "walk" 1 1 100
              (SpriteSheet.new Qdiv walk_strip 16 16))
           "walk").
  reflexivity.
Defined.


(** * Instances of the lemmas on collisions and instances *)

Lemma colliding_incomplete_witness :
  (colliding
     (GameObject.mk 0 "a" GameSprite.getEmptyInstance (Vector2.mk 0 0)
        (Vector2.mk 10 10) (Collision.mk None (Some 0%Q) (Some 10%Q) (Some 10%Q)) 0 0)
     (boxed "b" 5 0 0 0 10 10) (constructed 320 240 true)).1
  = false.
Proof.
  apply (colliding_incomplete
           (GameObject.mk 0 "a" GameSprite.getEmptyInstance (Vector2.mk 0 0)
              (Vector2.mk 10 10) (Collision.mk None (Some 0%Q) (Some 10%Q) (Some 10%Q)) 0 0)
           (boxed "b" 5 0 0 0 10 10) (constructed 320 240 true)).
  reflexivity.
Defined.

Lemma instantiate_keeps_present_witness :
  get_gameObjects
    (instantiate coin 3 (instantiate coin 1 (constructed 320 240 true)).2).2
    !! "coin-1"
  = Some (instance coin 0 0).
Proof.
  apply (instantiate_keeps_present coin 3
           (instantiate coin 1 (constructed 320 240 true)).2 "coin-1"
           (instance coin 0 0)).
  vm_compute. reflexivity.
Defined.

Lemma instantiate_registers_absent_witness :
  get_gameObjects (instantiate coin 2 (constructed 320 240 true)).2
    !! instance_name coin 1
  = Some (instance coin (nextOid (constructed 320 240 true) + 1) 1).
Proof.
  apply (instantiate_registers_absent coin 2 (constructed 320 240 true) 1).
  - lia.
  - reflexivity.
Defined.
